(** * A shallow embedding of the call-interception engine

    The engine is the injected hook script of the debugger: it replaces
    [Function.prototype.apply] and [Function.prototype.call], recognises
    CryptoJS and JSEncrypt call conventions from the shape of the values
    that flow through them, prints key material to the console, and hides
    its wrappers behind a patched [Function.prototype.toString].

    Two variants of the script exist.  The variant with the concealment
    layer ([makeNative], [applyHook], [callHook]) is embedded in full; the
    helper functions [get_sigBytes], [hexToBase64], [wordsToHex] and
    [formatKey] are textually the same in both variants.

    Conventions of the model.
    - A JavaScript string is the list of its UTF-16 code units.
    - A JavaScript number is an integer ([Z]); fractions, NaN and the
      infinities are not values of the model.
    - Objects live in a heap and are referred to by location; own
      properties are data properties (no accessors, no proxies, every
      property writable), apart from the [__proto__] accessor of
      [Object.prototype].
    - An evaluation returns, throws, or leaves the modelled fragment
      ([OutOfModel]); the last outcome is never caught by [try]/[catch].
    - Resource limits of an engine (call-stack depth, maximal array or
      string length) are not modelled. *)

From Stdlib Require Import ZArith Lia String Ascii List.
From stdpp Require Import base option list gmap strings list_numbers.

Local Open Scope Z_scope.

(** ** Strings as UTF-16 code units *)

Abbreviation jstring := (list Z).

Definition utf16_encode (cp : Z) : jstring :=
  if cp <? 65536 then [cp]
  else [55296 + (cp - 65536) / 1024; 56320 + (cp - 65536) mod 1024].

Definition is_cont (b : Z) : bool := (128 <=? b) && (b <? 192).

(** The code point encoded by a UTF-8 byte sequence of the exact length
    announced by its first byte; [None] for an ill-formed sequence
    (wrong length, bad continuation byte, overlong form, surrogate, or
    a value above U+10FFFF). *)
Definition utf8_code_point (octets : list Z) : option Z :=
  match octets with
  | [b0] => if b0 <? 128 then Some b0 else None
  | [b0; b1] =>
      let v := (b0 - 192) * 64 + (b1 - 128) in
      if (192 <=? b0) && (b0 <? 224) && is_cont b1 && (128 <=? v)
      then Some v else None
  | [b0; b1; b2] =>
      let v := (b0 - 224) * 4096 + (b1 - 128) * 64 + (b2 - 128) in
      if (224 <=? b0) && (b0 <? 240) && is_cont b1 && is_cont b2
         && (2048 <=? v) && negb ((55296 <=? v) && (v <=? 57343))
      then Some v else None
  | [b0; b1; b2; b3] =>
      let v := (b0 - 240) * 262144 + (b1 - 128) * 4096
               + (b2 - 128) * 64 + (b3 - 128) in
      if (240 <=? b0) && (b0 <? 248) && is_cont b1 && is_cont b2
         && is_cont b3 && (65536 <=? v) && (v <=? 1114111)
      then Some v else None
  | _ => None
  end.

(** Number of bytes of the UTF-8 sequence that starts with [b]: the
    count of leading one bits, [0] for an ASCII byte. *)
Definition leading_ones (b : Z) : nat :=
  if b <? 128 then 0%nat
  else if b <? 192 then 1%nat
  else if b <? 224 then 2%nat
  else if b <? 240 then 3%nat
  else if b <? 248 then 4%nat
  else 5%nat.

Definition ascii_code (a : ascii) : Z := Z.of_N (N_of_ascii a).

Fixpoint string_bytes (s : string) : list Z :=
  match s with
  | EmptyString => []
  | String a r => ascii_code a :: string_bytes r
  end.

Fixpoint utf8_to_utf16 (fuel : nat) (bs : list Z) : jstring :=
  match fuel, bs with
  | S f, b :: r =>
      let n := Nat.max 1 (leading_ones b) in
      match utf8_code_point (take n bs) with
      | Some cp => utf16_encode cp ++ utf8_to_utf16 f (drop n bs)
      | None => b :: utf8_to_utf16 f r
      end
  | _, _ => []
  end.

(** A string literal of the source text, written here as in the source
    file (UTF-8) and turned into its code units. *)
Definition js (s : string) : jstring :=
  let bs := string_bytes s in utf8_to_utf16 (length bs) bs.

(** ** Numbers: the 32-bit conversions of the bit operators *)

Definition to_uint32 (z : Z) : Z := z mod 4294967296.

Definition to_int32 (z : Z) : Z :=
  let u := to_uint32 z in
  if u <? 2147483648 then u else u - 4294967296.

(** [x >>> n] *)
Definition ushr (x n : Z) : Z := Z.shiftr (to_uint32 x) (to_uint32 n mod 32).

(** [x & y] *)
Definition band (x y : Z) : Z := to_int32 (Z.land (to_int32 x) (to_int32 y)).

(** ** Characters *)

Definition hex_alphabet : jstring := js "0123456789abcdef".

Definition hex_digit (d : Z) : Z := nth (Z.to_nat d) hex_alphabet 0.

(** [Number.prototype.toString(16)] on a non-negative integer. *)
Fixpoint to_radix16 (fuel : nat) (n : Z) : jstring :=
  match fuel with
  | O => [hex_digit (n mod 16)]
  | S f => if n <? 16 then [hex_digit n]
           else to_radix16 f (n / 16) ++ [hex_digit (n mod 16)]
  end.

Definition toString16 (n : Z) : jstring := to_radix16 16 n.

Definition in_range (lo hi c : Z) : bool := (lo <=? c) && (c <=? hi).

(** The class [[0-9a-f]] of the percent-escaping pattern. *)
Definition is_lower_hex (c : Z) : bool := in_range 48 57 c || in_range 97 102 c.

(** Value of a hexadecimal digit of either case. *)
Definition hex_value (c : Z) : option Z :=
  if in_range 48 57 c then Some (c - 48)
  else if in_range 97 102 c then Some (c - 87)
  else if in_range 65 70 c then Some (c - 55)
  else None.

(** White space and line terminators, as the pattern class [\s] and as
    the characters that [parseInt] strips. *)
Definition is_space (c : Z) : bool :=
  in_range 9 13 c || (c =? 32) || (c =? 160) || (c =? 5760)
  || in_range 8192 8202 c || (c =? 8232) || (c =? 8233) || (c =? 8239)
  || (c =? 8287) || (c =? 12288) || (c =? 65279).

(** ** Host string functions used by the extractor *)

Fixpoint drop_spaces (s : jstring) : jstring :=
  match s with
  | c :: r => if is_space c then drop_spaces r else s
  | [] => []
  end.

Fixpoint hex_prefix_value (acc : option Z) (s : jstring) : option Z :=
  match s with
  | c :: r =>
      match hex_value c with
      | Some d => hex_prefix_value (Some (default 0 acc * 16 + d)) r
      | None => acc
      end
  | [] => acc
  end.

(** [parseInt(s, 16)]; [None] is NaN.  Exact while the digits denote a
    number below 2^53, which holds for the two-unit pieces it is given
    here. *)
Definition parseInt16 (s : jstring) : option Z :=
  let s1 := drop_spaces s in
  let '(sign, s2) :=
    match s1 with
    | 45 :: r => (-1, r)
    | 43 :: r => (1, r)
    | _ => (1, s1)
    end in
  let s3 :=
    match s2 with
    | 48 :: x :: r => if (x =? 120) || (x =? 88) then r else s2
    | _ => s2
    end in
  (fun v => sign * v) <$> hex_prefix_value None s3.

(** [s.substr(i, 2)] *)
Definition substr2 (s : jstring) (i : nat) : jstring := take 2 (drop i s).

(** [String.fromCharCode(n)] for one argument: ToUint16, NaN gives 0. *)
Definition fromCharCode (n : option Z) : Z :=
  match n with Some z => z mod 65536 | None => 0 end.

Definition b64_alphabet : jstring :=
  js "ABCDEFGHIJKLMNOPQRSTUVWXYZabcdefghijklmnopqrstuvwxyz0123456789+/".

Definition b64_char (k : Z) : Z := nth (Z.to_nat k) b64_alphabet 0.

(** Standard base64 with padding (RFC 4648) of a sequence of bytes. *)
Fixpoint base64_encode (bs : list Z) : jstring :=
  match bs with
  | [] => []
  | [a] => [b64_char (a / 4); b64_char (a mod 4 * 16); 61; 61]
  | [a; b] =>
      [b64_char (a / 4); b64_char (a mod 4 * 16 + b / 16);
       b64_char (b mod 16 * 4); 61]
  | a :: b :: c :: r =>
      [b64_char (a / 4); b64_char (a mod 4 * 16 + b / 16);
       b64_char (b mod 16 * 4 + c / 64); b64_char (c mod 64)]
      ++ base64_encode r
  end.

(** [btoa]: fails (InvalidCharacterError) on a code unit above 255. *)
Definition btoa (s : jstring) : option jstring :=
  if forallb (fun c => (0 <=? c) && (c <=? 255)) s
  then Some (base64_encode s) else None.

Definition b64_index (c : Z) : option Z :=
  if in_range 65 90 c then Some (c - 65)
  else if in_range 97 122 c then Some (c - 71)
  else if in_range 48 57 c then Some (c + 4)
  else if c =? 43 then Some 62
  else if c =? 47 then Some 63
  else None.

(** Decoding of standard padded base64, group by group. *)
Fixpoint base64_decode (s : jstring) : option (list Z) :=
  match s with
  | [] => Some []
  | c1 :: c2 :: c3 :: c4 :: r =>
      match b64_index c1, b64_index c2 with
      | Some s1, Some s2 =>
          let b1 := s1 * 4 + s2 / 16 in
          if (c3 =? 61) && (c4 =? 61) then
            match r with [] => Some [b1] | _ => None end
          else
            match b64_index c3 with
            | Some s3 =>
                let b2 := s2 mod 16 * 16 + s3 / 4 in
                if c4 =? 61 then
                  match r with [] => Some [b1; b2] | _ => None end
                else
                  match b64_index c4, base64_decode r with
                  | Some s4, Some bs =>
                      Some (b1 :: b2 :: (s3 mod 4 * 64 + s4) :: bs)
                  | _, _ => None
                  end
            | None => None
            end
      | _, _ => None
      end
  | _ => None
  end.

(** One percent escape [%XX] at the head of [s]. *)
Definition take_escape (s : jstring) : option (Z * jstring) :=
  match s with
  | 37 :: h :: l :: r =>
      match hex_value h, hex_value l with
      | Some x, Some y => Some (x * 16 + y, r)
      | _, _ => None
      end
  | _ => None
  end.

Fixpoint take_escapes (n : nat) (s : jstring) : option (list Z * jstring) :=
  match n with
  | O => Some ([], s)
  | S m =>
      match take_escape s with
      | Some (b, r) =>
          match take_escapes m r with
          | Some (bs, r') => Some (b :: bs, r')
          | None => None
          end
      | None => None
      end
  end.

(** [decodeURIComponent]; [None] is a thrown URIError. *)
Fixpoint decodeURI_loop (fuel : nat) (s : jstring) : option jstring :=
  match fuel, s with
  | _, [] => Some []
  | O, _ => None
  | S f, c :: r =>
      if c =? 37 then
        match take_escape s with
        | Some (b, r1) =>
            match leading_ones b with
            | O => cons b <$> decodeURI_loop f r1
            | S m =>
                match take_escapes m r1 with
                | Some (bs, r2) =>
                    match utf8_code_point (b :: bs) with
                    | Some cp => app (utf16_encode cp) <$> decodeURI_loop f r2
                    | None => None
                    end
                | None => None
                end
            end
        | None => None
        end
      else cons c <$> decodeURI_loop f r
  end.

Definition decodeURIComponent (s : jstring) : option jstring :=
  decodeURI_loop (length s) s.

(** [hexKey.replace(/[0-9a-f]{2}/g, '%$&')]: every pair of lower-case
    hexadecimal digits, found from left to right without overlap, gets a
    percent sign in front. *)
Fixpoint percent_escape (s : jstring) : jstring :=
  match s with
  | a :: (b :: r) as t =>
      if is_lower_hex a && is_lower_hex b
      then 37 :: a :: b :: percent_escape r
      else a :: percent_escape t
  | _ => s
  end.

(** [s.indexOf(t) !== -1] *)
Fixpoint contains (t s : jstring) : bool :=
  match s with
  | [] => bool_decide (t = [])
  | _ :: r => bool_decide (take (length t) s = t) || contains t r
  end.

Example js_ascii : js "ab" = [97; 98].
Proof. reflexivity. Qed.

Example js_cjk : js "未知" = [26410; 30693].
Proof. reflexivity. Qed.

Example decode_text : decodeURIComponent (js "%e4%b8%ad%41") = Some [20013; 65].
Proof. reflexivity. Qed.

Example decode_fails : decodeURIComponent (js "%ff") = None.
Proof. reflexivity. Qed.

(** ** Values, objects and the heap *)

Abbreviation loc := nat.

Inductive value :=
| VUndef
| VNull
| VBool (b : bool)
| VNum (n : Z)
| VStr (s : jstring)
| VRef (l : loc).

#[global] Instance value_eq_dec : EqDecision value.
Proof. solve_decision. Defined.

(** What a function object runs when it is called. *)
Inductive code :=
| CTarget (src : jstring) (id : nat)  (* a function of the page or of the host *)
| CObjectToString                     (* Object.prototype.toString *)
| CFunctionToString                   (* the native Function.prototype.toString *)
| CToStringHook                       (* the patched Function.prototype.toString *)
| CApplyHook
| CCallHook
| CFinalizeHook (temp_finalize : value)
| CEncryptHook (temp_encrypt : value)
| CDecryptHook (temp_decrypt : value).

Inductive class :=
| COrdinary
| CArray
| CArguments
| CFunction (c : code).

(** [o_props] holds the named own properties, [o_elems] the own
    properties with the integer keys 0, 1, ...; the [length] of an array
    or of an arguments object is the number of its elements. *)
Record object := Obj {
  o_class : class;
  o_proto : value;
  o_props : gmap string value;
  o_elems : list value;
}.

(** The intrinsic objects of the host that the engine relies on. *)
Record realm := Realm {
  r_object : loc;     (* Object.prototype *)
  r_function : loc;   (* Function.prototype *)
  r_number : loc;
  r_string : loc;
  r_boolean : loc;
}.

(** The state of a session: the heap shared with the page, the private
    registry [_nativeMap], and what the engine has sent to the console. *)
Record state := State {
  heap : list object;
  nativeMap : gmap loc value;
  console : list (list value);
}.

Inductive exn :=
| TypeError
| URIError
| InvalidCharacterError
| Thrown (v : value).

Inductive result (A : Type) :=
| Ret (a : A)
| Throw (e : exn)
| OutOfModel.

Arguments Ret {A} a.
Arguments Throw {A} e.
Arguments OutOfModel {A}.

(** ** The evaluation monad *)

Definition M (A : Type) : Type := state -> result A * state.

Definition ret {A} (a : A) : M A := fun s => (Ret a, s).

Definition bind {A B} (m : M A) (k : A -> M B) : M B :=
  fun s =>
    match m s with
    | (Ret a, s') => k a s'
    | (Throw e, s') => (Throw e, s')
    | (OutOfModel, s') => (OutOfModel, s')
    end.

Definition throw {A} (e : exn) : M A := fun s => (Throw e, s).

Definition out_of_model {A} : M A := fun s => (OutOfModel, s).

(** [try { m } catch (e) { h }] *)
Definition try_catch {A} (m : M A) (h : M A) : M A :=
  fun s =>
    match m s with
    | (Throw _, s') => h s'
    | r => r
    end.

Notation "x <- m ;; k" := (bind m (fun x => k))
  (at level 100, m at next level, right associativity).
Notation "m ;;; k" := (bind m (fun _ => k))
  (at level 100, right associativity).

(** [a && b] in a condition. *)
Definition andM (a b : M bool) : M bool :=
  x <- a ;; if x then b else ret false.

(** [a || b] in a condition. *)
Definition orM (a b : M bool) : M bool :=
  x <- a ;; if x then ret true else b.

Infix "&&&" := andM (at level 40, left associativity).
Infix "|||" := orM (at level 50, left associativity).

(** [if (c) { m }] *)
Definition when (c : M bool) (m : M unit) : M unit :=
  b <- c ;; if b then m else ret tt.

Definition console_log (args : list value) : M unit :=
  fun s => (Ret tt, State (heap s) (nativeMap s) (console s ++ [args])).

(** ** Elementary operations on values *)

Definition truthy (v : value) : bool :=
  match v with
  | VUndef | VNull => false
  | VBool b => b
  | VNum n => negb (n =? 0)
  | VStr s => negb (bool_decide (s = []))
  | VRef _ => true
  end.

(** [a === b] *)
Definition strict_eq (a b : value) : bool := bool_decide (a = b).

Inductive pkey :=
| PName (k : string)
| PIdx (i : nat).

#[global] Instance pkey_eq_dec : EqDecision pkey.
Proof. solve_decision. Defined.

Definition is_indexed (c : class) : bool :=
  match c with CArray | CArguments => true | _ => false end.

Definition own_lookup (o : object) (k : pkey) : option value :=
  match k with
  | PIdx i => o_elems o !! i
  | PName n =>
      if is_indexed (o_class o) && bool_decide (n = "length"%string)
      then Some (VNum (Z.of_nat (length (o_elems o))))
      else o_props o !! n
  end.

Inductive slot :=
| Data (v : value)
| ProtoAccessor.

Section Engine.

Variable R : realm.

(** Where a property is found on the prototype chain that starts at
    location [l].  [Object.prototype] carries the [__proto__] accessor. *)
Fixpoint find_prop (fuel : nat) (h : list object) (l : loc) (k : pkey)
  : option slot :=
  match fuel with
  | O => None
  | S f =>
      match h !! l with
      | None => None
      | Some o =>
          match own_lookup o k with
          | Some v => Some (Data v)
          | None =>
              if bool_decide (k = PName "__proto__") && (l =? r_object R)%nat
              then Some ProtoAccessor
              else match o_proto o with
                   | VRef p => find_prop f h p k
                   | _ => None
                   end
          end
      end
  end.

Definition lookup_chain (h : list object) (l : loc) (k : pkey) : option slot :=
  find_prop (S (length h)) h l k.

(** The object on which the property lookup of a value starts. *)
Definition base_loc (v : value) : option loc :=
  match v with
  | VRef l => Some l
  | VNum _ => Some (r_number R)
  | VStr _ => Some (r_string R)
  | VBool _ => Some (r_boolean R)
  | VUndef | VNull => None
  end.

(** The internal prototype of a value. *)
Definition proto_of (h : list object) (v : value) : value :=
  match v with
  | VRef l => match h !! l with Some o => o_proto o | None => VNull end
  | VNum _ => VRef (r_number R)
  | VStr _ => VRef (r_string R)
  | VBool _ => VRef (r_boolean R)
  | VUndef | VNull => VNull
  end.

Definition own_of_string (s : jstring) (k : pkey) : option value :=
  match k with
  | PIdx i => (fun c => VStr [c]) <$> s !! i
  | PName n => if bool_decide (n = "length"%string)
               then Some (VNum (Z.of_nat (length s))) else None
  end.

(** [v[k]] and [v.k]: reading a property of undefined or null throws. *)
Definition get (v : value) (k : pkey) : M value :=
  fun s =>
    match base_loc v with
    | None => (Throw TypeError, s)
    | Some l =>
        match (match v with VStr str => own_of_string str k | _ => None end) with
        | Some x => (Ret x, s)
        | None =>
            match lookup_chain (heap s) l k with
            | Some (Data x) => (Ret x, s)
            | Some ProtoAccessor => (Ret (proto_of (heap s) v), s)
            | None => (Ret VUndef, s)
            end
        end
    end.

Definition class_of (h : list object) (v : value) : option class :=
  match v with
  | VRef l => o_class <$> h !! l
  | _ => None
  end.

Definition is_callable (h : list object) (v : value) : bool :=
  match class_of h v with Some (CFunction _) => true | _ => false end.

(** [typeof v === 'object'] *)
Definition typeof_object (h : list object) (v : value) : bool :=
  match v with
  | VNull => true
  | VRef _ => negb (is_callable h v)
  | _ => false
  end.

(** [k in v] for a value that passed the [typeof v === 'object'] and
    truthiness guards of the source. *)
Definition has_property (h : list object) (v : value) (k : string) : bool :=
  match v with
  | VRef l => bool_decide (is_Some (lookup_chain h l (PName k)))
  | _ => false
  end.

(** [Object.hasOwn(v, k)] for a name [k] *)
Definition hasOwn (v : value) (k : string) : M bool :=
  fun s =>
    match v with
    | VUndef | VNull => (Throw TypeError, s)
    | VRef l =>
        match heap s !! l with
        | Some o => (Ret (bool_decide (is_Some (own_lookup o (PName k)))), s)
        | None => (Ret false, s)
        end
    | VStr _ => (Ret (bool_decide (k = "length"%string)), s)
    | _ => (Ret false, s)
    end.

(** [Array.isArray(v)] *)
Definition isArray (h : list object) (v : value) : bool :=
  match class_of h v with Some CArray => true | _ => false end.

(** Writing the named property [k] of an object: [v.k = x] in strict
    mode, and [Object.defineProperty(v, k, {value: x})]. *)
Definition set_prop (v : value) (k : string) (x : value) : M unit :=
  fun s =>
    match v with
    | VRef l =>
        match heap s !! l with
        | Some o =>
            let o' := Obj (o_class o) (o_proto o) (<[k := x]> (o_props o))
                          (o_elems o) in
            (Ret tt, State (<[l := o']> (heap s)) (nativeMap s) (console s))
        | None => (Throw TypeError, s)
        end
    | _ => (Throw TypeError, s)
    end.

(** A new object at the next free location. *)
Definition alloc (o : object) : M value :=
  fun s =>
    (Ret (VRef (length (heap s))),
     State (heap s ++ [o]) (nativeMap s) (console s)).

(** [_nativeMap.has(v)] *)
Definition nativeMap_has (v : value) : M bool :=
  fun s =>
    match v with
    | VRef l => (Ret (bool_decide (is_Some (nativeMap s !! l))), s)
    | _ => (Ret false, s)
    end.

(** [_nativeMap.get(v)] *)
Definition nativeMap_get (v : value) : M value :=
  fun s =>
    match v with
    | VRef l => (Ret (default VUndef (nativeMap s !! l)), s)
    | _ => (Ret VUndef, s)
    end.

(** [_nativeMap.set(k, v)]: a key that is not an object is refused. *)
Definition nativeMap_set (k v : value) : M unit :=
  fun s =>
    match k with
    | VRef l => (Ret tt, State (heap s) (<[l := v]> (nativeMap s)) (console s))
    | _ => (Throw TypeError, s)
    end.

End Engine.

(** ** The host *)

(** What the page's own functions do when called: a function of the
    receiver, the arguments and the heap.  Interceptions nested inside
    such a call are invocations of the hooks in their own right. *)
Record host := Host {
  host_call : nat -> value -> list value -> list object
              -> result value * list object;
}.

Record keyData := KeyData {
  k_string : value;
  k_hex : value;
  k_base64 : jstring;
}.

Section Hooks.

Variable R : realm.
Variable H : host.

Definition read {A} (f : list object -> A) : M A :=
  fun s => (Ret (f (heap s)), s).

Definition lift_host (f : list object -> result value * list object) : M value :=
  fun s => let '(r, h) := f (heap s) in (r, State h (nativeMap s) (console s)).

(** [arguments[i]] of the function being modelled *)
Definition arg (arguments : list value) (i : nat) : value :=
  default VUndef (arguments !! i).

(** [Object.prototype.toString.call(v)] (no [Symbol.toStringTag]). *)
Definition class_string (h : list object) (v : value) : jstring :=
  match v with
  | VUndef => js "[object Undefined]"
  | VNull => js "[object Null]"
  | VBool _ => js "[object Boolean]"
  | VNum _ => js "[object Number]"
  | VStr _ => js "[object String]"
  | VRef _ =>
      match class_of h v with
      | Some CArray => js "[object Array]"
      | Some CArguments => js "[object Arguments]"
      | Some (CFunction _) => js "[object Function]"
      | _ => js "[object Object]"
      end
  end.

Definition native_source : jstring := js "function toString() { [native code] }".

(** The native [Function.prototype.toString], called on [v]. *)
Definition native_toString (v : value) : M value :=
  fun s =>
    match class_of (heap s) v with
    | Some (CFunction (CTarget src _)) => (Ret (VStr src), s)
    | Some (CFunction CObjectToString)
    | Some (CFunction CFunctionToString) => (Ret (VStr native_source), s)
    | Some (CFunction _) => (OutOfModel, s)
    | _ => (Throw TypeError, s)
    end.

(** *** The RSA hook *)

Definition has_required (requiredProps : list string) (h : list object)
  (obj : value) : bool :=
  if negb (truthy obj) || negb (typeof_object h obj) then false
  else forallb (has_property R h obj) requiredProps.

Definition hasRSAProp : list object -> value -> bool :=
  has_required
    ["constructor"; "getPrivateBaseKey"; "getPrivateBaseKeyB64";
     "getPrivateKey"; "getPublicBaseKey"; "getPublicBaseKeyB64";
     "getPublicKey"; "parseKey"; "parsePropertiesFrom"]%string.

(** A function expression evaluated by the engine: a new function
    object with the given inferred name and no declared parameter. *)
Definition new_function (name : string) (c : code) : M value :=
  alloc (Obj (CFunction c) (VRef (r_function R))
             (<["name"%string := VStr (js name)]>
                (<["length"%string := VNum 0]> ∅)) []).

Definition makeNative (hookFunc originalFunc : value) : M value :=
  try_catch
    (n <- get R originalFunc (PName "name") ;;
     set_prop hookFunc "name" n ;;;
     len <- get R originalFunc (PName "length") ;;
     set_prop hookFunc "length" len)
    (ret tt) ;;;
  nativeMap_set hookFunc originalFunc ;;;
  ret hookFunc.

(** [arguments[0].__proto__] and [arguments[0].__proto__.__proto__] *)
Definition proto1 (arguments : list value) : M value :=
  get R (arg arguments 0) (PName "__proto__").

Definition proto2 (arguments : list value) : M value :=
  p <- proto1 arguments ;; get R p (PName "__proto__").

Definition rsa_shape (arguments : list value) : M bool :=
  ret (length arguments =? 1)%nat
  &&& ret (truthy (arg arguments 0))
  &&& (p <- proto1 arguments ;; ret (truthy p))
  &&& (p <- proto1 arguments ;; read (fun h => typeof_object h p))
  &&& (p <- proto1 arguments ;; read (fun h => hasRSAProp h p)).

(** The inner condition of the RSA branch. *)
Definition rsa_chain (arguments : list value) : M bool :=
  (p <- proto1 arguments ;; read (fun h => has_property R h p "__proto__"))
  &&& (pp <- proto2 arguments ;; ret (truthy pp))
  &&& (pp <- proto2 arguments ;; hasOwn pp "encrypt")
  &&& (pp <- proto2 arguments ;; hasOwn pp "decrypt").

Definition encrypt_patch (arguments : list value) : M unit :=
  when (pp <- proto2 arguments ;;
        e <- get R pp (PName "encrypt") ;;
        b <- nativeMap_has e ;; ret (negb b))
    (temp_encrypt <- (pp <- proto2 arguments ;; get R pp (PName "encrypt")) ;;
     encryptHook <- new_function "encryptHook" (CEncryptHook temp_encrypt) ;;
     pp <- proto2 arguments ;;
     w <- makeNative encryptHook temp_encrypt ;;
     set_prop pp "encrypt" w).

Definition decrypt_patch (arguments : list value) : M unit :=
  when (pp <- proto2 arguments ;;
        d <- get R pp (PName "decrypt") ;;
        b <- nativeMap_has d ;; ret (negb b))
    (temp_decrypt <- (pp <- proto2 arguments ;; get R pp (PName "decrypt")) ;;
     decryptHook <- new_function "decryptHook" (CDecryptHook temp_decrypt) ;;
     pp <- proto2 arguments ;;
     w <- makeNative decryptHook temp_decrypt ;;
     set_prop pp "decrypt" w).

(** The [try] block of the RSA branch. *)
Definition rsa_patch (arguments : list value) : M unit :=
  try_catch
    (when (rsa_chain arguments)
       (encrypt_patch arguments ;;; decrypt_patch arguments))
    (ret tt).

(** Everything that [callHook] does before it calls through. *)
Definition callHook_analysis (arguments : list value) : M unit :=
  shape <- rsa_shape arguments ;;
  if shape then rsa_patch arguments else ret tt.

(** *** The concealment layer *)

(** [_toString.call(v)]: [call] is the installed [callHook], whose
    call-through runs the native [toString] on [v]. *)
Definition _toString_call (v : value) : M value :=
  callHook_analysis [v] ;;; native_toString v.

(** The patched [Function.prototype.toString]. *)
Definition toString_hook (this : value) : M value :=
  b <- nativeMap_has this ;;
  if b then (o <- nativeMap_get this ;; _toString_call o)
  else _toString_call this.

(** The engine's [[Call]] of a function value. *)
Definition call_fn (f this : value) (args : list value) : M value :=
  fun s =>
    match class_of (heap s) f with
    | Some (CFunction c) =>
        match c with
        | CTarget _ id => lift_host (host_call H id this args) s
        | CObjectToString => (Ret (VStr (class_string (heap s) this)), s)
        | CFunctionToString => native_toString this s
        | CToStringHook => toString_hook this s
        | _ => (OutOfModel, s)
        end
    | _ => (Throw TypeError, s)
    end.

(** [v.k(args)] *)
Definition call_method (v : value) (k : string) (args : list value) : M value :=
  f <- get R v (PName k) ;; call_fn f v args.

(** The native [Function.prototype.call] with receiver [this]. *)
Definition native_call (this : value) (arguments : list value) : M value :=
  call_fn this (arg arguments 0) (drop 1 arguments).

Definition callHook (this : value) (arguments : list value) : M value :=
  callHook_analysis arguments ;;;
  native_call this arguments.

(** *** The key and material extractor *)

Definition hasEncryptProp : list object -> value -> bool :=
  has_required
    ["ciphertext"; "key"; "iv"; "algorithm"; "mode"; "padding";
     "blockSize"; "formatter"]%string.

Definition hasDecryptProp : list object -> value -> bool :=
  has_required ["sigBytes"; "words"]%string.

Definition get_sigBytes (size : value) : value :=
  if strict_eq size (VNum 8) then VStr (js "64bits")
  else if strict_eq size (VNum 16) then VStr (js "128bits")
  else if strict_eq size (VNum 24) then VStr (js "192bits")
  else if strict_eq size (VNum 32) then VStr (js "256bits")
  else VStr (js "未知").

(** The loop [for (i = 0; i < hex.length; i += 2) bytes.push(...)]. *)
Fixpoint hex_bytes_loop (fuel i : nat) (hex : jstring)
  (bytes : list (option Z)) : list (option Z) :=
  match fuel with
  | O => bytes
  | S f =>
      if (i <? length hex)%nat
      then hex_bytes_loop f (i + 2)%nat hex
             (bytes ++ [parseInt16 (substr2 hex i)])
      else bytes
  end.

(** [String.fromCharCode.apply(null, bytes)] passes through both hooks
    unobserved, because its receiver is [null]. *)
Definition hexToBase64 (hex : value) : M jstring :=
  if negb (truthy hex) then ret []
  else
    match hex with
    | VStr h =>
        try_catch
          (let bytes := hex_bytes_loop (length h) 0 h [] in
           match btoa (fromCharCode <$> bytes) with
           | Some b => ret b
           | None => throw InvalidCharacterError
           end)
          (ret [])
    | _ => out_of_model
    end.

(** The integer that a primitive value denotes where the language
    converts to a number and treats NaN as zero: the operand of [>>>],
    the bound of a counting loop, the length of an array-like.  The
    conversion of other strings and of objects is outside the model. *)
Definition to_integer (v : value) : option Z :=
  match v with
  | VNum n => Some n
  | VUndef | VNull => Some 0
  | VBool b => Some (if b then 1 else 0)
  | VStr [] => Some 0
  | VStr _ | VRef _ => None
  end.

(** The number of rounds of [for (i = 0; i < sigBytes; i++)]. *)
Definition loop_rounds (sigBytes : value) : option nat :=
  Z.to_nat <$> to_integer sigBytes.

Fixpoint wordsToHex_loop (rounds : nat) (i : Z) (words : value)
  (hexChars : list jstring) : M (list jstring) :=
  match rounds with
  | O => ret hexChars
  | S n =>
      w <- get R words (PIdx (Z.to_nat (ushr i 2))) ;;
      match to_integer w with
      | None => out_of_model
      | Some x =>
          let byte := band (ushr x (24 - (i mod 4) * 8)) 255 in
          wordsToHex_loop n (i + 1) words
            (hexChars ++ [toString16 (ushr byte 4)]
                      ++ [toString16 (band byte 15)])
      end
  end.

Definition wordsToHex (words sigBytes : value) : M jstring :=
  isArr <- read (fun h => isArray h words) ;;
  if negb (truthy words) || negb isArr then ret []
  else
    match loop_rounds sigBytes with
    | None => out_of_model
    | Some n =>
        hexChars <- wordsToHex_loop n 0 words [] ;;
        ret (concat hexChars)
    end.

(** [decodeURIComponent(hexKey.replace(/[0-9a-f]{2}/g, '%$&'))] *)
Definition decode_hex (hexKey : value) : M value :=
  match hexKey with
  | VStr h =>
      match decodeURIComponent (percent_escape h) with
      | Some t => ret (VStr t)
      | None => throw URIError
      end
  | _ =>
      f <- get R hexKey (PName "replace") ;;
      callable <- read (fun h => is_callable h f) ;;
      if callable then out_of_model else throw TypeError
  end.

(** The [try]/[catch] statement that computes [strKey]. *)
Definition rawString (hexKey : value) : M value :=
  try_catch (decode_hex hexKey) (ret hexKey).

(** The statement that computes [hexKey]. *)
Definition hexStage (keyObj : value) : M value :=
  c <- ((ts <- get R keyObj (PName "toString") ;; ret (truthy ts))
        &&& (r <- call_method keyObj "toString" [] ;;
             ret (negb (strict_eq r (VStr (js "[object Object]")))))) ;;
  if c then call_method keyObj "toString" []
  else
    c2 <- ((w <- get R keyObj (PName "words") ;; ret (truthy w))
           &&& (n <- get R keyObj (PName "sigBytes") ;; ret (truthy n))) ;;
    if c2 then
      w <- get R keyObj (PName "words") ;;
      n <- get R keyObj (PName "sigBytes") ;;
      x <- wordsToHex w n ;;
      ret (VStr x)
    else ret (VStr []).

Definition formatKey (keyObj : value) : M keyData :=
  if negb (truthy keyObj) then ret (KeyData (VStr []) (VStr []) [])
  else
    hexKey <- hexStage keyObj ;;
    base64Key <- hexToBase64 hexKey ;;
    strKey <- rawString hexKey ;;
    ret (KeyData strKey hexKey base64Key).

(** *** The shapes of a caller's source text *)

Fixpoint expect (lit s : jstring) : option jstring :=
  match lit, s with
  | [], _ => Some s
  | a :: lit', b :: s' => if a =? b then expect lit' s' else None
  | _ :: _, [] => None
  end.

Fixpoint skip_while (p : Z -> bool) (s : jstring) : jstring :=
  match s with
  | c :: r => if p c then skip_while p r else s
  | [] => []
  end.

Definition is_ident_start (c : Z) : bool :=
  in_range 65 90 c || in_range 97 122 c || (c =? 95) || (c =? 36).

Definition is_ident_part (c : Z) : bool :=
  is_ident_start c || in_range 48 57 c.

(** The first pattern of the encrypt branch, anchored at the start of
    the text: white space, the word function, white space (twice
    optional), an identifier, white space, a parenthesised run of
    characters other than the closing parenthesis, white space, an
    opening brace. *)
Definition named_function_shape (s : jstring) : bool :=
  bool_decide (is_Some (
    s1 ← expect (js "function") (drop_spaces s);
    match drop_spaces s1 with
    | c :: s2 =>
        if is_ident_start c then
          s3 ← expect (js "(") (drop_spaces (skip_while is_ident_part s2));
          s4 ← expect (js ")") (skip_while (fun x => negb (x =? 41)) s3);
          expect (js "{") (drop_spaces s4)
        else None
    | [] => None
    end)).

(** The second pattern of the encrypt branch, anchored at the start:
    white space, the word function, white space, an empty pair of
    parentheses that may hold white space, white space, an opening
    brace. *)
Definition anonymous_function_shape (s : jstring) : bool :=
  bool_decide (is_Some (
    s1 ← expect (js "function") (drop_spaces s);
    s2 ← expect (js "(") (drop_spaces s1);
    s3 ← expect (js ")") (drop_spaces s2);
    expect (js "{") (drop_spaces s3))).

(** [v.indexOf(t) !== -1] for the value that [this.toString()] gave. *)
Definition indexOf_found (v : value) (t : jstring) : M bool :=
  match v with
  | VStr c => ret (contains t c)
  | _ =>
      f <- get R v (PName "indexOf") ;;
      callable <- read (fun h => is_callable h f) ;;
      if callable then out_of_model else throw TypeError
  end.

(** The test on the caller's source text in the encrypt branch. *)
Definition encrypt_caller_shape (callerStr : value) : M bool :=
  found <- indexOf_found callerStr (js "function()") ;;
  ret (found
       || match callerStr with
          | VStr c => named_function_shape c || anonymous_function_shape c
          | _ => false
          end).

(** *** The apply hook *)

(** [f.call(...arguments)] for a function [f], which inherits the
    installed [callHook]; a value that is not a function has no [call]
    of its own to run. *)
Definition dot_call (f : value) (arguments : list value) : M value :=
  callable <- read (fun h => is_callable h f) ;;
  if callable then callHook f arguments
  else
    c <- get R f (PName "call") ;;
    cc <- read (fun h => is_callable h c) ;;
    if cc then out_of_model else throw TypeError.

Fixpoint get_elems (v : value) (i n : nat) : M (list value) :=
  match n with
  | O => ret []
  | S m => x <- get R v (PIdx i) ;; r <- get_elems v (S i) m ;; ret (x :: r)
  end.

(** The native [Function.prototype.apply] with receiver [this]: the
    primitive that [temp_apply] holds. *)
Definition native_apply (this : value) (arguments : list value) : M value :=
  callable <- read (fun h => is_callable h this) ;;
  if negb callable then throw TypeError
  else
    let thisArg := arg arguments 0 in
    let argArray := arg arguments 1 in
    match argArray with
    | VUndef | VNull => call_fn this thisArg []
    | VRef _ =>
        len <- get R argArray (PName "length") ;;
        match to_integer len with
        | None => out_of_model
        | Some n =>
            argList <- get_elems argArray 0 (Z.to_nat n) ;;
            call_fn this thisArg argList
        end
    | _ => throw TypeError
    end.

Definition log_key (what : string) (d : keyData) : M unit :=
  console_log [VStr (js ("[debug] " ++ what ++ " (String):")); k_string d] ;;;
  console_log [VStr (js ("[debug] " ++ what ++ " (Hex):")); k_hex d] ;;;
  console_log [VStr (js ("[debug] " ++ what ++ " (Base64):")); VStr (k_base64 d)].

(** [arguments[1][i]] *)
Definition arg1 (arguments : list value) (i : nat) : M value :=
  get R (arg arguments 1) (PIdx i).

Definition symEncrypt_shape (arguments : list value) : M bool :=
  ret (length arguments =? 2)%nat
  &&& ret (truthy (arg arguments 0))
  &&& ret (truthy (arg arguments 1))
  &&& read (fun h => typeof_object h (arg arguments 1))
  &&& (len <- get R (arg arguments 1) (PName "length") ;;
       ret (strict_eq len (VNum 1)))
  &&& (x <- arg1 arguments 0 ;; read (fun h => hasEncryptProp h x)).

Definition symDecrypt_shape (arguments : list value) : M bool :=
  ret (length arguments =? 2)%nat
  &&& ret (truthy (arg arguments 0))
  &&& ret (truthy (arg arguments 1))
  &&& read (fun h => typeof_object h (arg arguments 1))
  &&& (len <- get R (arg arguments 1) (PName "length") ;;
       ret (strict_eq len (VNum 3)))
  &&& (x <- arg1 arguments 1 ;; read (fun h => hasDecryptProp h x)).

Definition hash_shape (arguments : list value) : M bool :=
  ret (length arguments =? 2)%nat
  &&& ret (truthy (arg arguments 0))
  &&& ret (truthy (arg arguments 1))
  &&& read (fun h => typeof_object h (arg arguments 0))
  &&& read (fun h => typeof_object h (arg arguments 1)).

(** [Object.hasOwn(arguments[0], "$super") &&
     Object.hasOwn(arguments[1], "callee")] *)
Definition delegation_marks (arguments : list value) : M bool :=
  hasOwn (arg arguments 0) "$super" &&& hasOwn (arg arguments 1) "callee".

Definition encrypt_banner : value :=
  VStr (js "[debug] ========== CryptoJS 对称加密 ==========").

Definition decrypt_banner : value :=
  VStr (js "[debug] ========== CryptoJS 对称解密 ==========").

Definition symEncrypt_report (arguments : list value) : M unit :=
  console_log [encrypt_banner] ;;;
  key <- (x <- arg1 arguments 0 ;; get R x (PName "key")) ;;
  keyData <- formatKey key ;;
  log_key "Key" keyData ;;;
  iv <- (x <- arg1 arguments 0 ;; get R x (PName "iv")) ;;
  when (ret (truthy iv))
    (ivData <- formatKey iv ;; log_key "IV" ivData) ;;;
  when ((k <- (x <- arg1 arguments 0 ;; get R x (PName "key")) ;; ret (truthy k))
        &&& (k <- (x <- arg1 arguments 0 ;; get R x (PName "key")) ;;
             hasOwn k "sigBytes"))
    (k <- (x <- arg1 arguments 0 ;; get R x (PName "key")) ;;
     n <- get R k (PName "sigBytes") ;;
     console_log [VStr (js "[debug] 密钥长度:"); get_sigBytes n]) ;;;
  when ((m <- (x <- arg1 arguments 0 ;; get R x (PName "mode")) ;; ret (truthy m))
        &&& (m <- (x <- arg1 arguments 0 ;; get R x (PName "mode")) ;;
             hasOwn m "Encryptor"))
    (m <- (x <- arg1 arguments 0 ;; get R x (PName "mode")) ;;
     e <- get R m (PName "Encryptor") ;;
     b <- get R e (PName "processBlock") ;;
     console_log [VStr (js "[debug] 运算模式:"); b]) ;;;
  when (p <- (x <- arg1 arguments 0 ;; get R x (PName "padding")) ;; ret (truthy p))
    (p <- (x <- arg1 arguments 0 ;; get R x (PName "padding")) ;;
     console_log [VStr (js "[debug] 填充模式:"); p]) ;;;
  try_catch
    (sup <- get R (arg arguments 0) (PName "$super") ;;
     ts <- get R sup (PName "toString") ;;
     x <- arg1 arguments 0 ;;
     encrypt_text <- dot_call ts [x] ;;
     when (ret (negb (strict_eq encrypt_text (VStr (js "[object Object]")))))
       (console_log [VStr (js "[debug] 密文:"); encrypt_text]))
    (ret tt).

Definition symDecrypt_report (arguments : list value) : M unit :=
  console_log [decrypt_banner] ;;;
  key <- arg1 arguments 1 ;;
  keyData <- formatKey key ;;
  log_key "Key" keyData ;;;
  when ((cfg <- arg1 arguments 2 ;; hasOwn cfg "iv")
        &&& (cfg <- arg1 arguments 2 ;;
             x <- get R cfg (PIdx 2) ;;
             y <- get R x (PIdx 2) ;;
             iv <- get R y (PName "iv") ;; ret (truthy iv)))
    (iv <- (cfg <- arg1 arguments 2 ;; get R cfg (PName "iv")) ;;
     ivData <- formatKey iv ;; log_key "IV" ivData) ;;;
  when ((cfg <- arg1 arguments 2 ;; hasOwn cfg "mode")
        &&& (cfg <- arg1 arguments 2 ;;
             m <- get R cfg (PName "mode") ;; ret (truthy m)))
    (m <- (cfg <- arg1 arguments 2 ;; get R cfg (PName "mode")) ;;
     e <- get R m (PName "Encryptor") ;;
     b <- get R e (PName "processBlock") ;;
     console_log [VStr (js "[debug] 运算模式:"); b]) ;;;
  when ((cfg <- arg1 arguments 2 ;; hasOwn cfg "padding")
        &&& (cfg <- arg1 arguments 2 ;;
             p <- get R cfg (PName "padding") ;; ret (truthy p)))
    (p <- (cfg <- arg1 arguments 2 ;; get R cfg (PName "padding")) ;;
     console_log [VStr (js "[debug] 填充模式:"); p]).

(** The inner condition of the hash branch. *)
Definition hash_chain (arguments : list value) : M bool :=
  (p <- proto1 arguments ;; ret (truthy p))
  &&& (p <- proto1 arguments ;; hasOwn p "$super")
  &&& (p <- proto1 arguments ;; hasOwn p "_doFinalize")
  &&& (pp <- proto2 arguments ;; ret (truthy pp))
  &&& (pp <- proto2 arguments ;; hasOwn pp "finalize").

Definition finalize_patch (arguments : list value) : M unit :=
  when (pp <- proto2 arguments ;;
        f <- get R pp (PName "finalize") ;;
        b <- nativeMap_has f ;; ret (negb b))
    (temp_finalize <- (pp <- proto2 arguments ;; get R pp (PName "finalize")) ;;
     finalizeHook <- new_function "finalizeHook" (CFinalizeHook temp_finalize) ;;
     pp <- proto2 arguments ;;
     w <- makeNative finalizeHook temp_finalize ;;
     set_prop pp "finalize" w).

(** The [try] block of the hash branch. *)
Definition hash_patch (arguments : list value) : M unit :=
  try_catch
    (when (hash_chain arguments) (finalize_patch arguments))
    (ret tt).

(** Everything that [applyHook] does before it calls through. *)
Definition applyHook_analysis (this : value) (arguments : list value) : M unit :=
  enc <- symEncrypt_shape arguments ;;
  if enc then
    when (delegation_marks arguments)
      (callerStr <- call_method this "toString" [] ;;
       when (encrypt_caller_shape callerStr)
         (symEncrypt_report arguments))
  else
    dec <- symDecrypt_shape arguments ;;
    if dec then
      when (delegation_marks arguments)
        (when ((callerStr <- call_method this "toString" [] ;;
                found <- indexOf_found callerStr (js "function()") ;;
                ret (negb found))
               &&& (x <- arg1 arguments 0 ;; ret (strict_eq x (VNum 2))))
           (symDecrypt_report arguments))
    else
      hash <- hash_shape arguments ;;
      if hash then hash_patch arguments else ret tt.

(** [temp_apply.call(this, ...arguments)]: [call] is the installed
    [callHook], whose call-through runs the native [apply]. *)
Definition temp_apply_call (this : value) (arguments : list value) : M value :=
  callHook_analysis (this :: arguments) ;;;
  native_apply this arguments.

Definition applyHook (this : value) (arguments : list value) : M value :=
  applyHook_analysis this arguments ;;;
  temp_apply_call this arguments.

(** *** Installation: the top level of the script *)

Definition install : M unit :=
  let Function_prototype := VRef (r_function R) in
  _toString <- get R Function_prototype (PName "toString") ;;
  f <- new_function "toString" CToStringHook ;;
  set_prop Function_prototype "toString" f ;;;
  cur <- get R Function_prototype (PName "toString") ;;
  makeNative cur _toString ;;;
  temp_apply <- get R Function_prototype (PName "apply") ;;
  applyHook_fn <- new_function "applyHook" CApplyHook ;;
  w <- makeNative applyHook_fn temp_apply ;;
  set_prop Function_prototype "apply" w ;;;
  temp_call <- get R Function_prototype (PName "call") ;;
  callHook_fn <- new_function "callHook" CCallHook ;;
  w' <- makeNative callHook_fn temp_call ;;
  set_prop Function_prototype "call" w'.

End Hooks.

(** ** A concrete host realm, for examples *)

Module Demo.

Definition R0 : realm := Realm 0 1 2 3 4.

Definition props (l : list (string * value)) : gmap string value :=
  list_to_map l.

Definition builtin (name : string) (arity : Z) (c : code) : object :=
  Obj (CFunction c) (VRef 1)
      (props [("name"%string, VStr (js name)); ("length"%string, VNum arity)]) [].

Definition plain (l : list (string * value)) : object :=
  Obj COrdinary (VRef 0) (props l) [].

(** Locations 0 to 4 are the prototypes named by [R0]; 5 to 8 are the
    native [Object.prototype.toString], [Function.prototype.toString],
    [apply] and [call]. *)
Definition pristine_heap : list object :=
  [ Obj COrdinary VNull (props [("toString"%string, VRef 5)]) [];
    Obj (CFunction (CTarget (js "function () { [native code] }") 0)) (VRef 0)
        (props [("toString"%string, VRef 6); ("apply"%string, VRef 7);
                ("call"%string, VRef 8); ("name"%string, VStr []);
                ("length"%string, VNum 0)]) [];
    plain []; plain []; plain [];
    builtin "toString" 0 CObjectToString;
    builtin "toString" 0 CFunctionToString;
    builtin "apply" 2 (CTarget (js "function apply() { [native code] }") 1);
    builtin "call" 1 (CTarget (js "function call() { [native code] }") 2) ].

Definition pristine : state := State pristine_heap ∅ [].

(** The session state once the script has run: locations 9, 10 and 11
    hold the three wrappers. *)
Definition installed : state := (install R0 pristine).2.

(** A page function with the given source text. *)
Definition page_function (src : jstring) (id : nat) : object :=
  Obj (CFunction (CTarget src id)) (VRef 1)
      (props [("name"%string, VStr []); ("length"%string, VNum 0)]) [].

Definition array (elems : list value) : object :=
  Obj CArray (VRef 0) ∅ elems.

(** The arguments object of a call: its elements and its own [callee]. *)
Definition arguments_object (elems : list value) : object :=
  Obj CArguments (VRef 0) (props [("callee"%string, VUndef)]) elems.

Definition with_heap (s : state) (objs : list object) : state :=
  State (heap s ++ objs) (nativeMap s) (console s).

(** A host whose page functions all return [undefined]. *)
Definition quiet_host : host := Host (fun _ _ _ h => (Ret VUndef, h)).

(** An object with the given prototype. *)
Definition derived (proto : loc) (l : list (string * value)) : object :=
  Obj COrdinary (VRef proto) (props l) [].

(** *** A hasher of the CryptoJS kind

    Locations from 12: the [finalize] and [_doFinalize] functions, the
    base hasher (which owns [finalize]), the algorithm derived from it
    (which owns the two markers), an instance, the empty arguments
    object of its creation and the [init] function being applied; then
    a second base hasher that shares the same [finalize] function, with
    its own algorithm and instance. *)
Definition hasher_session : state :=
  with_heap installed
    [ page_function (js "function (messageUpdate) { return this._doFinalize(); }") 3;
      page_function (js "function () { return this._hash; }") 4;
      plain [("finalize"%string, VRef 12)];
      derived 14 [("$super"%string, VRef 14); ("_doFinalize"%string, VRef 13)];
      derived 15 [];
      arguments_object [];
      page_function (js "function (cfg) { this.reset(); }") 5;
      plain [("finalize"%string, VRef 12)];
      derived 19 [("$super"%string, VRef 19); ("_doFinalize"%string, VRef 13)];
      derived 20 [] ].

(** *** A symmetric decryption with an initialisation vector

    Locations from 12: the words of the key, the key, the words of the
    vector, the vector, the configuration (which owns [iv]), the base
    cipher, the instance (which owns [$super]), the arguments object
    [(2, key, cfg)] and the [init] function being applied. *)
Definition key_words : list value :=
  [VNum 825373492; VNum 892745528; VNum 959459633; VNum 842216501].

Definition decrypt_session : state :=
  with_heap installed
    [ array key_words;
      plain [("sigBytes"%string, VNum 16); ("words"%string, VRef 12)];
      array key_words;
      plain [("sigBytes"%string, VNum 16); ("words"%string, VRef 14)];
      plain [("iv"%string, VRef 15)];
      plain [];
      plain [("$super"%string, VRef 17)];
      arguments_object [VNum 2; VRef 13; VRef 16];
      page_function (js "function (xformMode, key, cfg) { this.cfg = cfg; }") 5 ].

(** The same call with a configuration that owns no [iv] but a [mode]
    object without an [Encryptor]. *)
Definition decrypt_session_mode : state :=
  with_heap installed
    [ array key_words;
      plain [("sigBytes"%string, VNum 16); ("words"%string, VRef 12)];
      plain [];
      plain [];
      plain [("mode"%string, VRef 14)];
      plain [];
      plain [("$super"%string, VRef 17)];
      arguments_object [VNum 2; VRef 13; VRef 16];
      page_function (js "function (xformMode, key, cfg) { this.cfg = cfg; }") 5 ].

(** The call of the claim about the third value: the buffer shape sits
    in the third slot and the second is a number; the caller is an
    arrow function. *)
Definition third_slot_session : state :=
  with_heap installed
    [ array key_words;
      plain [("sigBytes"%string, VNum 16); ("words"%string, VRef 12)];
      plain [];
      plain [("$super"%string, VRef 14)];
      arguments_object [VNum 2; VNum 7; VRef 13];
      page_function (js "(a, b, c) => 0") 5 ].

(** *** A symmetric encryption (scenario A)

    Locations from 12: the words and the object of the key and of the
    vector, the algorithm, the [Encryptor], the mode, the padding and
    the formatter objects, the cipher parameters, the base cipher, the
    instance, the arguments object and the anonymous caller. *)
Definition encrypt_session : state :=
  with_heap installed
    [ array key_words;
      plain [("sigBytes"%string, VNum 16); ("words"%string, VRef 12)];
      array key_words;
      plain [("sigBytes"%string, VNum 16); ("words"%string, VRef 14)];
      plain [];
      plain [];
      plain [("Encryptor"%string, VRef 17)];
      plain [];
      plain [];
      plain [("ciphertext"%string, VStr []); ("key"%string, VRef 13);
             ("iv"%string, VRef 15); ("algorithm"%string, VRef 16);
             ("mode"%string, VRef 18); ("padding"%string, VRef 19);
             ("blockSize"%string, VNum 4); ("formatter"%string, VRef 20)];
      plain [];
      plain [("$super"%string, VRef 22)];
      arguments_object [VRef 21];
      page_function (js "function () { return init.apply(this, arguments); }") 5 ].

(** *** An RSA key of the JSEncrypt kind

    Locations from 12: the [encrypt] and [decrypt] functions, the base
    key prototype (which owns both), the derived key prototype (which
    shows the nine key-handling names), a key and the function that is
    called on it. *)
Definition rsa_session : state :=
  with_heap installed
    [ page_function (js "function (text) { return this.doPublic(text); }") 3;
      page_function (js "function (ctext) { return this.doPrivate(ctext); }") 4;
      plain [("encrypt"%string, VRef 12); ("decrypt"%string, VRef 13)];
      derived 14
        [("constructor"%string, VRef 17); ("getPrivateBaseKey"%string, VRef 17);
         ("getPrivateBaseKeyB64"%string, VRef 17); ("getPrivateKey"%string, VRef 17);
         ("getPublicBaseKey"%string, VRef 17); ("getPublicBaseKeyB64"%string, VRef 17);
         ("getPublicKey"%string, VRef 17); ("parseKey"%string, VRef 17);
         ("parsePropertiesFrom"%string, VRef 17)];
      derived 15 [];
      page_function (js "function () { return 0; }") 5 ].

End Demo.

(** * Properties *)

(** ** Arithmetic of the bit operators *)

Lemma to_uint32_small z : 0 <= z < 4294967296 -> to_uint32 z = z.
Proof. intros Hz. unfold to_uint32. by apply Z.mod_small. Qed.

Lemma to_int32_small z : 0 <= z < 2147483648 -> to_int32 z = z.
Proof.
  intros Hz. unfold to_int32. rewrite to_uint32_small by lia.
  destruct (Z.ltb_spec z 2147483648); lia.
Qed.

Lemma to_int32_mod256 z : to_int32 z mod 256 = z mod 256.
Proof.
  unfold to_int32, to_uint32.
  assert (Hq : z mod 4294967296 = z - 4294967296 * (z / 4294967296))
    by (pose proof (Z.div_mod z 4294967296); lia).
  destruct (Z.ltb_spec (z mod 4294967296) 2147483648).
  - rewrite Hq.
    replace (z - 4294967296 * (z / 4294967296))
      with (z + (- (16777216 * (z / 4294967296))) * 256) by lia.
    apply Z.mod_add. lia.
  - rewrite Hq.
    replace (z - 4294967296 * (z / 4294967296) - 4294967296)
      with (z + (- (16777216 * (z / 4294967296)) - 16777216) * 256) by lia.
    apply Z.mod_add. lia.
Qed.

Lemma land_255 z : Z.land z 255 = z mod 256.
Proof. change 255 with (Z.ones 8). rewrite Z.land_ones by lia. done. Qed.

Lemma land_15 z : Z.land z 15 = z mod 16.
Proof. change 15 with (Z.ones 4). rewrite Z.land_ones by lia. done. Qed.

Lemma band_255 z : band z 255 = z mod 256.
Proof.
  unfold band. rewrite (to_int32_small 255) by lia.
  rewrite land_255, to_int32_mod256.
  apply to_int32_small. pose proof (Z.mod_pos_bound z 256). lia.
Qed.

Lemma band_15 z : 0 <= z < 256 -> band z 15 = z mod 16.
Proof.
  intros Hz. unfold band. rewrite (to_int32_small 15), (to_int32_small z) by lia.
  rewrite land_15. apply to_int32_small.
  pose proof (Z.mod_pos_bound z 16). lia.
Qed.

Lemma ushr_small x k : 0 <= k < 32 -> ushr x k = to_uint32 x / 2 ^ k.
Proof.
  intros Hk. unfold ushr. rewrite (to_uint32_small k) by lia.
  rewrite Z.mod_small by lia. apply Z.shiftr_div_pow2. lia.
Qed.

Lemma toString16_digit d : 0 <= d < 16 -> toString16 d = [hex_digit d].
Proof.
  intros Hd. unfold toString16. simpl.
  destruct (Z.ltb_spec d 16); [done | lia].
Qed.

Definition hex2 (b : Z) : jstring := [hex_digit (b / 16); hex_digit (b mod 16)].

Definition elem_word (es : list value) (k : nat) : Z :=
  to_uint32 (default 0 (to_integer (default VUndef (es !! k)))).

Definition code_byte (es : list value) (i : Z) : Z :=
  elem_word es (Z.to_nat (ushr i 2)) / 2 ^ (24 - i mod 4 * 8) mod 256.

Section WordArray.

Variable R : realm.
Variables (s : state) (l : loc) (o : object).
Hypothesis Hl : heap s !! l = Some o.
Hypothesis Hinh :
  forall k, o_elems o !! k = None -> lookup_chain R (heap s) l (PIdx k) = None.
Hypothesis Hnum :
  forall k v, o_elems o !! k = Some v -> is_Some (to_integer v).

Lemma get_index k :
  get R (VRef l) (PIdx k) s = (Ret (default VUndef (o_elems o !! k)), s).
Proof using Hl Hinh.
  unfold get. simpl. destruct (o_elems o !! k) as [v|] eqn:Hk.
  - unfold lookup_chain. simpl. rewrite Hl. simpl. rewrite Hk. done.
  - rewrite Hinh by done. done.
Qed.

Lemma shift_amount i : 0 <= 24 - i mod 4 * 8 < 32.
Proof. pose proof (Z.mod_pos_bound i 4). lia. Qed.

Lemma wordsToHex_loop_spec n : forall i acc,
  wordsToHex_loop R n i (VRef l) acc s =
  (Ret (acc ++ concat ((fun j => [[hex_digit (code_byte (o_elems o) j / 16)];
                                  [hex_digit (code_byte (o_elems o) j mod 16)]])
                       <$> seqZ i (Z.of_nat n))), s).
Proof using Hl Hinh Hnum.
  induction n as [|n IH]; intros i acc.
  - rewrite seqZ_nil by lia. simpl. by rewrite app_nil_r.
  - rewrite seqZ_cons by lia. cbn [wordsToHex_loop]. unfold bind at 1.
    rewrite get_index.
    set (k := Z.to_nat (ushr i 2)).
    assert (Hint : exists x, to_integer (default VUndef (o_elems o !! k)) = Some x).
    { destruct (o_elems o !! k) as [v|] eqn:Hk; simpl.
      - destruct (Hnum _ _ Hk) as [x Hx]. eauto.
      - eauto. }
    destruct Hint as [x Hx]. rewrite Hx.
    rewrite IH.
    replace (Z.pred (Z.of_nat (S n))) with (Z.of_nat n) by lia.
    replace (Z.succ i) with (i + 1) by lia.
    f_equal. f_equal. rewrite <- !app_assoc. f_equal.
    rewrite fmap_cons. cbn [concat]. simpl.
    assert (Hb : band (ushr x (24 - i mod 4 * 8)) 255 = code_byte (o_elems o) i).
    { rewrite band_255, ushr_small by apply shift_amount.
      unfold code_byte, elem_word. fold k. rewrite Hx. done. }
    rewrite Hb.
    assert (Hr : 0 <= code_byte (o_elems o) i < 256)
      by (unfold code_byte; apply Z.mod_pos_bound; lia).
    rewrite ushr_small by lia. rewrite to_uint32_small by lia.
    rewrite band_15 by lia.
    rewrite !toString16_digit.
    + done.
    + apply Z.mod_pos_bound; lia.
    + change (2 ^ 4) with 16. split; [apply Z.div_pos; lia|].
      apply Z.div_lt_upper_bound; lia.
Qed.

End WordArray.

Lemma check_below (f : Z -> bool) (n : Z) :
  forallb f (seqZ 0 n) = true -> forall d, 0 <= d < n -> f d = true.
Proof.
  intros Hall d Hd. rewrite forallb_forall in Hall. apply Hall.
  apply list_elem_of_In, elem_of_seqZ. lia.
Qed.

Lemma hex_digit_lower d : 0 <= d < 16 -> is_lower_hex (hex_digit d) = true.
Proof. revert d. apply check_below. vm_compute. done. Qed.

Lemma length_concat_hex2 bs : length (concat (hex2 <$> bs)) = (2 * length bs)%nat.
Proof.
  induction bs as [|b bs IH]; [done|].
  rewrite fmap_cons. cbn [concat]. rewrite length_app, IH. simpl. lia.
Qed.

Lemma lookup_concat_hex2 bs : forall i,
  concat (hex2 <$> bs) !! (2 * i)%nat = (fun b => hex_digit (b / 16)) <$> bs !! i
  /\ concat (hex2 <$> bs) !! (2 * i + 1)%nat = (fun b => hex_digit (b mod 16)) <$> bs !! i.
Proof.
  induction bs as [|b bs IH]; intros i; [done|].
  destruct i as [|i]; [done|].
  replace (2 * S i)%nat with (S (S (2 * i))) by lia.
  replace (S (S (2 * i)) + 1)%nat with (S (S (2 * i + 1))) by lia.
  simpl. apply IH.
Qed.

Lemma concat_digits_hex2 (f : Z -> Z) (l : list Z) :
  concat (concat ((fun j => [[hex_digit (f j / 16)]; [hex_digit (f j mod 16)]]) <$> l))
  = concat (hex2 <$> (f <$> l)).
Proof.
  induction l as [|j l IH]; [done|].
  rewrite !fmap_cons. cbn [concat]. rewrite concat_app, IH. done.
Qed.

(** The contents of a numeric array, as the extractor reads them. *)
Definition word_at (ws : list Z) (k : Z) : Z := to_uint32 (nth (Z.to_nat k) ws 0).

Lemma elem_word_numbers ws k :
  elem_word (VNum <$> ws) k = word_at ws (Z.of_nat k).
Proof.
  unfold elem_word, word_at. rewrite Nat2Z.id, list_lookup_fmap.
  destruct (ws !! k) as [w|] eqn:Hk; simpl.
  - by rewrite (nth_lookup_Some _ _ _ _ Hk).
  - rewrite nth_overflow; [done|]. by apply lookup_ge_None.
Qed.

Lemma ushr_index i : 0 <= i < 4294967296 -> ushr i 2 = Z.shiftr i 2.
Proof.
  intros Hi. rewrite ushr_small, to_uint32_small by lia.
  by rewrite Z.shiftr_div_pow2 by lia.
Qed.

Lemma wordsToHex_array (R : realm) s l o n :
  heap s !! l = Some o ->
  o_class o = CArray ->
  (forall k, o_elems o !! k = None -> lookup_chain R (heap s) l (PIdx k) = None) ->
  (forall k v, o_elems o !! k = Some v -> is_Some (to_integer v)) ->
  wordsToHex R (VRef l) (VNum n) s =
  (Ret (concat (hex2 <$> (code_byte (o_elems o) <$> seqZ 0 (Z.of_nat (Z.to_nat n))))), s).
Proof.
  intros Hl Hc Hinh Hnum. unfold wordsToHex, bind, read, isArray, class_of.
  simpl. rewrite Hl. simpl. rewrite Hc. simpl.
  rewrite (wordsToHex_loop_spec R s l o Hl Hinh Hnum). simpl.
  by rewrite concat_digits_hex2.
Qed.

Lemma code_byte_range es i : 0 <= code_byte es i < 256.
Proof. unfold code_byte. apply Z.mod_pos_bound. lia. Qed.

Lemma hex2_lower b : 0 <= b < 256 -> Forall (fun c => is_lower_hex c = true) (hex2 b).
Proof.
  intros Hb. unfold hex2. repeat constructor; apply hex_digit_lower.
  - split; [apply Z.div_pos; lia | apply Z.div_lt_upper_bound; lia].
  - apply Z.mod_pos_bound. lia.
Qed.

Import Demo.

Definition layout_example : state := with_heap pristine [array [VNum 16909060]].

Lemma demo_array_inherits_nothing (es : list value) k :
  es !! k = None ->
  lookup_chain R0 (heap (with_heap pristine [array es])) 9 (PIdx k) = None.
Proof.
  intros Hk. unfold lookup_chain. cbn. rewrite Hk. cbn. by destruct k.
Qed.

(** Claim C3.  For an array of numbers [ws] and a byte count [n],
    [wordsToHex] returns the two hex digits of each of [n] bytes, and
    byte [i] is [(ws[i >>> 2] >>> (24 - (i % 4) * 8)) & 0xff], which is
    byte [i mod 4] of word [i / 4] counted from the most significant
    one.  The array [[0x01020304]] with 3 significant bytes gives the
    text 010203. *)
Theorem wordsToHex_layout :
  (forall (R : realm) s l o ws n,
     heap s !! l = Some o ->
     o_class o = CArray ->
     o_elems o = VNum <$> ws ->
     (forall k, o_elems o !! k = None -> lookup_chain R (heap s) l (PIdx k) = None) ->
     exists bytes : list Z,
       wordsToHex R (VRef l) (VNum n) s = (Ret (concat (hex2 <$> bytes)), s)
       /\ length bytes = Z.to_nat n
       /\ forall i, 0 <= i < n -> i < 4294967296 ->
            bytes !! Z.to_nat i
              = Some (Z.land (Z.shiftr (word_at ws (Z.shiftr i 2)) (24 - i mod 4 * 8)) 255)
            /\ Z.land (Z.shiftr (word_at ws (Z.shiftr i 2)) (24 - i mod 4 * 8)) 255
               = word_at ws (i / 4) / 256 ^ (3 - i mod 4) mod 256)
  /\ wordsToHex R0 (VRef 9) (VNum 3) layout_example = (Ret (js "010203"), layout_example).
Proof.
  split; [|reflexivity].
  intros R s l o ws n Hl Hc He Hinh.
  exists (code_byte (o_elems o) <$> seqZ 0 (Z.of_nat (Z.to_nat n))).
  split; [|split].
  - apply wordsToHex_array; try done.
    intros k v. rewrite He, list_lookup_fmap.
    destruct (ws !! k); simpl; intros [= <-]. by eexists.
  - by rewrite length_fmap, length_seqZ, Nat2Z.id.
  - intros i Hi Hi'.
    assert (Hsh : Z.shiftr i 2 = i / 4) by (by rewrite Z.shiftr_div_pow2 by lia).
    pose proof (Z.mod_pos_bound i 4 ltac:(lia)) as Hm.
    assert (Hpow : 2 ^ (24 - i mod 4 * 8) = 256 ^ (3 - i mod 4)).
    { assert (Hc4 : i mod 4 = 0 \/ i mod 4 = 1 \/ i mod 4 = 2 \/ i mod 4 = 3) by lia.
      destruct Hc4 as [-> | [-> | [-> | ->]]]; reflexivity. }
    assert (Hland : Z.land (Z.shiftr (word_at ws (Z.shiftr i 2)) (24 - i mod 4 * 8)) 255
            = word_at ws (i / 4) / 256 ^ (3 - i mod 4) mod 256).
    { rewrite land_255, Z.shiftr_div_pow2, Hsh, Hpow by lia. done. }
    split; [|done].
    rewrite Hland, list_lookup_fmap, lookup_seqZ_lt by lia. simpl.
    rewrite Z2Nat.id by lia. rewrite Z.add_0_l. f_equal.
    unfold code_byte. rewrite He, elem_word_numbers, Z2Nat.id.
    + rewrite ushr_index, Hsh, Hpow by lia. done.
    + rewrite ushr_index by lia. apply Z.shiftr_nonneg. lia.
Qed.

Lemma wordsToHex_layout_witness :
  exists bytes : list Z,
    wordsToHex R0 (VRef 9) (VNum 3) layout_example
      = (Ret (concat (hex2 <$> bytes)), layout_example)
    /\ length bytes = 3%nat
    /\ forall i, 0 <= i < 3 -> i < 4294967296 ->
         bytes !! Z.to_nat i
           = Some (Z.land (Z.shiftr (word_at [16909060] (Z.shiftr i 2)) (24 - i mod 4 * 8)) 255)
         /\ Z.land (Z.shiftr (word_at [16909060] (Z.shiftr i 2)) (24 - i mod 4 * 8)) 255
            = word_at [16909060] (i / 4) / 256 ^ (3 - i mod 4) mod 256.
Proof.
  apply (proj1 wordsToHex_layout R0 layout_example 9%nat
           (array [VNum 16909060]) [16909060] 3).
  - reflexivity.
  - reflexivity.
  - reflexivity.
  - apply demo_array_inherits_nothing.
Defined.


Definition total_example : state :=
  with_heap pristine [array [VNum 16909060; VUndef]; plain []].


(** ** The hex-to-base64 conversion *)

Definition hex_of_bytes (bs : list Z) : jstring := concat (hex2 <$> bs).

Definition is_byte (b : Z) : Prop := 0 <= b < 256.

Lemma triple_ind (P : list Z -> Prop) :
  P [] -> (forall a, P [a]) -> (forall a b, P [a; b]) ->
  (forall a b c r, P r -> P (a :: b :: c :: r)) ->
  forall l, P l.
Proof.
  intros H0 H1 H2 H3 l.
  assert (Hn : forall n l, (length l <= n)%nat -> P l).
  { clear l. induction n as [|n IH]; intros l Hl.
    - destruct l; [done | simpl in Hl; lia].
    - destruct l as [|a [|b [|c r]]]; try done.
      apply H3, IH. simpl in Hl. lia. }
  by apply (Hn (length l)).
Qed.

Lemma parseInt16_hex2 b : 0 <= b < 256 -> parseInt16 (hex2 b) = Some b.
Proof.
  intros Hb.
  assert (Hc : bool_decide (parseInt16 (hex2 b) = Some b) = true).
  { revert b Hb. apply (check_below (fun b => bool_decide (parseInt16 (hex2 b) = Some b))).
    vm_compute. done. }
  by apply bool_decide_eq_true in Hc.
Qed.

Lemma hex_bytes_loop_spec bs : forall fuel pre acc,
  Forall is_byte bs -> (length bs <= fuel)%nat ->
  hex_bytes_loop fuel (length pre) (pre ++ hex_of_bytes bs) acc = acc ++ (Some <$> bs).
Proof.
  induction bs as [|b bs IH]; intros fuel pre acc Hbs Hfuel.
  - unfold hex_of_bytes. simpl. rewrite !app_nil_r.
    destruct fuel; [done|]. simpl.
    destruct (Nat.ltb_spec (length pre) (length pre)); [lia | done].
  - destruct fuel as [|fuel]; [simpl in Hfuel; lia|].
    inversion Hbs as [|? ? Hb Hbs']; subst.
    cbn [hex_bytes_loop].
    assert (Hlt : (length pre <? length (pre ++ hex_of_bytes (b :: bs)))%nat = true).
    { apply Nat.ltb_lt. rewrite length_app. unfold hex_of_bytes. simpl. lia. }
    rewrite Hlt.
    assert (Hsub : substr2 (pre ++ hex_of_bytes (b :: bs)) (length pre) = hex2 b).
    { unfold substr2. rewrite drop_app_length. done. }
    rewrite Hsub, parseInt16_hex2 by done.
    replace (pre ++ hex_of_bytes (b :: bs)) with ((pre ++ hex2 b) ++ hex_of_bytes bs)
      by (by rewrite <- app_assoc).
    replace (length pre + 2)%nat with (length (pre ++ hex2 b))
      by (rewrite length_app; done).
    rewrite IH by (done || simpl in Hfuel; lia).
    by rewrite <- app_assoc.
Qed.

Lemma btoa_bytes bs : Forall is_byte bs -> btoa bs = Some (base64_encode bs).
Proof.
  intros Hbs. unfold btoa.
  assert (Hall : forallb (fun c => (0 <=? c) && (c <=? 255)) bs = true).
  { apply forallb_forall. intros c Hc.
    apply list_elem_of_In in Hc.
    pose proof (proj1 (Forall_forall _ _) Hbs c Hc) as [??].
    apply andb_true_iff. split; [apply Z.leb_le | apply Z.leb_le]; lia. }
  by rewrite Hall.
Qed.

Lemma fromCharCode_bytes bs :
  Forall is_byte bs -> fromCharCode <$> (Some <$> bs) = bs.
Proof.
  induction 1 as [|b bs Hb _ IH]; [done|].
  rewrite !fmap_cons, IH. simpl. f_equal.
  apply Z.mod_small. unfold is_byte in Hb. lia.
Qed.

Lemma hexToBase64_bytes bs s :
  Forall is_byte bs ->
  hexToBase64 (VStr (hex_of_bytes bs)) s = (Ret (base64_encode bs), s).
Proof.
  intros Hbs. unfold hexToBase64.
  destruct bs as [|b bs]; [done|].
  assert (Ht : truthy (VStr (hex_of_bytes (b :: bs))) = true) by done.
  rewrite Ht. simpl negb. cbv iota.
  assert (Hloop : hex_bytes_loop (length (hex_of_bytes (b :: bs))) 0
                    (hex_of_bytes (b :: bs)) [] = Some <$> (b :: bs)).
  { apply (hex_bytes_loop_spec (b :: bs) _ [] []); [done|].
    unfold hex_of_bytes. rewrite length_concat_hex2. simpl. lia. }
  unfold try_catch. cbv zeta. rewrite Hloop.
  rewrite fromCharCode_bytes, btoa_bytes by done. done.
Qed.

Lemma b64_index_char k : 0 <= k < 64 -> b64_index (b64_char k) = Some k.
Proof.
  intros Hk.
  assert (Hc : bool_decide (b64_index (b64_char k) = Some k) = true).
  { revert k Hk. apply (check_below (fun k => bool_decide (b64_index (b64_char k) = Some k))).
    vm_compute. done. }
  by apply bool_decide_eq_true in Hc.
Qed.

Lemma b64_char_not_pad k : 0 <= k < 64 -> (b64_char k =? 61) = false.
Proof.
  intros Hk.
  assert (Hc : negb (b64_char k =? 61) = true).
  { revert k Hk. apply (check_below (fun k => negb (b64_char k =? 61))).
    vm_compute. done. }
  by apply negb_true_iff in Hc.
Qed.

Ltac sextet := unfold is_byte in *; Z.div_mod_to_equations; lia.

Lemma base64_roundtrip bs :
  Forall is_byte bs -> base64_decode (base64_encode bs) = Some bs.
Proof.
  induction bs as [|a|a b|a b c r IH] using triple_ind; intros Hbs.
  - done.
  - inversion Hbs as [|? ? Ha _]; subst.
    cbn [base64_encode base64_decode].
    rewrite !b64_index_char by sextet. simpl.
    do 2 f_equal. sextet.
  - inversion Hbs as [|? ? Ha Hbs']; subst.
    inversion Hbs' as [|? ? Hb _]; subst.
    cbn [base64_encode base64_decode].
    rewrite !b64_index_char by sextet.
    rewrite b64_char_not_pad by sextet. simpl.
    f_equal. f_equal; [sextet|]. f_equal. sextet.
  - inversion Hbs as [|? ? Ha Hbs']; subst.
    inversion Hbs' as [|? ? Hb Hbs'']; subst.
    inversion Hbs'' as [|? ? Hc Hr]; subst.
    cbn [base64_encode base64_decode app].
    rewrite !b64_index_char by sextet.
    rewrite !b64_char_not_pad by sextet. simpl.
    rewrite IH by done.
    f_equal. f_equal; [sextet|]. f_equal; [sextet|]. f_equal. sextet.
Qed.



Example base64_example : base64_encode [1; 2; 3; 255] = js "AQID/w==".
Proof. reflexivity. Qed.

(** ** The raw-string view *)

Section Extractor.

Variable R : realm.
Variable H : host.

Lemma get_state v k s : (get R v k s).2 = s.
Proof.
  unfold get. destruct (base_loc R v); [|done].
  destruct (match v with VStr str => own_of_string str k | _ => None end); [done|].
  destruct (lookup_chain R (heap s) _ k) as [[?|]|]; done.
Qed.

Lemma get_returns v k s :
  v <> VUndef -> v <> VNull -> exists x, get R v k s = (Ret x, s).
Proof.
  intros Hu Hn. unfold get.
  destruct v; try done; simpl;
    repeat match goal with
    | |- context [match ?x with _ => _ end] => destruct x
    end; eauto.
Qed.

Lemma get_throws v k s e : (get R v k s).1 = Throw e -> v = VUndef \/ v = VNull.
Proof.
  destruct v; auto; intros Hg;
    match type of Hg with
    | (get R ?w _ _).1 = _ => destruct (get_returns w k s) as [x Hx]; [done..|]
    end;
    rewrite Hx in Hg; done.
Qed.

(** The decoded text of a hex string, or the hex string itself when it
    does not decode. *)
Definition raw_view (hexKey : value) : value :=
  match hexKey with
  | VStr h => VStr (default h (decodeURIComponent (percent_escape h)))
  | _ => hexKey
  end.

Lemma rawString_cases hexKey s :
  rawString R hexKey s = (Ret (raw_view hexKey), s)
  \/ rawString R hexKey s = (OutOfModel, s).
Proof.
  unfold rawString, try_catch, decode_hex.
  destruct hexKey as [| |b|n|h|l]; try (left; reflexivity).
  - destruct (get_returns (VBool b) (PName "replace") s) as [x Hx]; [done..|].
    unfold bind, read. rewrite Hx.
    destruct (is_callable (heap s) x); [right | left]; done.
  - destruct (get_returns (VNum n) (PName "replace") s) as [x Hx]; [done..|].
    unfold bind, read. rewrite Hx.
    destruct (is_callable (heap s) x); [right | left]; done.
  - left. simpl. destruct (decodeURIComponent (percent_escape h)); done.
  - destruct (get_returns (VRef l) (PName "replace") s) as [x Hx]; [done..|].
    unfold bind, read. rewrite Hx.
    destruct (is_callable (heap s) x); [right | left]; done.
Qed.

Lemma hexToBase64_cases hex s :
  (exists b, hexToBase64 hex s = (Ret b, s)) \/ hexToBase64 hex s = (OutOfModel, s).
Proof.
  unfold hexToBase64. destruct (truthy hex); simpl; [|by left; eexists].
  destruct hex; try (by right).
  unfold try_catch. cbv zeta.
  destruct (btoa _); left; eexists; done.
Qed.

(** Claim C5.  The statement of [formatKey] that computes the string
    view never throws.  On a hex text it returns the URI-decoded text
    of the percent-escaped pairs, and the hex text itself when the
    decoding fails.  So whenever [formatKey] returns, its string field
    is that view of its hex field, and an exception of [formatKey] is
    one of the statement that computes the hex text. *)
Theorem formatKey_rawString (keyObj : value) (s : state) :
  (forall hexKey s0 e, (rawString R hexKey s0).1 <> Throw e)
  /\ (forall h s0,
        rawString R (VStr h) s0
        = (Ret (VStr (match decodeURIComponent (percent_escape h) with
                      | Some text => text
                      | None => h
                      end)), s0))
  /\ (forall d s', formatKey R H keyObj s = (Ret d, s') ->
        k_string d = raw_view (k_hex d))
  /\ (forall e, (formatKey R H keyObj s).1 = Throw e ->
        (hexStage R H keyObj s).1 = Throw e).
Proof.
  split; [|split; [|split]].
  - intros hexKey s0 e. by destruct (rawString_cases hexKey s0) as [-> | ->].
  - intros h s0. unfold rawString, try_catch, decode_hex, ret, throw.
    by destruct (decodeURIComponent (percent_escape h)).
  - intros d s'. unfold formatKey.
    destruct (truthy keyObj); simpl.
    + unfold bind. destruct (hexStage R H keyObj s) as [[hexKey|e|] s1]; try done.
      cbv beta iota.
      destruct (hexToBase64_cases hexKey s1) as [[b ->] | ->]; [|done].
      cbv beta iota.
      destruct (rawString_cases hexKey s1) as [-> | ->]; [|done].
      cbv beta iota. unfold ret. by intros [= <- <-].
    + unfold ret. by intros [= <- <-].
  - intros e. unfold formatKey.
    destruct (truthy keyObj); simpl; [|done].
    unfold bind. destruct (hexStage R H keyObj s) as [[hexKey|e'|] s1];
      [|simpl; congruence|done].
    cbv beta iota.
    destruct (hexToBase64_cases hexKey s1) as [[b ->] | ->]; [|done].
    cbv beta iota.
    destruct (rawString_cases hexKey s1) as [-> | ->]; done.
Qed.

End Extractor.

(** Rewriting with the equation of one evaluation step, wherever the
    reduction of the surrounding [bind]s exposes it. *)
Ltac mrew H := repeat (rewrite H; cbv beta iota zeta).

(** Membership and inclusion among explicit lists of names. *)
Ltac names := by apply (bool_decide_unpack _).

(** Evaluation of a monadic term: reduce, rewrite with the equations
    that [tac] tries, and repeat while that makes progress. *)
Ltac mgo tac :=
  repeat (progress (cbv beta iota zeta; cbn [Nat.eqb negb truthy]; tac)).

(** ** What the patching code preserves *)

(** Objects of [h] are still there in [h'], with their class. *)
Definition keeps_classes (h h' : list object) : Prop :=
  forall l o, h !! l = Some o ->
    exists o', h' !! l = Some o' /\ o_class o' = o_class o.

Lemma keeps_classes_refl h : keeps_classes h h.
Proof. intros l o Hl. eauto. Qed.

Lemma keeps_classes_trans h1 h2 h3 :
  keeps_classes h1 h2 -> keeps_classes h2 h3 -> keeps_classes h1 h3.
Proof.
  intros H12 H23 l o Hl.
  destruct (H12 l o Hl) as (o2 & Hl2 & Hc2).
  destruct (H23 l o2 Hl2) as (o3 & Hl3 & Hc3).
  exists o3. split; [done | congruence].
Qed.

(** A computation that stays inside the model and keeps the class of
    every object. *)
Definition tame {A} (m : M A) : Prop :=
  forall s, (m s).1 <> OutOfModel /\ keeps_classes (heap s) (heap (m s).2).

Lemma tame_ret {A} (a : A) : tame (ret a).
Proof. intros s. split; [done | apply keeps_classes_refl]. Qed.

Lemma tame_throw {A} e : tame (@throw A e).
Proof. intros s. split; [done | apply keeps_classes_refl]. Qed.

Lemma tame_bind {A B} (m : M A) (k : A -> M B) :
  tame m -> (forall a, tame (k a)) -> tame (bind m k).
Proof.
  intros Hm Hk s. unfold bind. destruct (Hm s) as [Hin Hle].
  destruct (m s) as [[a|e|] s1]; simpl in *; [|done|done].
  destruct (Hk a s1) as [Hin' Hle']. split; [done|].
  by eapply keeps_classes_trans.
Qed.

Lemma tame_try_catch {A} (m h : M A) : tame m -> tame h -> tame (try_catch m h).
Proof.
  intros Hm Hh s. unfold try_catch. destruct (Hm s) as [Hin Hle].
  destruct (m s) as [[a|e|] s1]; simpl in *; [done| |done].
  destruct (Hh s1) as [Hin' Hle']. split; [done|].
  by eapply keeps_classes_trans.
Qed.

Lemma tame_if {A} (b : bool) (m1 m2 : M A) :
  tame m1 -> tame m2 -> tame (if b then m1 else m2).
Proof. by destruct b. Qed.

Lemma tame_andM a b : tame a -> tame b -> tame (a &&& b).
Proof.
  intros Ha Hb. apply tame_bind; [done|]. intros x. apply tame_if; [done|apply tame_ret].
Qed.

Lemma tame_when c m : tame c -> tame m -> tame (when c m).
Proof.
  intros Hc Hm. apply tame_bind; [done|]. intros x. apply tame_if; [done|apply tame_ret].
Qed.

Lemma tame_read {A} (f : list object -> A) : tame (read f).
Proof. intros s. split; [done | apply keeps_classes_refl]. Qed.

Lemma tame_get R v k : tame (get R v k).
Proof.
  intros s. rewrite get_state. split; [|apply keeps_classes_refl].
  unfold get. destruct (base_loc R v); [|done].
  destruct (match v with VStr str => own_of_string str k | _ => None end); [done|].
  destruct (lookup_chain R (heap s) _ k) as [[?|]|]; done.
Qed.

Lemma tame_hasOwn v k : tame (hasOwn v k).
Proof.
  intros s. unfold hasOwn.
  destruct v; simpl; try (split; [done | apply keeps_classes_refl]).
  destruct (heap s !! l); simpl; (split; [done | apply keeps_classes_refl]).
Qed.

Lemma tame_nativeMap_has v : tame (nativeMap_has v).
Proof. intros s. destruct v; simpl; (split; [done | apply keeps_classes_refl]). Qed.

Lemma tame_nativeMap_get v : tame (nativeMap_get v).
Proof. intros s. destruct v; simpl; (split; [done | apply keeps_classes_refl]). Qed.

Lemma tame_nativeMap_set k v : tame (nativeMap_set k v).
Proof. intros s. destruct k; simpl; (split; [done | apply keeps_classes_refl]). Qed.

Lemma tame_alloc o : tame (alloc o).
Proof.
  intros s. split; [done|]. simpl. intros l o' Hl. exists o'.
  split; [|done]. by apply lookup_app_l_Some.
Qed.

Lemma tame_set_prop v k x : tame (set_prop v k x).
Proof.
  intros s. unfold set_prop.
  destruct v; simpl; try (split; [done | apply keeps_classes_refl]).
  destruct (heap s !! l) as [o|] eqn:Hl; simpl; [|split; [done | apply keeps_classes_refl]].
  split; [done|]. intros l' o' Hl'.
  destruct (decide (l = l')) as [<-|Hne].
  - eexists. split; [apply list_lookup_insert_eq; by eapply lookup_lt_Some|].
    simpl. congruence.
  - exists o'. split; [by rewrite list_lookup_insert_ne | done].
Qed.

Create HintDb tame.
#[local] Hint Resolve tame_ret tame_throw tame_read tame_get tame_hasOwn
  tame_nativeMap_has tame_nativeMap_get tame_nativeMap_set tame_alloc
  tame_set_prop : tame.
#[local] Hint Extern 2 (tame (bind _ _)) => apply tame_bind; [|intros ?] : tame.
#[local] Hint Extern 2 (tame (try_catch _ _)) => apply tame_try_catch : tame.
#[local] Hint Extern 2 (tame (when _ _)) => apply tame_when : tame.
#[local] Hint Extern 2 (tame (_ &&& _)) => apply tame_andM : tame.
#[local] Hint Extern 2 (tame (if _ then _ else _)) => apply tame_if : tame.

Lemma tame_new_function R name c : tame (new_function R name c).
Proof. apply tame_alloc. Qed.

Lemma tame_makeNative R w o : tame (makeNative R w o).
Proof. unfold makeNative. auto 20 with tame. Qed.

#[local] Hint Resolve tame_new_function tame_makeNative : tame.

Lemma tame_rsa_patch R args : tame (rsa_patch R args).
Proof.
  unfold rsa_patch, rsa_chain, encrypt_patch, decrypt_patch, proto2, proto1.
  auto 30 with tame.
Qed.

Lemma tame_hash_patch R args : tame (hash_patch R args).
Proof.
  unfold hash_patch, hash_chain, finalize_patch, proto2, proto1.
  auto 30 with tame.
Qed.

Lemma patch_returns (m : M unit) s :
  tame m ->
  exists s', try_catch m (ret tt) s = (Ret tt, s')
             /\ keeps_classes (heap s) (heap s').
Proof.
  intros Hm. unfold try_catch. destruct (Hm s) as [Hin Hle].
  destruct (m s) as [[[]|e|] s1]; simpl in *; [eauto | eauto | done].
Qed.

Lemma get_truthy R v k s :
  truthy v = true -> exists x, get R v k s = (Ret x, s).
Proof. intros Hv. apply get_returns; by intros ->. Qed.

Lemma rsa_shape_returns R args s : exists b, rsa_shape R args s = (Ret b, s).
Proof.
  unfold rsa_shape, andM, bind, ret, read, proto1.
  destruct (length args =? 1)%nat; [|eauto].
  destruct (truthy (arg args 0)) eqn:Ht; [|eauto].
  destruct (get_truthy R (arg args 0) (PName "__proto__") s Ht) as [p Hp].
  mrew Hp. destruct (truthy p); [|eauto].
  mrew Hp. destruct (typeof_object (heap s) p); [|eauto].
  mrew Hp. eauto.
Qed.

Lemma callHook_analysis_returns R args s :
  exists s', callHook_analysis R args s = (Ret tt, s')
             /\ keeps_classes (heap s) (heap s').
Proof.
  unfold callHook_analysis, bind.
  destruct (rsa_shape_returns R args s) as [b ->].
  destruct b.
  - apply (patch_returns _ s).
    unfold rsa_chain, encrypt_patch, decrypt_patch, proto2, proto1.
    auto 30 with tame.
  - exists s. split; [done | apply keeps_classes_refl].
Qed.

(** ** Registration of a wrapper *)

Arguments own_lookup : simpl never.

Definition slot_value (r : option slot) : value :=
  match r with Some (Data x) => x | _ => VUndef end.

Definition with_prop (o : object) (k : string) (x : value) : object :=
  Obj (o_class o) (o_proto o) (<[k := x]> (o_props o)) (o_elems o).

Lemma set_prop_obj s w ow k x :
  heap s !! w = Some ow ->
  set_prop (VRef w) k x s
  = (Ret tt, State (<[w := with_prop ow k x]> (heap s)) (nativeMap s) (console s)).
Proof. intros Hw. unfold set_prop. by rewrite Hw. Qed.

Section Lookup.

Variable R : realm.

Lemma get_ref_name l k s :
  k <> "__proto__"%string ->
  get R (VRef l) (PName k) s
  = (Ret (slot_value (lookup_chain R (heap s) l (PName k))), s).
Proof.
  intros Hk. unfold get. simpl.
  destruct (lookup_chain R (heap s) l (PName k)) as [[x|]|] eqn:Hl; try done.
  exfalso. unfold lookup_chain in Hl. revert l Hl.
  generalize (S (length (heap s))) as fuel.
  induction fuel as [|fuel IH]; intros l Hl; [done|]. simpl in Hl.
  destruct (heap s !! l) as [o|]; [|done].
  destruct (own_lookup o (PName k)); [done|].
  rewrite bool_decide_eq_false_2 in Hl by congruence. simpl in Hl.
  destruct (o_proto o); try done. by eapply IH.
Qed.

Lemma own_lookup_with_prop_ne o k x k' :
  k' <> PName k -> own_lookup (with_prop o k x) k' = own_lookup o k'.
Proof.
  intros Hne. unfold own_lookup. destruct k' as [n|i]; simpl; [|done].
  destruct (is_indexed (o_class o) && bool_decide (n = "length"%string)); [done|].
  apply lookup_insert_ne. congruence.
Qed.

Lemma own_lookup_with_prop o k x :
  is_indexed (o_class o) = false ->
  own_lookup (with_prop o k x) (PName k) = Some x.
Proof. intros Hc. unfold own_lookup. simpl. rewrite Hc. simpl. apply lookup_insert_eq. Qed.

Lemma find_prop_insert_other fuel h w ow k x l k' :
  h !! w = Some ow -> k' <> PName k ->
  find_prop R fuel (<[w := with_prop ow k x]> h) l k' = find_prop R fuel h l k'.
Proof.
  intros Hw Hne. revert l. induction fuel as [|fuel IH]; intros l; [done|].
  simpl. destruct (decide (l = w)) as [->|Hlw].
  - rewrite list_lookup_insert_eq by (by eapply lookup_lt_Some). rewrite Hw.
    rewrite own_lookup_with_prop_ne by done. simpl.
    destruct (own_lookup ow k'); [done|].
    destruct (bool_decide (k' = PName "__proto__") && (w =? r_object R)%nat); [done|].
    destruct (o_proto ow); auto.
  - rewrite list_lookup_insert_ne by done.
    destruct (h !! l) as [o|]; [|done].
    destruct (own_lookup o k'); [done|].
    destruct (bool_decide (k' = PName "__proto__") && (l =? r_object R)%nat); [done|].
    destruct (o_proto o); auto.
Qed.

Lemma find_prop_insert_same fuel h w ow k x l :
  h !! w = Some ow -> is_indexed (o_class ow) = false ->
  k <> "__proto__"%string ->
  slot_value (find_prop R fuel h l (PName k)) = x ->
  slot_value (find_prop R fuel (<[w := with_prop ow k x]> h) l (PName k)) = x.
Proof.
  intros Hw Hc Hk. revert l. induction fuel as [|fuel IH]; intros l Hx; [done|].
  simpl in *. destruct (decide (l = w)) as [->|Hlw].
  - rewrite list_lookup_insert_eq by (by eapply lookup_lt_Some).
    rewrite own_lookup_with_prop by done. done.
  - rewrite list_lookup_insert_ne by done.
    destruct (h !! l) as [o|]; [|done].
    destruct (own_lookup o (PName k)); [done|].
    rewrite bool_decide_eq_false_2 in * by congruence. simpl in *.
    destruct (o_proto o); auto.
Qed.

End Lookup.

Lemma native_toString_class v s s' :
  class_of (heap s') v = class_of (heap s) v ->
  (native_toString v s').1 = (native_toString v s).1.
Proof. intros Hc. unfold native_toString. rewrite Hc. by repeat case_match. Qed.

Lemma keeps_classes_class_of h h' v c :
  keeps_classes h h' -> class_of h v = Some c -> class_of h' v = Some c.
Proof.
  intros Hk. destruct v; try done. simpl.
  destruct (h !! l) as [o|] eqn:Hl; [|done]. simpl. intros [= <-].
  destruct (Hk l o Hl) as (o' & Hl' & Hc'). rewrite Hl'. simpl. by rewrite Hc'.
Qed.

Lemma native_toString_kept v s s' src :
  keeps_classes (heap s) (heap s') ->
  native_toString v s = (Ret (VStr src), s) ->
  (native_toString v s').1 = Ret (VStr src).
Proof.
  intros Hk Hn.
  assert (Hc : exists c, class_of (heap s) v = Some c).
  { unfold native_toString in Hn. destruct (class_of (heap s) v); [eauto | done]. }
  destruct Hc as [c Hc].
  rewrite (native_toString_class v s s'), Hn; [done|].
  rewrite Hc. by eapply keeps_classes_class_of.
Qed.

Lemma nativeMap_has_registered l x s :
  nativeMap s !! l = Some x -> nativeMap_has (VRef l) s = (Ret true, s).
Proof. intros Hl. unfold nativeMap_has. by rewrite Hl. Qed.

Lemma nativeMap_get_registered l x s :
  nativeMap s !! l = Some x -> nativeMap_get (VRef l) s = (Ret x, s).
Proof. intros Hl. unfold nativeMap_get. by rewrite Hl. Qed.

Section Registration.

Variable R : realm.

Lemma makeNative_run w ow orig s :
  heap s !! w = Some ow ->
  exists ow',
    makeNative R (VRef w) orig s
    = (Ret (VRef w),
       State (<[w := ow']> (heap s)) (<[w := orig]> (nativeMap s)) (console s))
    /\ o_class ow' = o_class ow /\ o_proto ow' = o_proto ow
    /\ o_elems ow' = o_elems ow
    /\ (forall k, k <> "name"%string -> k <> "length"%string ->
          o_props ow' !! k = o_props ow !! k)
    /\ (orig <> VUndef -> orig <> VNull ->
        exists n len,
          get R orig (PName "name") s = (Ret n, s)
          /\ get R orig (PName "length")
               (State (<[w := with_prop ow "name" n]> (heap s)) (nativeMap s) (console s))
             = (Ret len,
                State (<[w := with_prop ow "name" n]> (heap s)) (nativeMap s) (console s))
          /\ ow' = with_prop (with_prop ow "name" n) "length" len).
Proof.
  intros Hw. unfold makeNative.
  destruct (decide (orig = VUndef \/ orig = VNull)) as [Hnone|Hsome].
  - exists ow. split; [|by repeat split; try tauto].
    rewrite list_insert_id by done.
    destruct Hnone as [-> | ->]; reflexivity.
  - assert (Hu : orig <> VUndef) by tauto. assert (Hn : orig <> VNull) by tauto.
    destruct (get_returns R orig (PName "name") s Hu Hn) as [n Hgn].
    destruct (get_returns R orig (PName "length")
                (State (<[w := with_prop ow "name" n]> (heap s)) (nativeMap s) (console s))
                Hu Hn) as [len Hgl].
    exists (with_prop (with_prop ow "name" n) "length" len).
    split; [|repeat split; try done].
    + unfold bind, try_catch. mrew Hgn.
      rewrite (set_prop_obj s w ow) by done. cbv beta iota zeta.
      mrew Hgl.
      rewrite (set_prop_obj _ w (with_prop ow "name" n))
        by (simpl; apply list_lookup_insert_eq; by eapply lookup_lt_Some).
      cbv beta iota zeta. unfold nativeMap_set, ret. simpl.
      by rewrite list_insert_insert_eq.
    + intros k Hk1 Hk2. simpl. by rewrite !lookup_insert_ne.
    + intros _ _. exists n, len. done.
Qed.

Lemma lookup_chain_insert_other h w ow k x l k' :
  h !! w = Some ow -> k' <> PName k ->
  lookup_chain R (<[w := with_prop ow k x]> h) l k' = lookup_chain R h l k'.
Proof.
  intros Hw Hne. unfold lookup_chain. rewrite length_insert.
  by apply find_prop_insert_other.
Qed.

Lemma lookup_chain_insert_same h w ow k x l :
  h !! w = Some ow -> is_indexed (o_class ow) = false ->
  k <> "__proto__"%string ->
  slot_value (lookup_chain R h l (PName k)) = x ->
  slot_value (lookup_chain R (<[w := with_prop ow k x]> h) l (PName k)) = x.
Proof.
  intros Hw Hc Hk Hx. unfold lookup_chain. rewrite length_insert.
  by apply find_prop_insert_same.
Qed.

Lemma lookup_chain_own h l o k x :
  h !! l = Some o -> own_lookup o k = Some x ->
  lookup_chain R h l k = Some (Data x).
Proof. intros Hl Ho. unfold lookup_chain. simpl. by rewrite Hl, Ho. Qed.

(** Claim C7.  After [makeNative] has registered the function [w] as a
    wrapper of [o], the patched [Function.prototype.toString] returns
    on [w] the source text that the native one returns on [o], and the
    [name] and [length] of [w] are those of [o], which are unchanged. *)
Theorem makeNative_conceals (w o : loc) (ow : object) (src : jstring) (s : state) :
  heap s !! w = Some ow ->
  is_callable (heap s) (VRef w) = true ->
  native_toString (VRef o) s = (Ret (VStr src), s) ->
  exists s',
    makeNative R (VRef w) (VRef o) s = (Ret (VRef w), s')
    /\ nativeMap s' !! w = Some (VRef o)
    /\ (toString_hook R (VRef w) s').1 = Ret (VStr src)
    /\ (get R (VRef w) (PName "name") s').1 = (get R (VRef o) (PName "name") s').1
    /\ (get R (VRef w) (PName "length") s').1 = (get R (VRef o) (PName "length") s').1
    /\ (get R (VRef o) (PName "name") s').1 = (get R (VRef o) (PName "name") s).1
    /\ (get R (VRef o) (PName "length") s').1 = (get R (VRef o) (PName "length") s).1.
Proof.
  intros Hw Hfun Hsrc.
  assert (Hidx : is_indexed (o_class ow) = false).
  { unfold is_callable, class_of in Hfun. rewrite Hw in Hfun. simpl in Hfun.
    by destruct (o_class ow). }
  destruct (makeNative_run w ow (VRef o) s Hw)
    as (ow' & Hrun & Hc & Hp & He & Hprops & Hcopy).
  destruct (Hcopy ltac:(done) ltac:(done)) as (n & len & Hgn & Hgl & ->).
  clear Hcopy.
  set (h1 := <[w := with_prop ow "name" n]> (heap s)) in *.
  set (s1 := State h1 (nativeMap s) (console s)) in *.
  set (s' := State (<[w := with_prop (with_prop ow "name" n) "length" len]> (heap s))
                   (<[w := VRef o]> (nativeMap s)) (console s)) in *.
  assert (Hlt : (w < length (heap s))%nat) by (by eapply lookup_lt_Some).
  assert (Hh' : heap s' = <[w := with_prop (with_prop ow "name" n) "length" len]> h1).
  { unfold h1. by rewrite list_insert_insert_eq. }
  assert (Hw1 : h1 !! w = Some (with_prop ow "name" n))
    by (by apply list_lookup_insert_eq).
  rewrite get_ref_name in Hgn by done. injection Hgn as Hn.
  rewrite get_ref_name in Hgl by done. injection Hgl as Hl.
  simpl heap in Hl. unfold h1 in Hl.
  rewrite lookup_chain_insert_other in Hl by done.
  exists s'. split; [done|]. split; [apply lookup_insert_eq|].
  assert (Hname_o : slot_value (lookup_chain R (heap s') o (PName "name")) = n).
  { rewrite Hh'. rewrite lookup_chain_insert_other by done.
    by apply lookup_chain_insert_same. }
  assert (Hlen_o : slot_value (lookup_chain R (heap s') o (PName "length")) = len).
  { rewrite Hh'. apply lookup_chain_insert_same; try done.
    unfold h1. by rewrite lookup_chain_insert_other. }
  assert (Hw' : heap s' !! w
                = Some (with_prop (with_prop ow "name" n) "length" len))
    by (by apply list_lookup_insert_eq).
  split; [|repeat split].
  - assert (Hreg : nativeMap s' !! w = Some (VRef o)) by apply lookup_insert_eq.
    unfold toString_hook, bind.
    rewrite (nativeMap_has_registered _ _ _ Hreg).
    rewrite (nativeMap_get_registered _ _ _ Hreg).
    unfold _toString_call, bind.
    destruct (callHook_analysis_returns R [VRef o] s') as (s4 & -> & Hk4).
    eapply native_toString_kept; [|exact Hsrc].
    eapply keeps_classes_trans; [|exact Hk4].
    pose proof (proj2 (tame_makeNative R (VRef w) (VRef o) s)) as Hk.
    by rewrite Hrun in Hk.
  - rewrite !get_ref_name by done. cbn [fst]. rewrite Hname_o.
    erewrite lookup_chain_own; [done | exact Hw' |].
    unfold own_lookup. simpl. rewrite Hidx. simpl.
    rewrite lookup_insert_ne by done. apply lookup_insert_eq.
  - rewrite !get_ref_name by done. cbn [fst]. rewrite Hlen_o.
    erewrite lookup_chain_own; [done | exact Hw' |].
    unfold own_lookup. simpl. rewrite Hidx. simpl. apply lookup_insert_eq.
  - rewrite !get_ref_name by done. cbn [fst]. by rewrite Hname_o, Hn.
  - rewrite !get_ref_name by done. cbn [fst]. by rewrite Hlen_o, Hl.
Qed.

End Registration.

(** ** Frames: what a patch leaves as it was *)

(** Every object of [h] is still in [h'], unchanged except possibly for
    the values of its properties named in [K]. *)
Definition frame (K : list string) (h h' : list object) : Prop :=
  forall l o, h !! l = Some o ->
    exists o', h' !! l = Some o'
      /\ o_class o' = o_class o /\ o_proto o' = o_proto o
      /\ o_elems o' = o_elems o
      /\ (forall k, k ∉ K -> o_props o' !! k = o_props o !! k)
      /\ (forall k, is_Some (o_props o !! k) -> is_Some (o_props o' !! k)).

Definition outside (K : list string) (k : pkey) : Prop :=
  match k with PName n => n ∉ K | PIdx _ => True end.

Lemma frame_refl K h : frame K h h.
Proof. intros l o Hl. exists o. eauto 10. Qed.

Lemma frame_trans K h1 h2 h3 : frame K h1 h2 -> frame K h2 h3 -> frame K h1 h3.
Proof.
  intros H12 H23 l o Hl.
  destruct (H12 l o Hl) as (o2 & Hl2 & Hc2 & Hp2 & He2 & Hk2 & Hs2).
  destruct (H23 l o2 Hl2) as (o3 & Hl3 & Hc3 & Hp3 & He3 & Hk3 & Hs3).
  exists o3. repeat split; try congruence.
  - intros k Hk. rewrite Hk3, Hk2 by done. done.
  - intros k Hk. auto.
Qed.

Lemma frame_app K h ext : frame K h (h ++ ext).
Proof.
  intros l o Hl. exists o. split; [by apply lookup_app_l_Some | eauto 10].
Qed.

Lemma frame_insert K h l o o' :
  h !! l = Some o ->
  o_class o' = o_class o -> o_proto o' = o_proto o -> o_elems o' = o_elems o ->
  (forall k, k ∉ K -> o_props o' !! k = o_props o !! k) ->
  (forall k, is_Some (o_props o !! k) -> is_Some (o_props o' !! k)) ->
  frame K h (<[l := o']> h).
Proof.
  intros Hl Hc Hp He Hk Hs l1 o1 Hl1. destruct (decide (l1 = l)) as [->|Hne].
  - exists o'. rewrite list_lookup_insert_eq by (by eapply lookup_lt_Some).
    assert (o1 = o) by congruence. subst. eauto 10.
  - exists o1. rewrite list_lookup_insert_ne by done. eauto 10.
Qed.

Lemma frame_insert_new K h ext l o' :
  (length h <= l)%nat -> frame K h (<[l := o']> (h ++ ext)).
Proof.
  intros Hl l1 o1 Hl1. exists o1.
  assert (l1 < length h)%nat by (by eapply lookup_lt_Some).
  rewrite list_lookup_insert_ne by lia.
  split; [by apply lookup_app_l_Some | eauto 10].
Qed.

Lemma frame_with_prop K h l o k x :
  h !! l = Some o -> k ∈ K -> frame K h (<[l := with_prop o k x]> h).
Proof.
  intros Hl Hk. apply (frame_insert K h l o); try done.
  - intros k' Hk'. simpl. apply lookup_insert_ne. by intros ->.
  - intros k' Hk'. simpl. destruct (decide (k = k')) as [->|].
    + rewrite lookup_insert_eq. eauto.
    + by rewrite lookup_insert_ne.
Qed.

Section Frames.

Variable R : realm.

Lemma own_lookup_frame o o' k K :
  o_class o' = o_class o -> o_elems o' = o_elems o ->
  (forall n, n ∉ K -> o_props o' !! n = o_props o !! n) ->
  outside K k -> own_lookup o' k = own_lookup o k.
Proof.
  intros Hc He Hp Hk. unfold own_lookup. destruct k as [n|i]; [|by rewrite He].
  rewrite Hc, He. destruct (is_indexed _ && _); [done|]. by apply Hp.
Qed.

Lemma find_prop_frame K h h' k : frame K h h' -> outside K k ->
  forall f f' l x, (f <= f')%nat ->
    find_prop R f h l k = Some x -> find_prop R f' h' l k = Some x.
Proof.
  intros Hfr Hk. induction f as [|f IH]; intros f' l x Hle Hfind; [done|].
  destruct f' as [|f']; [lia|]. simpl in *.
  destruct (h !! l) as [o|] eqn:Hl; [|done].
  destruct (Hfr l o Hl) as (o' & Hl' & Hc & Hp & He & Hprops & _).
  rewrite Hl'. rewrite (own_lookup_frame o o' k K) by done.
  destruct (own_lookup o k); [done|].
  destruct (bool_decide (k = PName "__proto__") && (l =? r_object R)%nat); [done|].
  rewrite Hp. destruct (o_proto o); try done. apply (IH f'); [lia | done].
Qed.

Lemma frame_length K h h' : frame K h h' -> (length h <= length h')%nat.
Proof.
  intros Hfr. destruct h as [|o h] using rev_ind; [simpl; lia|].
  destruct (Hfr (length h) o) as (o' & Hl' & _).
  - by rewrite lookup_app_r, Nat.sub_diag by lia.
  - apply lookup_lt_Some in Hl'. rewrite length_app. simpl. lia.
Qed.

Lemma proto_of_frame K h h' v x :
  frame K h h' -> proto_of R h v = x -> x <> VNull -> proto_of R h' v = x.
Proof.
  intros Hfr Hx Hne. destruct v; try done. simpl in *.
  destruct (h !! l) as [o|] eqn:Hl; [|congruence].
  destruct (Hfr l o Hl) as (o' & -> & _ & -> & _). done.
Qed.

Lemma get_frame K s s' v k x :
  frame K (heap s) (heap s') -> outside K k ->
  get R v k s = (Ret x, s) -> x <> VUndef -> x <> VNull ->
  get R v k s' = (Ret x, s').
Proof.
  intros Hfr Hk Hget Hu Hn. unfold get in *.
  destruct (base_loc R v) as [l|]; [|done].
  destruct (match v with VStr str => own_of_string str k | _ => None end)
    as [y|]; [congruence|].
  destruct (lookup_chain R (heap s) l k) as [[y|]|] eqn:Hl.
  - unfold lookup_chain in *.
    erewrite (find_prop_frame K (heap s) (heap s') k Hfr Hk); [|..|exact Hl].
    + congruence.
    + apply le_n_S. by eapply frame_length.
  - unfold lookup_chain in *.
    erewrite (find_prop_frame K (heap s) (heap s') k Hfr Hk); [|..|exact Hl].
    + f_equal. f_equal. injection Hget as Hx. eapply proto_of_frame; [done..|].
      congruence.
    + apply le_n_S. by eapply frame_length.
  - congruence.
Qed.

Lemma hasOwn_frame K s s' v k :
  frame K (heap s) (heap s') ->
  hasOwn v k s = (Ret true, s) -> hasOwn v k s' = (Ret true, s').
Proof.
  intros Hfr. unfold hasOwn. destruct v; try congruence.
  destruct (heap s !! l) as [o|] eqn:Hl; [|congruence].
  destruct (Hfr l o Hl) as (o' & -> & Hc & _ & He & _ & Hs).
  intros [= Hb]. apply bool_decide_eq_true in Hb. f_equal. f_equal.
  apply bool_decide_eq_true. unfold own_lookup in *.
  rewrite Hc, He. destruct (is_indexed _ && _); [done | by apply Hs].
Qed.

End Frames.

(** ** One lazily patched method *)

(** The statement that patches one method slot; the three copies in the
    source (for [finalize], [encrypt] and [decrypt]) are its instances. *)
Definition patch_slot (R : realm) (arguments : list value) (key name : string)
  (mk : value -> code) : M unit :=
  when (pp <- proto2 R arguments ;;
        f <- get R pp (PName key) ;;
        b <- nativeMap_has f ;; ret (negb b))
    (temp <- (pp <- proto2 R arguments ;; get R pp (PName key)) ;;
     hook <- new_function R name (mk temp) ;;
     pp <- proto2 R arguments ;;
     w <- makeNative R hook temp ;;
     set_prop pp key w).

Section PatchSlot.

Variable R : realm.
Variables (args : list value) (key name : string) (mk : value -> code).
Hypothesis Hkey1 : key <> "length"%string.
Hypothesis Hkey2 : key <> "__proto__"%string.

(** The receiver's prototype is [p], whose prototype is the object at
    [pp], which has [f] as its own property [key]. *)
Definition slot_at (s : state) (p : value) (pp : loc) (opp : object) (f : value) : Prop :=
  proto1 R args s = (Ret p, s) /\ truthy p = true
  /\ get R p (PName "__proto__") s = (Ret (VRef pp), s)
  /\ heap s !! pp = Some opp
  /\ o_props opp !! key = Some f.

Lemma own_lookup_key o f : o_props o !! key = Some f -> own_lookup o (PName key) = Some f.
Proof using Hkey1.
  intros Hf. unfold own_lookup.
  rewrite (bool_decide_eq_false_2 (key = "length"%string)) by done.
  by rewrite andb_false_r.
Qed.

Lemma slot_at_get s p pp opp f :
  slot_at s p pp opp f ->
  proto2 R args s = (Ret (VRef pp), s)
  /\ get R (VRef pp) (PName key) s = (Ret f, s).
Proof using Hkey1 Hkey2.
  intros (Hp1 & Ht & Hp2 & Hpp & Hf). split.
  - unfold proto2, bind. by rewrite Hp1.
  - rewrite get_ref_name by done.
    erewrite lookup_chain_own; [done | exact Hpp |]. by apply own_lookup_key.
Qed.

Lemma truthy_defined v : truthy v = true -> v <> VUndef /\ v <> VNull.
Proof. by destruct v. Qed.

Lemma slot_at_frame K s s' p pp opp f :
  slot_at s p pp opp f ->
  frame K (heap s) (heap s') -> "__proto__"%string ∉ K ->
  exists opp', slot_at s' p pp opp' (default f (o_props opp' !! key))
               /\ (key ∉ K -> o_props opp' !! key = Some f)
               /\ is_Some (o_props opp' !! key).
Proof.
  intros (Hp1 & Ht & Hp2 & Hpp & Hf) Hfr HK.
  destruct (truthy_defined _ Ht) as [Hu Hn].
  destruct (Hfr pp opp Hpp) as (opp' & Hpp' & _ & _ & _ & Hprops & Hsome).
  destruct (Hsome key) as [f' Hf']; [by eexists|].
  exists opp'. split; [|split; [|by eexists]].
  - repeat split; try done.
    + unfold proto1 in *. by eapply (get_frame R K s s').
    + by eapply (get_frame R K s s').
    + by rewrite Hf'.
  - intros Hk. by rewrite Hprops.
Qed.

Lemma patch_slot_registered s p pp opp f :
  slot_at s p pp opp f ->
  nativeMap_has f s = (Ret true, s) ->
  patch_slot R args key name mk s = (Ret tt, s).
Proof using Hkey1 Hkey2.
  intros Hslot Hreg. destruct (slot_at_get _ _ _ _ _ Hslot) as [Hp2 Hgf].
  unfold patch_slot, when, bind, ret. mrew Hp2. mrew Hgf. mrew Hreg. done.
Qed.

Lemma patch_slot_fresh s p pp opp f :
  slot_at s p pp opp f ->
  nativeMap_has f s = (Ret false, s) ->
  exists s1,
    patch_slot R args key name mk s = (Ret tt, s1)
    /\ frame [key] (heap s) (heap s1)
    /\ heap s1 !! pp = Some (with_prop opp key (VRef (length (heap s))))
    /\ nativeMap s1 = <[length (heap s) := f]> (nativeMap s)
    /\ console s1 = console s
    /\ class_of (heap s1) (VRef (length (heap s))) = Some (CFunction (mk f))
    /\ length (heap s1) = S (length (heap s)).
Proof using Hkey1 Hkey2.
  intros Hslot Hreg. destruct (slot_at_get _ _ _ _ _ Hslot) as [Hp2 Hgf].
  set (fn0 := Obj (CFunction (mk f)) (VRef (r_function R))
                (<["name"%string := VStr (js name)]>
                   (<["length"%string := VNum 0]> ∅)) []).
  set (sa := State (heap s ++ [fn0]) (nativeMap s) (console s)).
  destruct (slot_at_frame [] s sa p pp opp f Hslot) as (opp' & Hslot_a & Hsame & _).
  { apply frame_app. }
  { names. }
  assert (Hppa : heap sa !! pp = Some opp).
  { simpl. apply lookup_app_l_Some. by destruct Hslot as (_ & _ & _ & ? & _). }
  assert (opp' = opp) as ->.
  { destruct Hslot_a as (_ & _ & _ & Hpp' & _). congruence. }
  destruct (slot_at_get _ _ _ _ _ Hslot_a) as [Hp2a _].
  assert (Hnew : heap sa !! length (heap s) = Some fn0).
  { simpl. by rewrite lookup_app_r, Nat.sub_diag by lia. }
  destruct (makeNative_run R (length (heap s)) fn0 f sa Hnew)
    as (fn' & Hrun & Hc & _).
  assert (Hne : pp <> length (heap s)).
  { destruct Hslot as (_ & _ & _ & Hpp & _). apply lookup_lt_Some in Hpp. lia. }
  eexists. split.
  - unfold patch_slot, when, bind, ret. mrew Hp2. mrew Hgf. mrew Hreg.
    change (negb false) with true. cbv beta iota zeta. mrew Hp2. mrew Hgf.
    unfold new_function, alloc. cbv beta iota zeta. fold fn0. fold sa.
    mrew Hp2a. mrew Hrun.
    rewrite (set_prop_obj _ pp opp)
      by (simpl; by rewrite list_lookup_insert_ne by done).
    simpl. reflexivity.
  - simpl. repeat split.
    + eapply frame_trans;
        [apply (frame_insert_new [key] (heap s) [fn0] (length (heap s)) fn'); lia|].
      apply frame_with_prop; [|constructor].
      by rewrite list_lookup_insert_ne by done.
    + apply list_lookup_insert_eq. rewrite length_insert, length_app.
      destruct Hslot as (_ & _ & _ & Hpp & _). apply lookup_lt_Some in Hpp. lia.
    + rewrite list_lookup_insert_ne by done.
      rewrite list_lookup_insert_eq by (rewrite length_app; simpl; lia).
      simpl. by rewrite Hc.
    + rewrite !length_insert, length_app. simpl. lia.
Qed.

End PatchSlot.

Definition registered (v : value) (s : state) : Prop :=
  nativeMap_has v s = (Ret true, s).

Lemma nativeMap_has_returns v s : exists b, nativeMap_has v s = (Ret b, s).
Proof. destruct v; simpl; eauto. Qed.

Lemma registered_insert v s s' l x :
  registered v s -> nativeMap s' = <[l := x]> (nativeMap s) -> registered v s'.
Proof.
  unfold registered, nativeMap_has. destruct v; try done.
  intros [= Hb] ->. apply bool_decide_eq_true in Hb. f_equal. f_equal.
  apply bool_decide_eq_true. destruct (decide (l = l0)) as [->|Hne].
  - rewrite lookup_insert_eq. eauto.
  - by rewrite lookup_insert_ne.
Qed.

Section PatchDone.

Variable R : realm.
Variables (args : list value) (key name : string) (mk : value -> code).
Hypothesis Hkey1 : key <> "length"%string.
Hypothesis Hkey2 : key <> "__proto__"%string.

(** After the statement has run, the slot holds a registered wrapper,
    whether it was patched now or earlier. *)
Lemma patch_slot_done s p pp opp f :
  slot_at R args key s p pp opp f ->
  exists s1 opp' w,
    patch_slot R args key name mk s = (Ret tt, s1)
    /\ frame [key] (heap s) (heap s1)
    /\ console s1 = console s
    /\ heap s1 !! pp = Some opp'
    /\ o_props opp' !! key = Some w
    /\ registered w s1
    /\ (forall v, registered v s -> registered v s1)
    /\ (registered f s -> s1 = s)
    /\ (~ registered f s ->
        w = VRef (length (heap s))
        /\ nativeMap s1 = <[length (heap s) := f]> (nativeMap s)
        /\ class_of (heap s1) w = Some (CFunction (mk f))).
Proof using Hkey1 Hkey2.
  intros Hslot. destruct (nativeMap_has_returns f s) as [[|] Hb].
  - exists s, opp, f.
    split; [by apply (patch_slot_registered R args key name mk Hkey1 Hkey2 s p pp opp f)|].
    split; [apply frame_refl|]. split; [done|].
    destruct Hslot as (_ & _ & _ & Hpp & Hf).
    split; [done|]. split; [done|]. split; [done|]. split; [done|].
    split; [done|]. intros Hn. by destruct Hn.
  - destruct (patch_slot_fresh R args key name mk Hkey1 Hkey2 s p pp opp f Hslot Hb)
      as (s1 & Hrun & Hfr & Hpp & Hmap & Hcon & Hcls & Hlen).
    exists s1, (with_prop opp key (VRef (length (heap s)))), (VRef (length (heap s))).
    split; [done|]. split; [done|]. split; [done|]. split; [done|].
    split; [simpl; apply lookup_insert_eq|].
    split; [unfold registered, nativeMap_has; by rewrite Hmap, lookup_insert_eq|].
    split; [intros v Hv; by eapply registered_insert|].
    split; [unfold registered; rewrite Hb; done|].
    done.
Qed.

End PatchDone.

(** ** The hash branch *)

Section HashBranch.

Variable R : realm.

Lemma finalize_patch_slot args :
  finalize_patch R args = patch_slot R args "finalize" "finalizeHook" CFinalizeHook.
Proof. reflexivity. Qed.

(** The receiver's prototype [p] has the two markers of its own, and
    its prototype, the object at [pp], has [f] as its own [finalize]. *)
Definition hash_match (args : list value) (s : state) (p : value) (pp : loc)
  (opp : object) (f : value) : Prop :=
  slot_at R args "finalize" s p pp opp f
  /\ hasOwn p "$super" s = (Ret true, s)
  /\ hasOwn p "_doFinalize" s = (Ret true, s).

Lemma hasOwn_slot s pp opp key f :
  key <> "length"%string ->
  heap s !! pp = Some opp -> o_props opp !! key = Some f ->
  hasOwn (VRef pp) key s = (Ret true, s).
Proof.
  intros Hk Hpp Hf. unfold hasOwn. rewrite Hpp.
  rewrite (own_lookup_key key Hk opp f Hf). done.
Qed.

Lemma hash_chain_true args s p pp opp f :
  hash_match args s p pp opp f -> hash_chain R args s = (Ret true, s).
Proof.
  intros (Hslot & Hsup & Hfin).
  destruct (slot_at_get R args "finalize" ltac:(done) ltac:(done) _ _ _ _ _ Hslot)
    as [Hp2 _].
  destruct Hslot as (Hp1 & Ht & _ & Hpp & Hf).
  pose proof (hasOwn_slot s pp opp "finalize" f ltac:(done) Hpp Hf) as Hown.
  unfold hash_chain, andM, bind, ret.
  mgo ltac:(try rewrite Hp1; try rewrite Ht; try rewrite Hsup;
            try rewrite Hfin; try rewrite Hp2; try rewrite Hown).
  done.
Qed.

Lemma hash_match_frame args s s' p pp opp f :
  hash_match args s p pp opp f ->
  frame ["finalize"%string] (heap s) (heap s') ->
  exists opp' f', hash_match args s' p pp opp' f'
                  /\ o_props opp' !! "finalize"%string = Some f'.
Proof.
  intros (Hslot & Hsup & Hfin) Hfr.
  destruct (slot_at_frame R args "finalize" ["finalize"%string] s s' p pp opp f Hslot Hfr)
    as (opp' & Hslot' & _ & Hsome); [names|].
  destruct Hsome as [f' Hf'].
  exists opp', f'. rewrite Hf' in Hslot'. simpl in Hslot'.
  split; [|done]. split; [done|].
  split; by eapply hasOwn_frame.
Qed.

(** What the [try] block of the hash branch does on a match. *)
Lemma hash_patch_done args s p pp opp f :
  hash_match args s p pp opp f ->
  exists s1 opp' w,
    hash_patch R args s = (Ret tt, s1)
    /\ frame ["finalize"%string] (heap s) (heap s1)
    /\ console s1 = console s
    /\ heap s1 !! pp = Some opp'
    /\ o_props opp' !! "finalize"%string = Some w
    /\ registered w s1
    /\ (registered f s -> s1 = s)
    /\ (~ registered f s ->
        w = VRef (length (heap s))
        /\ nativeMap s1 = <[length (heap s) := f]> (nativeMap s)
        /\ class_of (heap s1) w = Some (CFunction (CFinalizeHook f))).
Proof.
  intros Hm. pose proof (hash_chain_true _ _ _ _ _ _ Hm) as Hchain.
  destruct Hm as (Hslot & _ & _).
  destruct (patch_slot_done R args "finalize" "finalizeHook" CFinalizeHook
              ltac:(done) ltac:(done) s p pp opp f Hslot)
    as (s1 & opp' & w & Hrun & Hfr & Hcon & Hpp & Hw & Hreg & _ & Hsame & Hnew).
  exists s1, opp', w. split; [|done].
  unfold hash_patch, try_catch, when, bind. rewrite Hchain. cbv beta iota zeta.
  rewrite finalize_patch_slot, Hrun. done.
Qed.

End HashBranch.

(** ** The RSA branch *)

Section RsaBranch.

Variable R : realm.

Lemma encrypt_patch_slot args :
  encrypt_patch R args = patch_slot R args "encrypt" "encryptHook" CEncryptHook.
Proof. reflexivity. Qed.

Lemma decrypt_patch_slot args :
  decrypt_patch R args = patch_slot R args "decrypt" "decryptHook" CDecryptHook.
Proof. reflexivity. Qed.

Definition rsa_keys : list string := ["encrypt"; "decrypt"]%string.

(** The single argument's prototype is the object at [lp], which shows
    the nine key-handling names; its prototype, the object at [pp], has
    [fe] and [fd] as its own [encrypt] and [decrypt]. *)
Definition rsa_match (args : list value) (s : state) (lp pp : loc)
  (opp : object) (fe fd : value) : Prop :=
  length args = 1%nat
  /\ truthy (arg args 0) = true
  /\ slot_at R args "encrypt" s (VRef lp) pp opp fe
  /\ o_props opp !! "decrypt"%string = Some fd
  /\ is_Some (heap s !! lp)
  /\ typeof_object (heap s) (VRef lp) = true
  /\ hasRSAProp R (heap s) (VRef lp) = true
  /\ has_property R (heap s) (VRef lp) "__proto__" = true.

Lemma has_property_frame K h h' v k :
  frame K h h' -> k ∉ K ->
  has_property R h v k = true -> has_property R h' v k = true.
Proof.
  intros Hfr Hk. unfold has_property. destruct v; try done.
  intros Hb. apply bool_decide_eq_true in Hb. destruct Hb as [x Hx].
  apply bool_decide_eq_true. exists x. unfold lookup_chain in *.
  eapply (find_prop_frame R K h h'); [done | done | | exact Hx].
  apply le_n_S. by eapply frame_length.
Qed.

Lemma typeof_object_frame K h h' l :
  frame K h h' -> is_Some (h !! l) ->
  typeof_object h (VRef l) = true -> typeof_object h' (VRef l) = true.
Proof.
  intros Hfr [o Hl]. unfold typeof_object, is_callable, class_of.
  destruct (Hfr l o Hl) as (o' & Hl' & Hc & _). rewrite Hl, Hl'. simpl.
  by rewrite Hc.
Qed.

Lemma has_required_frame K props h h' l :
  frame K h h' -> is_Some (h !! l) -> Forall (fun k => k ∉ K) props ->
  has_required R props h (VRef l) = true ->
  has_required R props h' (VRef l) = true.
Proof.
  intros Hfr Hl Hprops. unfold has_required.
  change (truthy (VRef l)) with true. cbn [negb orb].
  destruct (typeof_object h (VRef l)) eqn:Ht; [|done].
  rewrite (typeof_object_frame K h h' l Hfr Hl Ht). cbn [negb].
  intros Hall. apply forallb_forall. intros k Hk.
  rewrite forallb_forall in Hall.
  eapply has_property_frame; [done| |by apply Hall].
  rewrite Forall_forall in Hprops. apply Hprops. by apply list_elem_of_In.
Qed.

Lemma rsa_shape_true args s lp pp opp fe fd :
  rsa_match args s lp pp opp fe fd -> rsa_shape R args s = (Ret true, s).
Proof.
  intros (Hlen & Ht & Hslot & _ & _ & Hty & Hrsa & _).
  destruct Hslot as (Hp1 & _ & _).
  unfold rsa_shape, andM, bind, ret, read.
  mgo ltac:(try rewrite Hlen; try rewrite Ht; try rewrite Hp1;
            try rewrite Hty; try rewrite Hrsa).
  done.
Qed.

Lemma rsa_chain_true args s lp pp opp fe fd :
  rsa_match args s lp pp opp fe fd -> rsa_chain R args s = (Ret true, s).
Proof.
  intros (_ & _ & Hslot & Hfd & _ & _ & _ & Hin).
  destruct (slot_at_get R args "encrypt" ltac:(done) ltac:(done) _ _ _ _ _ Hslot)
    as [Hp2 _].
  destruct Hslot as (Hp1 & _ & _ & Hpp & Hfe).
  pose proof (hasOwn_slot s pp opp "encrypt" fe ltac:(done) Hpp Hfe) as Hoe.
  pose proof (hasOwn_slot s pp opp "decrypt" fd ltac:(done) Hpp Hfd) as Hod.
  unfold rsa_chain, andM, bind, ret, read.
  mgo ltac:(try rewrite Hp1; try rewrite Hin; try rewrite Hp2;
            try rewrite Hoe; try rewrite Hod).
  done.
Qed.

Lemma frame_weaken K K' h h' : K ⊆ K' -> frame K h h' -> frame K' h h'.
Proof.
  intros Hsub Hfr l o Hl.
  destruct (Hfr l o Hl) as (o' & Hl' & Hc & Hp & He & Hk & Hs).
  exists o'. repeat split; try done. intros k Hk'. apply Hk.
  intros Hin. apply Hk'. by apply Hsub.
Qed.

(** What the call hook's analysis does on a match: both slots end up
    holding registered wrappers. *)
Lemma callHook_analysis_done args s lp pp opp fe fd :
  rsa_match args s lp pp opp fe fd ->
  exists s1 opp' we wd,
    callHook_analysis R args s = (Ret tt, s1)
    /\ frame rsa_keys (heap s) (heap s1)
    /\ console s1 = console s
    /\ heap s1 !! pp = Some opp'
    /\ o_props opp' !! "encrypt"%string = Some we
    /\ o_props opp' !! "decrypt"%string = Some wd
    /\ registered we s1 /\ registered wd s1
    /\ (registered fe s -> registered fd s -> s1 = s).
Proof.
  intros Hm.
  pose proof (rsa_shape_true _ _ _ _ _ _ _ Hm) as Hshape.
  pose proof (rsa_chain_true _ _ _ _ _ _ _ Hm) as Hchain.
  destruct Hm as (_ & _ & Hslot & Hfd & _).
  destruct (patch_slot_done R args "encrypt" "encryptHook" CEncryptHook
              ltac:(done) ltac:(done) s (VRef lp) pp opp fe Hslot)
    as (se & oppe & we & Hrune & Hfre & Hcone & Hppe & Hwe & Hrege & Hkeepe
        & Hsamee & _).
  assert (Hslotd : slot_at R args "decrypt" s (VRef lp) pp opp fd).
  { destruct Hslot as (? & ? & ? & ? & _). by repeat split. }
  destruct (slot_at_frame R args "decrypt" ["encrypt"%string] s se (VRef lp) pp opp fd
              Hslotd Hfre) as (oppe' & Hslotde & Hfde & _); [names|].
  assert (oppe' = oppe) as ->.
  { destruct Hslotde as (_ & _ & _ & Hpp' & _). congruence. }
  rewrite Hfde in Hslotde by names. simpl in Hslotde.
  destruct (patch_slot_done R args "decrypt" "decryptHook" CDecryptHook
              ltac:(done) ltac:(done) se (VRef lp) pp oppe fd Hslotde)
    as (sd & oppd & wd & Hrund & Hfrd & Hcond & Hppd & Hwd & Hregd & Hkeepd
        & Hsamed & _).
  exists sd, oppd, we, wd.
  split.
  { unfold callHook_analysis, bind. rewrite Hshape. cbv beta iota zeta.
    unfold rsa_patch, try_catch, when, bind. rewrite Hchain. cbv beta iota zeta.
    rewrite encrypt_patch_slot, Hrune. cbv beta iota zeta.
    rewrite decrypt_patch_slot, Hrund. done. }
  split.
  { eapply frame_trans; (eapply frame_weaken; [|eassumption]);
      names. }
  split; [congruence|]. split; [done|].
  split.
  { destruct (Hfrd pp oppe Hppe) as (o' & Hl' & _ & _ & _ & Hk & _).
    assert (o' = oppd) by congruence. subst. rewrite Hk by names. done. }
  split; [done|]. split; [by apply Hkeepd|]. split; [done|].
  intros Hre Hrd. assert (se = s) by auto. subst. auto.
Qed.

Lemma rsa_match_frame args s s' lp pp opp fe fd :
  rsa_match args s lp pp opp fe fd ->
  frame rsa_keys (heap s) (heap s') ->
  exists opp' fe' fd',
    rsa_match args s' lp pp opp' fe' fd'
    /\ heap s' !! pp = Some opp'.
Proof.
  intros (Hlen & Ht & Hslot & Hfd & Hlp & Hty & Hrsa & Hin) Hfr.
  destruct (slot_at_frame R args "encrypt" rsa_keys s s' (VRef lp) pp opp fe Hslot Hfr)
    as (opp' & Hslot' & _ & Hsome); [names|].
  destruct Hsome as [fe' Hfe']. rewrite Hfe' in Hslot'. simpl in Hslot'.
  assert (Hpp : heap s !! pp = Some opp) by (by destruct Hslot as (_ & _ & _ & ? & _)).
  assert (Hpp' : heap s' !! pp = Some opp') by (by destruct Hslot' as (_ & _ & _ & ? & _)).
  destruct (Hfr pp opp Hpp) as (o' & Hl' & _ & _ & _ & _ & Hs).
  assert (o' = opp') by congruence. subst.
  destruct (Hs "decrypt"%string) as [fd' Hfd']; [by eexists|].
  exists opp', fe', fd'. split; [|done].
  split; [done|]. split; [done|]. split; [done|]. split; [done|].
  split.
  { destruct Hlp as [o Hl]. destruct (Hfr lp o Hl) as (? & ? & _). by eexists. }
  split; [by eapply typeof_object_frame|].
  split.
  - unfold hasRSAProp in *. eapply has_required_frame; try done.
    repeat constructor; names.
  - eapply has_property_frame; try done. names.
Qed.

End RsaBranch.

(** ** Idempotence of the lazy patches *)


(** ** The hash branch of the apply hook *)

Lemma hash_shape_true a0 a1 s :
  truthy a0 = true -> truthy a1 = true ->
  typeof_object (heap s) a0 = true -> typeof_object (heap s) a1 = true ->
  hash_shape [a0; a1] s = (Ret true, s).
Proof.
  intros H0 H1 Ht0 Ht1. unfold hash_shape, andM, bind, ret, read, arg. simpl.
  by rewrite H0, H1, Ht0, Ht1.
Qed.

Lemma rsa_shape_two R a0 a1 s : rsa_shape R [a0; a1] s = (Ret false, s).
Proof. reflexivity. Qed.

(** Claim C9, as the code has it.  On the apply path, a call with two
    truthy arguments that are objects, that has neither the encryption
    nor the decryption shape, and whose receiver's prototype chain has
    the hash shape, prints nothing and leaves a registered wrapper in
    the [finalize] slot.  On the call path, the analysis of a call with
    two arguments does nothing at all. *)
Theorem applyHook_hash_patch (R : realm) (H : host) :
  (forall this a0 a1 s p pp opp f,
     truthy a0 = true -> truthy a1 = true ->
     typeof_object (heap s) a0 = true -> typeof_object (heap s) a1 = true ->
     symEncrypt_shape R [a0; a1] s = (Ret false, s) ->
     symDecrypt_shape R [a0; a1] s = (Ret false, s) ->
     hash_match R [a0; a1] s p pp opp f ->
     exists s1 opp' w,
       applyHook_analysis R H this [a0; a1] s = (Ret tt, s1)
       /\ console s1 = console s
       /\ heap s1 !! pp = Some opp'
       /\ o_props opp' !! "finalize"%string = Some w
       /\ registered w s1
       /\ (registered f s -> s1 = s)
       /\ (~ registered f s ->
           w = VRef (length (heap s))
           /\ nativeMap s1 = <[length (heap s) := f]> (nativeMap s)
           /\ class_of (heap s1) w = Some (CFunction (CFinalizeHook f))))
  /\ (forall a0 a1 s, callHook_analysis R [a0; a1] s = (Ret tt, s)).
Proof.
  split.
  - intros this a0 a1 s p pp opp f H0 H1 Ht0 Ht1 Henc Hdec Hm.
    destruct (hash_patch_done R [a0; a1] s p pp opp f Hm)
      as (s1 & opp' & w & Hrun & _ & Hcon & Hpp & Hw & Hreg & Hsame & Hnew).
    exists s1, opp', w. split; [|done].
    unfold applyHook_analysis, bind. rewrite Henc. cbv beta iota zeta.
    rewrite Hdec. cbv beta iota zeta.
    rewrite (hash_shape_true a0 a1 s) by done. cbv beta iota zeta. done.
  - intros a0 a1 s. unfold callHook_analysis, bind.
    by rewrite rsa_shape_two.
Qed.

(** ** What a computation sends to the console *)

(** [m] only appends entries to the console, all of them in [P]. *)
Definition logs {A} (P : list value -> Prop) (m : M A) : Prop :=
  forall s, exists ext, console (m s).2 = console s ++ ext /\ Forall P ext.

Definition silent {A} (m : M A) : Prop := logs (fun _ => False) m.

Lemma logs_weaken {A} (P Q : list value -> Prop) (m : M A) :
  (forall e, P e -> Q e) -> logs P m -> logs Q m.
Proof.
  intros HPQ Hm s. destruct (Hm s) as (ext & He & HP).
  exists ext. split; [done|]. eapply Forall_impl; eauto.
Qed.

Lemma silent_logs {A} P (m : M A) : silent m -> logs P m.
Proof. apply logs_weaken. done. Qed.

Lemma silent_console {A} (m : M A) s : silent m -> console (m s).2 = console s.
Proof.
  intros Hm. destruct (Hm s) as (ext & He & HP).
  destruct ext as [|e ext]; [by rewrite app_nil_r in He|].
  by inversion HP.
Qed.

Lemma silent_same {A} (m : M A) : (forall s, console (m s).2 = console s) -> silent m.
Proof. intros Hm s. exists []. by rewrite app_nil_r. Qed.

Lemma logs_bind {A B} P (m : M A) (k : A -> M B) :
  logs P m -> (forall a, logs P (k a)) -> logs P (bind m k).
Proof.
  intros Hm Hk s. unfold bind. destruct (Hm s) as (e1 & He1 & HP1).
  destruct (m s) as [[a|e|] s1]; simpl in *; [|eauto|eauto].
  destruct (Hk a s1) as (e2 & He2 & HP2).
  exists (e1 ++ e2). rewrite He2, He1, app_assoc. split; [done|].
  by apply Forall_app.
Qed.

Lemma logs_try_catch {A} P (m h : M A) :
  logs P m -> logs P h -> logs P (try_catch m h).
Proof.
  intros Hm Hh s. unfold try_catch. destruct (Hm s) as (e1 & He1 & HP1).
  destruct (m s) as [[a|e|] s1]; simpl in *; [eauto| |eauto].
  destruct (Hh s1) as (e2 & He2 & HP2).
  exists (e1 ++ e2). rewrite He2, He1, app_assoc. split; [done|].
  by apply Forall_app.
Qed.

Lemma logs_ret {A} P (a : A) : logs P (ret a).
Proof. apply silent_logs, silent_same. done. Qed.

Lemma logs_throw {A} P e : logs P (@throw A e).
Proof. apply silent_logs, silent_same. done. Qed.

Lemma logs_out_of_model {A} P : logs P (@out_of_model A).
Proof. apply silent_logs, silent_same. done. Qed.

Lemma logs_if {A} P (b : bool) (m1 m2 : M A) :
  logs P m1 -> logs P m2 -> logs P (if b then m1 else m2).
Proof. by destruct b. Qed.

Lemma logs_andM P a b : logs P a -> logs P b -> logs P (a &&& b).
Proof.
  intros Ha Hb. apply logs_bind; [done|]. intros x. apply logs_if; [done|apply logs_ret].
Qed.

Lemma logs_when P c m : logs P c -> logs P m -> logs P (when c m).
Proof.
  intros Hc Hm. apply logs_bind; [done|]. intros x. apply logs_if; [done|apply logs_ret].
Qed.

Lemma logs_read {A} P (f : list object -> A) : logs P (read f).
Proof. apply silent_logs, silent_same. done. Qed.

Lemma logs_get P R v k : logs P (get R v k).
Proof. apply silent_logs, silent_same. intros s. by rewrite get_state. Qed.

Lemma logs_hasOwn P v k : logs P (hasOwn v k).
Proof.
  apply silent_logs, silent_same. intros s. unfold hasOwn.
  by repeat case_match.
Qed.

Lemma logs_nativeMap_has P v : logs P (nativeMap_has v).
Proof. apply silent_logs, silent_same. intros s. by destruct v. Qed.

Lemma logs_nativeMap_get P v : logs P (nativeMap_get v).
Proof. apply silent_logs, silent_same. intros s. by destruct v. Qed.

Lemma logs_nativeMap_set P k v : logs P (nativeMap_set k v).
Proof. apply silent_logs, silent_same. intros s. by destruct k. Qed.

Lemma logs_alloc P o : logs P (alloc o).
Proof. apply silent_logs, silent_same. done. Qed.

Lemma logs_set_prop P v k x : logs P (set_prop v k x).
Proof.
  apply silent_logs, silent_same. intros s. unfold set_prop.
  by repeat case_match.
Qed.

Lemma logs_lift_host P f : logs P (lift_host f).
Proof.
  apply silent_logs, silent_same. intros s. unfold lift_host.
  by destruct (f (heap s)).
Qed.

Lemma logs_console_log (P : list value -> Prop) args : P args -> logs P (console_log args).
Proof. intros HP s. exists [args]. split; [done | by constructor]. Qed.

Create HintDb logs.
#[local] Hint Resolve logs_ret logs_throw logs_out_of_model logs_read logs_get
  logs_hasOwn logs_nativeMap_has logs_nativeMap_get logs_nativeMap_set
  logs_alloc logs_set_prop logs_lift_host : logs.
#[local] Hint Extern 2 (logs _ (bind _ _)) => apply logs_bind; [|intros ?] : logs.
#[local] Hint Extern 2 (logs _ (try_catch _ _)) => apply logs_try_catch : logs.
#[local] Hint Extern 2 (logs _ (when _ _)) => apply logs_when : logs.
#[local] Hint Extern 2 (logs _ (_ &&& _)) => apply logs_andM : logs.
#[local] Hint Extern 2 (logs _ (if _ then _ else _)) => apply logs_if : logs.
#[local] Hint Extern 3 (logs _ (match ?x with _ => _ end)) => destruct x : logs.

Section Logs.

Variable R : realm.
Variable H : host.
Variable P : list value -> Prop.

Lemma logs_makeNative w o : logs P (makeNative R w o).
Proof. unfold makeNative. auto 20 with logs. Qed.

Lemma logs_new_function name c : logs P (new_function R name c).
Proof. apply logs_alloc. Qed.

Hint Resolve logs_makeNative logs_new_function : logs.

Lemma logs_callHook_analysis args : logs P (callHook_analysis R args).
Proof.
  unfold callHook_analysis, rsa_shape, rsa_patch, rsa_chain, encrypt_patch,
    decrypt_patch, proto2, proto1.
  auto 40 with logs.
Qed.

Lemma logs_hash_patch args : logs P (hash_patch R args).
Proof.
  unfold hash_patch, hash_chain, finalize_patch, proto2, proto1.
  auto 40 with logs.
Qed.

Lemma logs_native_toString v : logs P (native_toString v).
Proof.
  apply silent_logs, silent_same. intros s. unfold native_toString.
  by repeat case_match.
Qed.

Hint Resolve logs_callHook_analysis logs_hash_patch logs_native_toString : logs.

Lemma logs_toString_hook this : logs P (toString_hook R this).
Proof. unfold toString_hook, _toString_call. auto 20 with logs. Qed.

Hint Resolve logs_toString_hook : logs.

Lemma logs_call_fn f this args : logs P (call_fn R H f this args).
Proof.
  intros s. unfold call_fn.
  destruct (class_of (heap s) f) as [[| | |c]|]; try (by apply (logs_ret P tt s)).
  destruct c; try (by apply (logs_ret P tt s)).
  - apply logs_lift_host.
  - apply logs_native_toString.
  - apply logs_toString_hook.
Qed.

Hint Resolve logs_call_fn : logs.

Lemma logs_call_method v k args : logs P (call_method R H v k args).
Proof. unfold call_method. auto with logs. Qed.

Lemma logs_callHook this args : logs P (callHook R H this args).
Proof. unfold callHook, native_call. auto with logs. Qed.

Hint Resolve logs_call_method logs_callHook : logs.

Lemma logs_dot_call f args : logs P (dot_call R H f args).
Proof. unfold dot_call. auto 20 with logs. Qed.

Lemma logs_wordsToHex_loop n : forall i words acc,
  logs P (wordsToHex_loop R n i words acc).
Proof.
  induction n as [|n IH]; intros i words acc; simpl; [apply logs_ret|].
  apply logs_bind; [apply logs_get|]. intros w.
  destruct (to_integer w); [apply IH | apply logs_out_of_model].
Qed.

Hint Resolve logs_dot_call logs_wordsToHex_loop : logs.

Lemma logs_wordsToHex words sigBytes : logs P (wordsToHex R words sigBytes).
Proof. unfold wordsToHex. auto 20 with logs. Qed.

Lemma logs_hexToBase64 hex : logs P (hexToBase64 hex).
Proof. unfold hexToBase64. auto 20 with logs. Qed.

Lemma logs_rawString hexKey : logs P (rawString R hexKey).
Proof. unfold rawString, decode_hex. auto 20 with logs. Qed.

Hint Resolve logs_wordsToHex logs_hexToBase64 logs_rawString : logs.

Lemma logs_hexStage keyObj : logs P (hexStage R H keyObj).
Proof. unfold hexStage. auto 30 with logs. Qed.

Hint Resolve logs_hexStage : logs.

Lemma logs_formatKey keyObj : logs P (formatKey R H keyObj).
Proof. unfold formatKey. auto 20 with logs. Qed.

Lemma logs_indexOf_found v t : logs P (indexOf_found R v t).
Proof. unfold indexOf_found. auto 20 with logs. Qed.

Hint Resolve logs_formatKey logs_indexOf_found : logs.

Lemma logs_shapes args :
  logs P (symEncrypt_shape R args) /\ logs P (symDecrypt_shape R args)
  /\ logs P (hash_shape args) /\ logs P (delegation_marks args).
Proof.
  unfold symEncrypt_shape, symDecrypt_shape, hash_shape, delegation_marks, arg1.
  repeat split; auto 30 with logs.
Qed.

End Logs.

(** ** Classification as symmetric decryption *)

(** The entries that a run from [s] to [s1] added to the console. *)
Definition new_log (s s1 : state) : list (list value) :=
  drop (length (console s)) (console s1).

(** The apply hook classifies a call as symmetric decryption when its
    analysis prints the decryption banner. *)
Definition classified_decrypt (R : realm) (H : host) (this : value)
  (arguments : list value) (s : state) : Prop :=
  [decrypt_banner] ∈ new_log s (applyHook_analysis R H this arguments s).2.

(** The conditions under which the code does so: the key buffer is the
    second value of the container, and the caller's source text is only
    searched for the text [function()]. *)
Definition decrypt_conditions (R : realm) (s : state) (src : jstring)
  (arguments : list value) : Prop :=
  let a0 := arg arguments 0 in
  let a1 := arg arguments 1 in
  length arguments = 2%nat
  /\ truthy a0 = true /\ truthy a1 = true
  /\ typeof_object (heap s) a1 = true
  /\ get R a1 (PName "length") s = (Ret (VNum 3), s)
  /\ (exists second, get R a1 (PIdx 1) s = (Ret second, s)
                     /\ hasDecryptProp R (heap s) second = true)
  /\ hasOwn a0 "$super" s = (Ret true, s)
  /\ hasOwn a1 "callee" s = (Ret true, s)
  /\ contains (js "function()") src = false
  /\ get R a1 (PIdx 0) s = (Ret (VNum 2), s).

(** The test on the caller's source text in the encrypt branch, on a
    string. *)
Definition encrypt_source_shape (src : jstring) : bool :=
  contains (js "function()") src
  || named_function_shape src || anonymous_function_shape src.

(** The conditions as the specification words them: the buffer shape is
    looked for in the third value, and the caller's source text must
    not have the shape that the encrypt branch accepts. *)
Definition claimed_decrypt_conditions (R : realm) (s : state) (src : jstring)
  (arguments : list value) : Prop :=
  let a0 := arg arguments 0 in
  let a1 := arg arguments 1 in
  get R a1 (PName "length") s = (Ret (VNum 3), s)
  /\ get R a1 (PIdx 0) s = (Ret (VNum 2), s)
  /\ (exists third, get R a1 (PIdx 2) s = (Ret third, s)
                    /\ hasDecryptProp R (heap s) third = true)
  /\ hasOwn a0 "$super" s = (Ret true, s)
  /\ class_of (heap s) a1 = Some CArguments
  /\ encrypt_source_shape src = false.

Lemma new_log_app s s1 ext : console s1 = console s ++ ext -> new_log s s1 = ext.
Proof. intros He. unfold new_log. by rewrite He, drop_app_length. Qed.

Lemma hasOwn_truthy v k s :
  truthy v = true -> exists b, hasOwn v k s = (Ret b, s).
Proof. intros Hv. unfold hasOwn. destruct v; try done; repeat case_match; eauto. Qed.

Section Classification.

Variable R : realm.
Variable H : host.

Definition not_decrypt_banner (e : list value) : Prop := e <> [decrypt_banner].

Lemma banners_differ : [encrypt_banner] <> [decrypt_banner].
Proof. intros Heq. by vm_compute in Heq. Qed.

Lemma logs_log_key what d : logs not_decrypt_banner (log_key what d).
Proof.
  unfold log_key. repeat (apply logs_bind; [|intros ?]);
    by apply logs_console_log.
Qed.

Local Hint Resolve logs_makeNative logs_new_function logs_callHook_analysis
  logs_hash_patch logs_native_toString logs_toString_hook logs_call_fn
  logs_call_method logs_callHook logs_dot_call logs_wordsToHex
  logs_hexToBase64 logs_rawString logs_hexStage logs_formatKey
  logs_indexOf_found logs_log_key : logs.
Local Hint Extern 1 (logs not_decrypt_banner (console_log _)) =>
  apply logs_console_log; first [exact banners_differ | done] : logs.

Lemma logs_symEncrypt_report args :
  logs not_decrypt_banner (symEncrypt_report R H args).
Proof. unfold symEncrypt_report, arg1. auto 60 with logs. Qed.

Ltac logs_any :=
  repeat first
    [ apply logs_formatKey
    | apply logs_get
    | apply logs_hasOwn
    | apply logs_ret
    | apply logs_console_log; exact I
    | apply logs_when
    | apply logs_andM
    | apply logs_bind; [|intros ?] ].

Lemma symDecrypt_report_banner args s :
  [decrypt_banner] ∈ new_log s (symDecrypt_report R H args s).2.
Proof.
  unfold symDecrypt_report. unfold bind at 1. unfold console_log at 1.
  cbv beta iota zeta.
  match goal with
  | |- _ ∈ new_log _ (?m ?sb).2 =>
      assert (Hl : logs (fun _ => True) m) by (unfold log_key, arg1; logs_any);
      destruct (Hl sb) as (ext & He & _)
  end.
  cbn [console] in He. rewrite <- app_assoc in He.
  rewrite (new_log_app _ _ _ He). simpl. apply list_elem_of_here.
Qed.

Lemma strict_eq_true a b : strict_eq a b = true <-> a = b.
Proof. unfold strict_eq. by rewrite bool_decide_eq_true. Qed.

Lemma symEncrypt_shape_spec args s :
  exists b, symEncrypt_shape R args s = (Ret b, s)
    /\ (b = true -> get R (arg args 1) (PName "length") s = (Ret (VNum 1), s)).
Proof.
  unfold symEncrypt_shape, andM, bind, ret, read, arg1.
  destruct (length args =? 2)%nat; [|by eexists].
  destruct (truthy (arg args 0)); [|by eexists].
  destruct (truthy (arg args 1)) eqn:H1; [|by eexists].
  destruct (typeof_object (heap s) (arg args 1)); [|by eexists].
  destruct (get_truthy R (arg args 1) (PName "length") s H1) as [len Hlen].
  destruct (get_truthy R (arg args 1) (PIdx 0) s H1) as [x Hx].
  mgo ltac:(try rewrite Hlen).
  destruct (strict_eq len (VNum 1)) eqn:Heq; [|by eexists].
  apply strict_eq_true in Heq. subst len.
  mgo ltac:(try rewrite Hx). by eexists.
Qed.

Lemma symDecrypt_shape_spec args s :
  exists b, symDecrypt_shape R args s = (Ret b, s)
    /\ (b = true <->
        length args = 2%nat
        /\ truthy (arg args 0) = true /\ truthy (arg args 1) = true
        /\ typeof_object (heap s) (arg args 1) = true
        /\ get R (arg args 1) (PName "length") s = (Ret (VNum 3), s)
        /\ exists second, get R (arg args 1) (PIdx 1) s = (Ret second, s)
                          /\ hasDecryptProp R (heap s) second = true).
Proof.
  unfold symDecrypt_shape, andM, bind, ret, read, arg1.
  destruct (length args =? 2)%nat eqn:Hlen2.
  2:{ eexists. split; [done|]. apply Nat.eqb_neq in Hlen2.
      split; [done|]. by intros (? & _). }
  apply Nat.eqb_eq in Hlen2.
  destruct (truthy (arg args 0)) eqn:H0.
  2:{ eexists. split; [done|]. split; [done|]. by intros (_ & ? & _). }
  destruct (truthy (arg args 1)) eqn:H1.
  2:{ eexists. split; [done|]. split; [done|]. by intros (_ & _ & ? & _). }
  destruct (typeof_object (heap s) (arg args 1)) eqn:Ht.
  2:{ eexists. split; [done|]. split; [done|]. by intros (_ & _ & _ & ? & _). }
  destruct (get_truthy R (arg args 1) (PName "length") s H1) as [len Hlen].
  destruct (get_truthy R (arg args 1) (PIdx 1) s H1) as [x Hx].
  rewrite Hlen. cbv beta iota zeta.
  destruct (strict_eq len (VNum 3)) eqn:Heq.
  2:{ eexists. split; [done|]. split; [done|].
      intros (_ & _ & _ & _ & Hl & _).
      injection Hl as ->. by vm_compute in Heq. }
  apply strict_eq_true in Heq. subst len.
  rewrite Hx. cbv beta iota zeta.
  eexists. split; [done|].
  split.
  - intros Hd. repeat split; try done. exists x. done.
  - intros (_ & _ & _ & _ & _ & second & Hs & Hd). congruence.
Qed.

(** The apply hook prints the decryption banner exactly under
    [decrypt_conditions]. *)
Lemma classified_decrypt_iff this args s src :
  call_method R H this "toString" [] s = (Ret (VStr src), s) ->
  classified_decrypt R H this args s <-> decrypt_conditions R s src args.
Proof.
  intros Hsrc. unfold classified_decrypt, decrypt_conditions.
  destruct (symEncrypt_shape_spec args s) as (enc & Henc & Henc1).
  destruct (symDecrypt_shape_spec args s) as (dec & Hdec & Hdec1).
  unfold applyHook_analysis. unfold bind at 1. rewrite Henc. cbv beta iota zeta.
  destruct enc.
  { (* the encrypt branch is taken: nothing it prints is the banner *)
    split.
    - intros Hin. exfalso.
      match type of Hin with
      | _ ∈ new_log _ (?m _).2 =>
          assert (Hl : logs not_decrypt_banner m)
      end.
      { destruct (logs_shapes R not_decrypt_banner args) as (_ & _ & _ & Hmarks).
        apply logs_when; [done|].
        apply logs_bind; [apply logs_call_method|]. intros callerStr.
        apply logs_when; [|apply logs_symEncrypt_report].
        unfold encrypt_caller_shape. auto with logs. }
      destruct (Hl s) as (ext & He & HP).
      rewrite (new_log_app _ _ _ He) in Hin.
      rewrite Forall_forall in HP. by apply (HP _ Hin).
    - intros (_ & _ & _ & _ & Hl3 & _). rewrite Henc1 in Hl3 by done. done. }
  unfold bind at 1. rewrite Hdec. cbv beta iota zeta.
  destruct dec.
  2:{ (* neither symmetric shape: the hash branch prints nothing *)
      split.
      - intros Hin. exfalso.
        match type of Hin with
        | _ ∈ new_log _ (?m _).2 =>
            assert (Hl : silent m)
        end.
        { destruct (logs_shapes R (fun _ => False) args) as (_ & _ & Hhash & _).
          apply logs_bind; [done|]. intros b.
          destruct b; [apply logs_hash_patch | apply logs_ret]. }
        unfold new_log in Hin. rewrite (silent_console _ s Hl) in Hin.
        rewrite drop_all in Hin. by apply not_elem_of_nil in Hin.
      - intros Hc. exfalso.
        assert (false = true); [|done]. apply Hdec1.
        destruct Hc as (? & ? & ? & ? & ? & ? & _). done. }
  destruct (proj1 Hdec1 eq_refl) as (Hlen & H0 & H1 & Ht & Hl3 & second & Hsec & Hdp).
  destruct (hasOwn_truthy (arg args 0) "$super" s H0) as [b0 Hb0].
  destruct (hasOwn_truthy (arg args 1) "callee" s H1) as [b1 Hb1].
  destruct (get_truthy R (arg args 1) (PIdx 0) s H1) as [first Hfirst].
  unfold when, delegation_marks, andM, indexOf_found, arg1, bind, ret.
  mgo ltac:(try rewrite Hb0).
  destruct b0.
  2:{ split.
      - unfold new_log. rewrite drop_all. by intros ?%not_elem_of_nil.
      - intros (_ & _ & _ & _ & _ & _ & Hs & _). congruence. }
  mgo ltac:(try rewrite Hb1).
  destruct b1.
  2:{ split.
      - unfold new_log. rewrite drop_all. by intros ?%not_elem_of_nil.
      - intros (_ & _ & _ & _ & _ & _ & _ & Hc & _). congruence. }
  mgo ltac:(try rewrite Hsrc).
  destruct (contains (js "function()") src) eqn:Hfound.
  { mgo idtac. split.
    - unfold new_log. rewrite drop_all. by intros ?%not_elem_of_nil.
    - intros (_ & _ & _ & _ & _ & _ & _ & _ & Hc & _). congruence. }
  mgo ltac:(try rewrite Hfirst).
  destruct (strict_eq first (VNum 2)) eqn:Hfirst2.
  - apply strict_eq_true in Hfirst2. subst first. split.
    + intros _. repeat split; try done. by exists second.
    + intros _. apply symDecrypt_report_banner.
  - split.
    + unfold new_log. rewrite drop_all. by intros ?%not_elem_of_nil.
    + intros (_ & _ & _ & _ & _ & _ & _ & _ & _ & Hf). try rewrite Hfirst in Hf.
      injection Hf as ->. by vm_compute in Hfirst2.
Qed.

End Classification.

(** ** The claims on concrete sessions *)

Import Demo.

(** Closed goals are settled by evaluation, conjunct by conjunct. *)
Ltac conjuncts := repeat match goal with |- _ /\ _ => split end.
Ltac evaluate1 := lazymatch goal with |- _ = _ => vm_compute; reflexivity end.
Ltac evaluate := conjuncts; evaluate1.

Definition arrow_source : jstring := js "(a, b, c) => 0".

Lemma decrypt_claim_counterexample :
  call_method R0 quiet_host (VRef 17) "toString" [] third_slot_session
    = (Ret (VStr arrow_source), third_slot_session)
  /\ claimed_decrypt_conditions R0 third_slot_session arrow_source [VRef 15; VRef 16]
  /\ ~ classified_decrypt R0 quiet_host (VRef 17) [VRef 15; VRef 16] third_slot_session.
Proof.
  split; [vm_compute; reflexivity|]. split.
  - unfold claimed_decrypt_conditions. conjuncts; try evaluate1.
    exists (VRef 13). evaluate.
  - unfold classified_decrypt.
    assert (Hlog : new_log third_slot_session
              (applyHook_analysis R0 quiet_host (VRef 17) [VRef 15; VRef 16]
                 third_slot_session).2 = []) by (vm_compute; reflexivity).
    rewrite Hlog. apply not_elem_of_nil.
Qed.

Definition init_source : jstring :=
  js "function (xformMode, key, cfg) { this.cfg = cfg; }".

(** Claim C2, as the code has it.  When the caller's source text is
    [src], the apply hook classifies a call as symmetric decryption
    exactly when: there are two arguments, both truthy; the second is
    an object with [length] 3 that owns [callee]; its value at index 1
    (the second positional value) shows [sigBytes] and [words]; the
    first argument owns [$super]; [src] does not contain the text
    [function()]; and the value at index 0 is the number 2. *)
Theorem symDecrypt_classification (R : realm) (H : host) (this : value)
  (arguments : list value) (s : state) (src : jstring) :
  call_method R H this "toString" [] s = (Ret (VStr src), s) ->
  classified_decrypt R H this arguments s <-> decrypt_conditions R s src arguments.
Proof. apply classified_decrypt_iff. Qed.

Lemma symDecrypt_classification_witness :
  classified_decrypt R0 quiet_host (VRef 20) [VRef 18; VRef 19] decrypt_session
  <-> decrypt_conditions R0 decrypt_session init_source [VRef 18; VRef 19].
Proof.
  apply (symDecrypt_classification R0 quiet_host (VRef 20) [VRef 18; VRef 19]
           decrypt_session init_source).
  vm_compute. reflexivity.
Defined.

Example decrypt_session_classified :
  decrypt_conditions R0 decrypt_session init_source [VRef 18; VRef 19].
Proof.
  unfold decrypt_conditions. conjuncts; try evaluate1.
  exists (VRef 13). evaluate.
Qed.

(** Claim C1 (no failure of the analysis reaches the caller), evaluated
    on two decryption calls [init.apply(cipher, arguments)] whose
    arguments are [(2, key, cfg)].  In the first session [cfg] owns
    [iv]; in the second it owns a [mode] object without [Encryptor].
    With any host, the apply hook ends in a [TypeError]: the analysis
    reads [arguments[1][2][2][2]] in the first, and
    [mode.Encryptor.processBlock] in the second, outside any [try]
    block.  The call-through alone, which is what the unwrapped
    primitive does, returns normally when the applied function does. *)
Theorem applyHook_throws :
  forall H : host,
    (applyHook R0 H (VRef 20) [VRef 18; VRef 19] decrypt_session).1 = Throw TypeError
    /\ (applyHook R0 H (VRef 20) [VRef 18; VRef 19] decrypt_session_mode).1
       = Throw TypeError
    /\ (temp_apply_call R0 quiet_host (VRef 20) [VRef 18; VRef 19] decrypt_session).1
       = Ret VUndef
    /\ (temp_apply_call R0 quiet_host (VRef 20) [VRef 18; VRef 19]
          decrypt_session_mode).1 = Ret VUndef.
Proof. intros H. evaluate. Qed.

Definition key_length_label : value := VStr (js "[debug] 密钥长度:").

Definition caller_source : jstring :=
  js "function () { return init.apply(this, arguments); }".

(** Claim C6.  [get_sigBytes] maps 8, 16, 24 and 32 to the labels for
    64, 128, 192 and 256 bits, and every other value to the label for
    an unknown length.  In the encryption session, whose key has 16
    significant bytes, the analysis prints the encryption banner once
    and reports the key length as 128bits. *)
Theorem get_sigBytes_classification :
  get_sigBytes (VNum 8) = VStr (js "64bits")
  /\ get_sigBytes (VNum 16) = VStr (js "128bits")
  /\ get_sigBytes (VNum 24) = VStr (js "192bits")
  /\ get_sigBytes (VNum 32) = VStr (js "256bits")
  /\ (forall size,
        size <> VNum 8 -> size <> VNum 16 -> size <> VNum 24 -> size <> VNum 32 ->
        get_sigBytes size = VStr (js "未知"))
  /\ (forall H : host,
        let run := applyHook_analysis R0 H (VRef 25) [VRef 23; VRef 24] encrypt_session in
        run.1 = Ret tt
        /\ filter (fun e => head e = Some encrypt_banner) (new_log encrypt_session run.2)
           = [[encrypt_banner]]
        /\ filter (fun e => head e = Some key_length_label) (new_log encrypt_session run.2)
           = [[key_length_label; VStr (js "128bits")]]).
Proof.
  split; [vm_compute; reflexivity|]. split; [vm_compute; reflexivity|].
  split; [vm_compute; reflexivity|]. split; [vm_compute; reflexivity|]. split.
  - intros size H8 H16 H24 H32. unfold get_sigBytes, strict_eq.
    rewrite !bool_decide_eq_false_2 by done. done.
  - intros H. cbv zeta. evaluate.
Qed.

Lemma get_sigBytes_classification_witness :
  get_sigBytes (VNum 20) = VStr (js "未知")
  /\ get_sigBytes (VStr (js "16")) = VStr (js "未知").
Proof.
  split; apply (proj1 (proj2 (proj2 (proj2 (proj2 get_sigBytes_classification)))));
    discriminate.
Defined.

(** A key given by its words: the letter A followed by a byte that
    starts no UTF-8 sequence. *)
Definition raw_key_session : state :=
  with_heap pristine
    [ array [VNum 1107230720];
      plain [("sigBytes"%string, VNum 2); ("words"%string, VRef 9)] ].

Lemma formatKey_rawString_witness :
  k_string (KeyData (VStr (js "41ff")) (VStr (js "41ff")) (js "Qf8="))
  = raw_view (VStr (js "41ff")).
Proof.
  apply (proj1 (proj2 (proj2
           (formatKey_rawString R0 quiet_host (VRef 10) raw_key_session)))
           (KeyData (VStr (js "41ff")) (VStr (js "41ff")) (js "Qf8="))
           raw_key_session).
  vm_compute. reflexivity.
Defined.

Example rawString_text :
  (rawString R0 (VStr (js "e4b8ad41")) pristine).1 = Ret (VStr [20013; 65]).
Proof. vm_compute. reflexivity. Qed.

Definition wrapper_session : state :=
  (new_function R0 "applyHook" CApplyHook pristine).2.

Definition apply_source : jstring := js "function apply() { [native code] }".

Lemma makeNative_conceals_witness :
  exists s',
    makeNative R0 (VRef 9) (VRef 7) wrapper_session = (Ret (VRef 9), s')
    /\ nativeMap s' !! 9%nat = Some (VRef 7)
    /\ (toString_hook R0 (VRef 9) s').1 = Ret (VStr apply_source)
    /\ (get R0 (VRef 9) (PName "name") s').1 = (get R0 (VRef 7) (PName "name") s').1
    /\ (get R0 (VRef 9) (PName "length") s').1 = (get R0 (VRef 7) (PName "length") s').1
    /\ (get R0 (VRef 7) (PName "name") s').1
       = (get R0 (VRef 7) (PName "name") wrapper_session).1
    /\ (get R0 (VRef 7) (PName "length") s').1
       = (get R0 (VRef 7) (PName "length") wrapper_session).1.
Proof.
  apply (makeNative_conceals R0 9%nat 7%nat
           (Obj (CFunction CApplyHook) (VRef 1)
              (<["name"%string := VStr (js "applyHook")]>
                 (<["length"%string := VNum 0]> ∅)) [])
           apply_source wrapper_session).
  - vm_compute. reflexivity.
  - vm_compute. reflexivity.
  - vm_compute. reflexivity.
Defined.

Example installed_wrappers_concealed :
  (toString_hook R0 (VRef 10) installed).1 = Ret (VStr apply_source)
  /\ (get R0 (VRef 10) (PName "name") installed).1 = Ret (VStr (js "apply"))
  /\ (get R0 (VRef 10) (PName "length") installed).1 = Ret (VNum 2)
  /\ (toString_hook R0 (VRef 11) installed).1
     = Ret (VStr (js "function call() { [native code] }"))
  /\ (toString_hook R0 (VRef 9) installed).1
     = Ret (VStr (js "function toString() { [native code] }")).
Proof. evaluate. Qed.

(** *** Patching in the hasher session *)

Definition base_hasher : object := plain [("finalize"%string, VRef 12)].


(** Each original function has at most one wrapper in the registry. *)
Definition one_record_per_original (s : state) : Prop :=
  forall w1 w2 f, nativeMap s !! w1 = Some f -> nativeMap s !! w2 = Some f -> w1 = w2.

(** The hasher session after [init.apply(hasher, arguments)] for an
    instance of the first algorithm, and then for an instance of the
    second. *)
Definition hashed_once : state :=
  (applyHook R0 quiet_host (VRef 18) [VRef 16; VRef 17] hasher_session).2.

Definition hashed_twice : state :=
  (applyHook R0 quiet_host (VRef 18) [VRef 21; VRef 17] hashed_once).2.


Lemma applyHook_hash_patch_witness :
  exists s1 opp' w,
    applyHook_analysis R0 quiet_host (VRef 18) [VRef 16; VRef 17] hasher_session
      = (Ret tt, s1)
    /\ console s1 = console hasher_session
    /\ heap s1 !! 14%nat = Some opp'
    /\ o_props opp' !! "finalize"%string = Some w
    /\ registered w s1
    /\ (registered (VRef 12) hasher_session -> s1 = hasher_session)
    /\ (~ registered (VRef 12) hasher_session ->
        w = VRef (length (heap hasher_session))
        /\ nativeMap s1 = <[length (heap hasher_session) := VRef 12]> (nativeMap hasher_session)
        /\ class_of (heap s1) w = Some (CFunction (CFinalizeHook (VRef 12)))).
Proof.
  apply (proj1 (applyHook_hash_patch R0 quiet_host) (VRef 18) (VRef 16) (VRef 17)
           hasher_session (VRef 15) 14%nat base_hasher (VRef 12)).
  - reflexivity.
  - reflexivity.
  - vm_compute. reflexivity.
  - vm_compute. reflexivity.
  - vm_compute. reflexivity.
  - vm_compute. reflexivity.
  - unfold hash_match, slot_at. evaluate.
Defined.

(** The [finalize] slot of the object at [pp] holds a registered
    wrapper. *)
Definition finalize_patched (s : state) (pp : loc) : Prop :=
  exists opp w,
    heap s !! pp = Some opp
    /\ o_props opp !! "finalize"%string = Some w
    /\ registered w s.

(** The conditions of the hash branch, as the specification words them
    for either path. *)
Definition hash_conditions (R : realm) (arguments : list value) (s : state)
  (pp : loc) : Prop :=
  exists a0 a1 p opp f,
    arguments = [a0; a1]
    /\ typeof_object (heap s) a0 = true /\ typeof_object (heap s) a1 = true
    /\ hash_match R arguments s p pp opp f.

Lemma callHook_hash_counterexample :
  hash_conditions R0 [VRef 16; VRef 17] hasher_session 14
  /\ callHook R0 quiet_host (VRef 18) [VRef 16; VRef 17] hasher_session
     = (Ret VUndef, hasher_session)
  /\ ~ finalize_patched hasher_session 14.
Proof.
  split; [|split].
  - exists (VRef 16), (VRef 17), (VRef 15), base_hasher, (VRef 12).
    unfold hash_match, slot_at. evaluate.
  - vm_compute. reflexivity.
  - intros (opp & w & Hpp & Hw & Hreg).
    assert (Hh : heap hasher_session !! 14%nat = Some base_hasher)
      by (vm_compute; reflexivity).
    rewrite Hh in Hpp. injection Hpp as <-.
    assert (Hf : o_props base_hasher !! "finalize"%string = Some (VRef 12))
      by (vm_compute; reflexivity).
    rewrite Hf in Hw. injection Hw as <-.
    assert (Hn : (nativeMap_has (VRef 12) hasher_session).1 = Ret false)
      by (vm_compute; reflexivity).
    unfold registered in Hreg. rewrite Hreg in Hn. cbn [fst] in Hn.
    discriminate Hn.
Qed.

(** * Further properties of the engine *)

(** ** The base64 text of the RSA hooks *)

(** [x >> n] and [x << n] *)
Definition sar (x n : Z) : Z := Z.shiftr (to_int32 x) (to_uint32 n mod 32).

Definition shl (x n : Z) : Z :=
  to_int32 (Z.shiftl (to_int32 x) (to_uint32 n mod 32)).

(** The integer that a bit operator makes of what [parseInt] returned:
    NaN counts as zero. *)
Definition int_of (i : option Z) : Z := default 0 i.

(** [s.charAt(k)]: the empty string when [k] is no position of [s]. *)
Definition charAt (s : jstring) (k : Z) : jstring :=
  if k <? 0 then []
  else match s !! Z.to_nat k with Some c => [c] | None => [] end.

(** [t.substring(a, b)] for [a <= b] *)
Definition substring (t : jstring) (a b : nat) : jstring :=
  take (b - a) (drop a t).

(** The first loop of [hexToBase64RSA]: three hexadecimal digits give
    two base64 digits. *)
Fixpoint rsa_groups (fuel e : nat) (t r : jstring) : nat * jstring :=
  match fuel with
  | O => (e, r)
  | S f =>
      if (e + 3 <=? length t)%nat then
        let i := int_of (parseInt16 (substring t e (e + 3))) in
        rsa_groups f (e + 3) t
          (r ++ (charAt b64_alphabet (sar i 6) ++ charAt b64_alphabet (band 63 i)))
      else (e, r)
  end.

(** The initialiser of the second loop: one digit is left, or two, or
    none. *)
Definition rsa_rest (e : nat) (t r : jstring) : jstring :=
  if (e + 1 =? length t)%nat then
    let i := int_of (parseInt16 (substring t e (e + 1))) in
    r ++ charAt b64_alphabet (shl i 2)
  else if (e + 2 =? length t)%nat then
    let i := int_of (parseInt16 (substring t e (e + 2))) in
    r ++ (charAt b64_alphabet (sar i 2) ++ charAt b64_alphabet (shl (band 3 i) 4))
  else r.

(** The second loop: an equals sign is appended while the length is no
    multiple of four. *)
Fixpoint rsa_pad (fuel : nat) (r : jstring) : jstring :=
  match fuel with
  | O => r
  | S f => if 0 <? band 3 (Z.of_nat (length r)) then rsa_pad f (r ++ [61]) else r
  end.

Definition hexToBase64RSA (t : jstring) : jstring :=
  let '(e, r) := rsa_groups (length t) 0 t [] in
  rsa_pad 3 (rsa_rest e t r).

Example hexToBase64RSA_text : hexToBase64RSA (js "48656c6c6f") = js "SGVsbG8=".
Proof. reflexivity. Qed.

Example hexToBase64RSA_not_hex : hexToBase64RSA (js "xyz") = js "AA==".
Proof. reflexivity. Qed.

(** *** The length of the result *)

Lemma band_3_length (n : nat) : band 3 (Z.of_nat n) = Z.of_nat n mod 4.
Proof.
  unfold band. change (to_int32 3) with 3.
  rewrite Z.land_comm. change 3 with (Z.ones 2). rewrite Z.land_ones by lia.
  change (2 ^ 2) with 4.
  assert (Hm : to_int32 (Z.of_nat n) mod 4 = Z.of_nat n mod 4).
  { unfold to_int32, to_uint32. cbv zeta.
    destruct (Z.of_nat n mod 4294967296 <? 2147483648);
      Z.div_mod_to_equations; lia. }
  rewrite Hm. apply to_int32_small. Z.div_mod_to_equations; lia.
Qed.

Lemma rsa_pad_length r : Z.of_nat (length (rsa_pad 3 r)) mod 4 = 0.
Proof.
  assert (Hstep : forall r' : jstring,
             Z.of_nat (length (r' ++ [61])) = Z.of_nat (length r') + 1).
  { intros r'. rewrite length_app. simpl. lia. }
  simpl. rewrite band_3_length.
  destruct (0 <? Z.of_nat (length r) mod 4) eqn:H0;
    [|apply Z.ltb_ge in H0; Z.div_mod_to_equations; lia].
  apply Z.ltb_lt in H0. rewrite band_3_length, Hstep.
  destruct (0 <? (Z.of_nat (length r) + 1) mod 4) eqn:H1;
    [|apply Z.ltb_ge in H1; rewrite Hstep; Z.div_mod_to_equations; lia].
  apply Z.ltb_lt in H1. rewrite band_3_length, !Hstep.
  destruct (0 <? (Z.of_nat (length r) + 1 + 1) mod 4) eqn:H2;
    [|apply Z.ltb_ge in H2; rewrite !Hstep; Z.div_mod_to_equations; lia].
  apply Z.ltb_lt in H2. rewrite !Hstep. Z.div_mod_to_equations; lia.
Qed.

(** The result of [hexToBase64RSA] is made of groups of four characters,
    whatever the text: the padding loop ends with its condition false. *)
Theorem hexToBase64RSA_length (t : jstring) :
  Z.of_nat (length (hexToBase64RSA t)) mod 4 = 0
  /\ band 3 (Z.of_nat (length (hexToBase64RSA t))) = 0.
Proof.
  assert (Hl : Z.of_nat (length (hexToBase64RSA t)) mod 4 = 0).
  { unfold hexToBase64RSA. destruct (rsa_groups (length t) 0 t []) as [e r].
    apply rsa_pad_length. }
  split; [done|]. by rewrite band_3_length.
Qed.

(** *** Agreement with standard base64 *)

Lemma three_digits n :
  0 <= n < 4096 ->
  parseInt16 [hex_digit (n / 256); hex_digit (n / 16 mod 16); hex_digit (n mod 16)]
    = Some n
  /\ charAt b64_alphabet (sar n 6) ++ charAt b64_alphabet (band 63 n)
     = [b64_char (n / 64); b64_char (n mod 64)].
Proof.
  intros Hn.
  pose (f := fun n : Z =>
    bool_decide
      (parseInt16 [hex_digit (n / 256); hex_digit (n / 16 mod 16); hex_digit (n mod 16)]
         = Some n
       /\ charAt b64_alphabet (sar n 6) ++ charAt b64_alphabet (band 63 n)
          = [b64_char (n / 64); b64_char (n mod 64)])).
  assert (Hf : f n = true).
  { apply (check_below f 4096); [vm_compute; reflexivity | done]. }
  by apply bool_decide_eq_true in Hf.
Qed.

Lemma two_digits a :
  0 <= a < 256 ->
  charAt b64_alphabet (sar a 2) ++ charAt b64_alphabet (shl (band 3 a) 4)
    = [b64_char (a / 4); b64_char (a mod 4 * 16)].
Proof.
  intros Ha.
  pose (f := fun a : Z =>
    bool_decide
      (charAt b64_alphabet (sar a 2) ++ charAt b64_alphabet (shl (band 3 a) 4)
       = [b64_char (a / 4); b64_char (a mod 4 * 16)])).
  assert (Hf : f a = true).
  { apply (check_below f 256); [vm_compute; reflexivity | done]. }
  by apply bool_decide_eq_true in Hf.
Qed.

Lemma one_digit d :
  0 <= d < 16 ->
  parseInt16 [hex_digit d] = Some d
  /\ charAt b64_alphabet (shl d 2) = [b64_char (d * 4)].
Proof.
  intros Hd.
  pose (f := fun d : Z =>
    bool_decide (parseInt16 [hex_digit d] = Some d
                 /\ charAt b64_alphabet (shl d 2) = [b64_char (d * 4)])).
  assert (Hf : f d = true).
  { apply (check_below f 16); [vm_compute; reflexivity | done]. }
  by apply bool_decide_eq_true in Hf.
Qed.

Lemma int_of_some n : int_of (Some n) = n.
Proof. reflexivity. Qed.

Lemma substring_at (pre mid rest : jstring) :
  substring (pre ++ mid ++ rest) (length pre) (length pre + length mid) = mid.
Proof.
  unfold substring. rewrite drop_app_length.
  replace (length pre + length mid - length pre)%nat with (length mid) by lia.
  by rewrite take_app_length.
Qed.

Lemma substring_last (pre mid : jstring) :
  substring (pre ++ mid) (length pre) (length pre + length mid) = mid.
Proof.
  rewrite <- (app_nil_r mid) at 1. rewrite substring_at. done.
Qed.

(** One round of the first loop, on the digits of a number below 4096. *)
Lemma rsa_groups_round fuel (pre rest r : jstring) n :
  0 <= n < 4096 ->
  rsa_groups (S fuel) (length pre)
    (pre ++ [hex_digit (n / 256); hex_digit (n / 16 mod 16); hex_digit (n mod 16)]
         ++ rest) r
  = rsa_groups fuel (length pre + 3)
      (pre ++ [hex_digit (n / 256); hex_digit (n / 16 mod 16); hex_digit (n mod 16)]
           ++ rest)
      (r ++ [b64_char (n / 64); b64_char (n mod 64)]).
Proof.
  intros Hn. destruct (three_digits n Hn) as [Hp Hc].
  cbn [rsa_groups].
  rewrite (proj2 (Nat.leb_le _ _)) by (rewrite !length_app; simpl; lia).
  cbv zeta. rewrite (substring_at pre [_; _; _] rest).
  rewrite Hp. rewrite int_of_some. by rewrite Hc.
Qed.

Lemma rsa_groups_end fuel e (t r : jstring) :
  (length t < e + 3)%nat -> rsa_groups fuel e t r = (e, r).
Proof.
  intros Hl. destruct fuel; [done|]. cbn [rsa_groups].
  by rewrite (proj2 (Nat.leb_gt _ _)) by lia.
Qed.

(** Evaluation of the test of the padding loop on a list of known
    length. *)
Ltac pad_test :=
  match goal with
  | |- context [0 <? ?e] =>
      let v := eval vm_compute in (0 <? e) in
      change (0 <? e) with v; cbv iota
  end.

Lemma rsa_pad_two (r : jstring) x y :
  Z.of_nat (length r) mod 4 = 0 ->
  rsa_pad 3 (r ++ [x; y]) = r ++ [x; y; 61; 61].
Proof.
  intros Hr.
  assert (Hlen : forall x : jstring,
            Z.of_nat (length (r ++ x)) mod 4 = Z.of_nat (length x) mod 4).
  { intros l. rewrite length_app, Nat2Z.inj_add. Z.div_mod_to_equations; lia. }
  cbn [rsa_pad]. rewrite band_3_length, Hlen. pad_test.
  rewrite <- app_assoc. cbn [app].
  rewrite band_3_length, Hlen. pad_test.
  rewrite <- app_assoc. cbn [app].
  rewrite band_3_length, Hlen. pad_test. done.
Qed.

Lemma rsa_pad_three (r : jstring) x y z :
  Z.of_nat (length r) mod 4 = 0 ->
  rsa_pad 3 (r ++ [x; y; z]) = r ++ [x; y; z; 61].
Proof.
  intros Hr.
  assert (Hlen : forall x : jstring,
            Z.of_nat (length (r ++ x)) mod 4 = Z.of_nat (length x) mod 4).
  { intros l. rewrite length_app, Nat2Z.inj_add. Z.div_mod_to_equations; lia. }
  cbn [rsa_pad]. rewrite band_3_length, Hlen. pad_test.
  rewrite <- app_assoc. cbn [app].
  rewrite band_3_length, Hlen. pad_test. done.
Qed.

Lemma rsa_pad_done (r : jstring) :
  Z.of_nat (length r) mod 4 = 0 -> rsa_pad 3 r = r.
Proof. intros Hr. cbn [rsa_pad]. by rewrite band_3_length, Hr. Qed.

(** Equality of two lists of digits, digit by digit. *)
Ltac digits :=
  repeat match goal with
         | |- ?r ++ _ = ?r ++ _ => apply (f_equal (app r))
         | |- _ :: _ = _ :: _ => apply (f_equal2 cons)
         | |- hex_digit _ = hex_digit _ => apply (f_equal hex_digit)
         | |- b64_char _ = b64_char _ => apply (f_equal b64_char)
         end;
  try match goal with |- ?x = ?x => reflexivity end.

Ltac arith :=
  match goal with
  | |- @eq Z _ _ => Z.div_mod_to_equations; lia
  | |- _ => done
  end.

Lemma hexToBase64RSA_from (bs : list Z) :
  Forall is_byte bs ->
  forall (pre r : jstring) fuel,
    (length bs <= fuel)%nat ->
    Z.of_nat (length r) mod 4 = 0 ->
    (let '(e, r') := rsa_groups fuel (length pre) (pre ++ hex_of_bytes bs) r in
     rsa_pad 3 (rsa_rest e (pre ++ hex_of_bytes bs) r'))
    = r ++ base64_encode bs.
Proof.
  induction bs as [|a|a b|a b c bs IH] using triple_ind;
    intros Hbs pre r fuel Hfuel Hr.
  - change (hex_of_bytes []) with (@nil Z). rewrite app_nil_r.
    rewrite rsa_groups_end by lia. cbv beta iota.
    unfold rsa_rest.
    rewrite (proj2 (Nat.eqb_neq _ _)) by lia.
    rewrite (proj2 (Nat.eqb_neq _ _)) by lia.
    rewrite rsa_pad_done by done. by rewrite app_nil_r.
  - apply Forall_cons in Hbs as [Ha _].
    change (hex_of_bytes [a]) with (hex2 a).
    rewrite rsa_groups_end by (rewrite length_app; simpl; lia). cbv beta iota.
    unfold rsa_rest.
    rewrite (proj2 (Nat.eqb_neq _ _)) by (rewrite length_app; simpl; lia).
    rewrite (proj2 (Nat.eqb_eq _ _)) by (rewrite length_app; simpl; lia).
    change 2%nat with (length (hex2 a)).
    rewrite (substring_last pre (hex2 a)).
    rewrite parseInt16_hex2 by done. rewrite int_of_some.
    rewrite two_digits by done.
    rewrite rsa_pad_two by done. done.
  - apply Forall_cons in Hbs as [Ha Hbs]. apply Forall_cons in Hbs as [Hb _].
    unfold is_byte in Ha, Hb.
    destruct fuel as [|fuel]; [simpl in Hfuel; lia|].
    set (n := a * 16 + b / 16).
    assert (Hn : 0 <= n < 4096) by (unfold n; Z.div_mod_to_equations; lia).
    assert (Hhex : hex_of_bytes [a; b]
                   = [hex_digit (n / 256); hex_digit (n / 16 mod 16); hex_digit (n mod 16)]
                     ++ [hex_digit (b mod 16)]).
    { unfold hex_of_bytes, hex2. simpl. unfold n.
      digits; arith. }
    rewrite Hhex. rewrite rsa_groups_round by done.
    rewrite rsa_groups_end by (rewrite !length_app; simpl; lia). cbv beta iota.
    unfold rsa_rest.
    rewrite (proj2 (Nat.eqb_eq _ _)) by (rewrite !length_app; simpl; lia).
    rewrite (app_assoc pre).
    replace (length pre + 3)%nat
      with (length (pre ++ [hex_digit (n / 256); hex_digit (n / 16 mod 16);
                            hex_digit (n mod 16)]))
      by (rewrite length_app; simpl; lia).
    change (?x + 1)%nat with (x + length [hex_digit (b mod 16)])%nat.
    rewrite substring_last.
    destruct (one_digit (b mod 16)) as [Hp Hc]; [Z.div_mod_to_equations; lia|].
    rewrite Hp. rewrite int_of_some. rewrite Hc.
    rewrite <- app_assoc. cbn [app].
    rewrite rsa_pad_three by done. cbn [base64_encode].
    digits; unfold n; arith.
  - apply Forall_cons in Hbs as [Ha Hbs]. apply Forall_cons in Hbs as [Hb Hbs].
    apply Forall_cons in Hbs as [Hc Hbs].
    unfold is_byte in Ha, Hb, Hc.
    destruct fuel as [|[|fuel]]; [simpl in Hfuel; lia..|].
    set (n := a * 16 + b / 16).
    set (m := b mod 16 * 256 + c).
    assert (Hn : 0 <= n < 4096) by (unfold n; Z.div_mod_to_equations; lia).
    assert (Hm : 0 <= m < 4096) by (unfold m; Z.div_mod_to_equations; lia).
    assert (Hhex : hex_of_bytes (a :: b :: c :: bs)
                   = [hex_digit (n / 256); hex_digit (n / 16 mod 16); hex_digit (n mod 16)]
                     ++ [hex_digit (m / 256); hex_digit (m / 16 mod 16); hex_digit (m mod 16)]
                     ++ hex_of_bytes bs).
    { unfold hex_of_bytes, hex2. simpl. unfold n, m.
      digits; arith. }
    rewrite Hhex. rewrite rsa_groups_round by done.
    set (d1 := [hex_digit (n / 256); hex_digit (n / 16 mod 16); hex_digit (n mod 16)]).
    set (d2 := [hex_digit (m / 256); hex_digit (m / 16 mod 16); hex_digit (m mod 16)]).
    replace (length pre + 3)%nat with (length (pre ++ d1))
      by (rewrite length_app; simpl; lia).
    replace (pre ++ d1 ++ d2 ++ hex_of_bytes bs)
      with ((pre ++ d1) ++ d2 ++ hex_of_bytes bs) by (by rewrite <- app_assoc).
    unfold d2. rewrite rsa_groups_round by done. fold d2.
    replace (length (pre ++ d1) + 3)%nat with (length ((pre ++ d1) ++ d2))
      by (rewrite !length_app; simpl; lia).
    replace ((pre ++ d1) ++ d2 ++ hex_of_bytes bs)
      with (((pre ++ d1) ++ d2) ++ hex_of_bytes bs) by (by rewrite <- !app_assoc).
    rewrite (IH Hbs) by
      (simpl in Hfuel; try lia; rewrite !length_app; simpl length;
       rewrite !Nat2Z.inj_add; Z.div_mod_to_equations; lia).
    rewrite <- !app_assoc. cbn [app base64_encode].
    digits; unfold n, m; arith.
Qed.



(** ** The hooks installed by the lazy patches *)

(** The state after the engine has sent [entries] to the console. *)
Definition logged (s : state) (entries : list (list value)) : state :=
  State (heap s) (nativeMap s) (console s ++ entries).

Definition hash_banner : value :=
  VStr (js "[debug] ========== CryptoJS 哈希/HMAC ==========").

Definition rsa_encrypt_banner : value :=
  VStr (js "[debug] ========== RSA 加密 ==========").

Definition rsa_decrypt_banner : value :=
  VStr (js "[debug] ========== RSA 解密 ==========").

(** A label that ends with a line feed. *)
Definition label_line (s : string) : value := VStr (js s ++ [10]).

Section HookBodies.

Variable R : realm.
Variable H : host.

(** [f.bind(this, ...arguments)()]: [bind] is not intercepted, and the
    bound function runs [f]; a value that is not a function has no
    [bind] of its own to run. *)
Definition bind_call (f this : value) (arguments : list value) : M value :=
  callable <- read (fun h => is_callable h f) ;;
  if callable then call_fn R H f this arguments
  else
    b <- get R f (PName "bind") ;;
    cb <- read (fun h => is_callable h b) ;;
    if cb then out_of_model else throw TypeError.

(** [hexToBase64RSA(t)] on a value: a value without [length] runs
    neither loop. *)
Definition hexToBase64RSA_value (t : value) : M value :=
  match t with
  | VStr s => ret (VStr (hexToBase64RSA s))
  | _ =>
      len <- get R t (PName "length") ;;
      match len with
      | VUndef => ret (VStr [])
      | _ => out_of_model
      end
  end.

(** The [try] block of [encryptHook]. *)
Definition encrypt_record (this : value) (arguments : list value)
  (encrypt_text : value) : M unit :=
  pk <- call_method R H this "getPublicKey" [] ;;
  console_log [label_line "[debug] 公钥:"; pk] ;;;
  console_log (VStr (js "[debug] 原始数据:") :: arguments) ;;;
  console_log [VStr (js "[debug] 密文 (Hex):"); encrypt_text] ;;;
  b <- hexToBase64RSA_value encrypt_text ;;
  console_log [VStr (js "[debug] 密文 (Base64):"); b].

Definition encryptHook (temp_encrypt this : value) (arguments : list value)
  : M value :=
  encrypt_text <- bind_call temp_encrypt this arguments ;;
  console_log [rsa_encrypt_banner] ;;;
  try_catch (encrypt_record this arguments encrypt_text) (ret tt) ;;;
  ret encrypt_text.

(** The [try] block of [decryptHook]. *)
Definition decrypt_record (this : value) (arguments : list value)
  (decrypt_text : value) : M unit :=
  sk <- call_method R H this "getPrivateKey" [] ;;
  console_log [label_line "[debug] 私钥:"; sk] ;;;
  b <- hexToBase64RSA_value (arg arguments 0) ;;
  console_log [VStr (js "[debug] 密文 (Base64):"); b] ;;;
  console_log [VStr (js "[debug] 明文:"); decrypt_text].

Definition decryptHook (temp_decrypt this : value) (arguments : list value)
  : M value :=
  decrypt_text <- bind_call temp_decrypt this arguments ;;
  console_log [rsa_decrypt_banner] ;;;
  try_catch (decrypt_record this arguments decrypt_text) (ret tt) ;;;
  ret decrypt_text.

(** The [try] block of [finalizeHook]. *)
Definition finalize_record (arguments : list value) (hash : value) : M unit :=
  console_log (VStr (js "[debug] 原始数据:") :: arguments) ;;;
  t <- call_method R H hash "toString" [] ;;
  console_log [VStr (js "[debug] 密文:"); t] ;;;
  t' <- call_method R H hash "toString" [] ;;
  len <- get R t' (PName "length") ;;
  console_log [VStr (js "[debug] 密文长度:"); len].

Definition finalizeHook (temp_finalize this : value) (arguments : list value)
  : M value :=
  own <- hasOwn this "init" ;;
  if negb own then
    hash <- dot_call R H temp_finalize (this :: arguments) ;;
    console_log [hash_banner] ;;;
    try_catch (finalize_record arguments hash) (ret tt) ;;;
    ret hash
  else dot_call R H temp_finalize (this :: arguments).

End HookBodies.

(** *** What the three hooks have in common *)

(** Run [m], print the banner, run the [try] block [rec] on the result
    and return the result. *)
Definition observe (m : M value) (banner : value) (rec : value -> M unit)
  : M value :=
  x <- m ;;
  console_log [banner] ;;;
  try_catch (rec x) (ret tt) ;;;
  ret x.

Lemma observe_throw m banner rec s e s1 :
  m s = (Throw e, s1) -> observe m banner rec s = (Throw e, s1).
Proof. intros Hm. unfold observe, bind. by rewrite Hm. Qed.

Lemma observe_out m banner rec s s1 :
  m s = (OutOfModel, s1) -> observe m banner rec s = (OutOfModel, s1).
Proof. intros Hm. unfold observe, bind. by rewrite Hm. Qed.

Lemma observe_ret m banner rec s x s1 :
  m s = (Ret x, s1) ->
  logs (fun e => e <> [banner]) (rec x) ->
  exists rest,
    ((observe m banner rec s).1 = Ret x \/ (observe m banner rec s).1 = OutOfModel)
    /\ console (observe m banner rec s).2 = console s1 ++ [banner] :: rest
    /\ Forall (fun e => e <> [banner]) rest.
Proof.
  intros Hm Hrec. unfold observe, bind. rewrite Hm. cbv beta iota.
  unfold console_log. cbv beta iota.
  destruct (Hrec (logged s1 [[banner]])) as (rest & Hc & HP).
  exists rest. unfold try_catch, ret.
  assert (Hc' : console (rec x (logged s1 [[banner]])).2
                = console s1 ++ [banner] :: rest).
  { rewrite Hc. unfold logged. simpl. by rewrite <- app_assoc. }
  unfold logged in *.
  destruct (rec x _) as [[[]|e|] s2]; simpl in *; auto.
Qed.

Lemma observe_run m banner rec s x s1 s2 :
  m s = (Ret x, s1) ->
  rec x (logged s1 [[banner]]) = (Ret tt, s2) ->
  observe m banner rec s = (Ret x, s2).
Proof.
  intros Hm Hrec. unfold observe, bind. rewrite Hm. cbv beta iota.
  unfold console_log at 1. cbv beta iota. fold (logged s1 [[banner]]).
  unfold try_catch. by rewrite Hrec.
Qed.

Lemma logged_logged s a b : logged (logged s a) b = logged s (a ++ b).
Proof. unfold logged. simpl. by rewrite app_assoc. Qed.

Lemma console_log_logged args s : console_log args s = (Ret tt, logged s [args]).
Proof. reflexivity. Qed.

Section HookProperties.

Variable R : realm.
Variable H : host.

Lemma logs_hexToBase64RSA_value P t : logs P (hexToBase64RSA_value R t).
Proof. unfold hexToBase64RSA_value. destruct t; auto 10 with logs. Qed.

(** An entry of two or more values is not a banner. *)
Lemma logs_labelled (banner x y : value) (r : list value) :
  logs (fun e => e <> [banner]) (console_log (x :: y :: r)).
Proof. apply logs_console_log. done. Qed.

Lemma logs_encrypt_record this args x :
  logs (fun e => e <> [rsa_encrypt_banner]) (encrypt_record R H this args x).
Proof.
  unfold encrypt_record.
  apply logs_bind; [apply logs_call_method|]. intros pk.
  apply logs_bind; [apply logs_labelled|]. intros _.
  apply logs_bind.
  { apply logs_console_log. intros Heq. apply (f_equal head) in Heq.
    by vm_compute in Heq. }
  intros _.
  apply logs_bind; [apply logs_labelled|]. intros _.
  apply logs_bind; [apply logs_hexToBase64RSA_value|]. intros b.
  apply logs_labelled.
Qed.

Lemma logs_decrypt_record this args x :
  logs (fun e => e <> [rsa_decrypt_banner]) (decrypt_record R H this args x).
Proof.
  unfold decrypt_record.
  apply logs_bind; [apply logs_call_method|]. intros sk.
  apply logs_bind; [apply logs_labelled|]. intros _.
  apply logs_bind; [apply logs_hexToBase64RSA_value|]. intros b.
  apply logs_bind; [apply logs_labelled|]. intros _.
  apply logs_labelled.
Qed.

Lemma logs_finalize_record args x :
  logs (fun e => e <> [hash_banner]) (finalize_record R H args x).
Proof.
  unfold finalize_record.
  apply logs_bind.
  { apply logs_console_log. intros Heq. apply (f_equal head) in Heq.
    by vm_compute in Heq. }
  intros _.
  apply logs_bind; [apply logs_call_method|]. intros t.
  apply logs_bind; [apply logs_labelled|]. intros _.
  apply logs_bind; [apply logs_call_method|]. intros t'.
  apply logs_bind; [apply logs_get|]. intros len.
  apply logs_labelled.
Qed.

(** The patched [encrypt] returns what the original returns and throws
    what it throws.  When the original returns, the banner is printed
    once, and a failure while the record is printed is not passed on.
    When the original returns a hexadecimal text and [getPublicKey]
    returns, the record is the public key, the arguments, the text and
    its base64 form. *)
Theorem encryptHook_transparent (temp this : value) (args : list value) (s : state) :
  (forall e s1,
     bind_call R H temp this args s = (Throw e, s1) ->
     encryptHook R H temp this args s = (Throw e, s1))
  /\ (forall x s1,
        bind_call R H temp this args s = (Ret x, s1) ->
        exists rest,
          ((encryptHook R H temp this args s).1 = Ret x
           \/ (encryptHook R H temp this args s).1 = OutOfModel)
          /\ console (encryptHook R H temp this args s).2
             = console s1 ++ [rsa_encrypt_banner] :: rest
          /\ Forall (fun e => e <> [rsa_encrypt_banner]) rest)
  /\ (forall hex pk s1 s2,
        bind_call R H temp this args s = (Ret (VStr hex), s1) ->
        call_method R H this "getPublicKey" [] (logged s1 [[rsa_encrypt_banner]])
          = (Ret pk, s2) ->
        encryptHook R H temp this args s
        = (Ret (VStr hex),
           logged s2
             [ [label_line "[debug] 公钥:"; pk];
               VStr (js "[debug] 原始数据:") :: args;
               [VStr (js "[debug] 密文 (Hex):"); VStr hex];
               [VStr (js "[debug] 密文 (Base64):"); VStr (hexToBase64RSA hex)] ])).
Proof.
  change (encryptHook R H temp this args)
    with (observe (bind_call R H temp this args) rsa_encrypt_banner
            (encrypt_record R H this args)).
  split; [|split].
  - intros e s1. apply observe_throw.
  - intros x s1 Hm. eapply observe_ret; [done|]. apply logs_encrypt_record.
  - intros hex pk s1 s2 Hm Hpk. eapply observe_run; [done|].
    unfold encrypt_record, bind. rewrite Hpk. cbv beta iota.
    rewrite !console_log_logged. cbv beta iota.
    unfold hexToBase64RSA_value, ret. rewrite !console_log_logged.
    by rewrite !logged_logged.
Qed.

(** The patched [decrypt]: as for [encrypt]; the record is the private
    key, the base64 form of the first argument and the plain text. *)
Theorem decryptHook_transparent (temp this : value) (args : list value) (s : state) :
  (forall e s1,
     bind_call R H temp this args s = (Throw e, s1) ->
     decryptHook R H temp this args s = (Throw e, s1))
  /\ (forall x s1,
        bind_call R H temp this args s = (Ret x, s1) ->
        exists rest,
          ((decryptHook R H temp this args s).1 = Ret x
           \/ (decryptHook R H temp this args s).1 = OutOfModel)
          /\ console (decryptHook R H temp this args s).2
             = console s1 ++ [rsa_decrypt_banner] :: rest
          /\ Forall (fun e => e <> [rsa_decrypt_banner]) rest)
  /\ (forall ctext rest x sk s1 s2,
        args = VStr ctext :: rest ->
        bind_call R H temp this args s = (Ret x, s1) ->
        call_method R H this "getPrivateKey" [] (logged s1 [[rsa_decrypt_banner]])
          = (Ret sk, s2) ->
        decryptHook R H temp this args s
        = (Ret x,
           logged s2
             [ [label_line "[debug] 私钥:"; sk];
               [VStr (js "[debug] 密文 (Base64):"); VStr (hexToBase64RSA ctext)];
               [VStr (js "[debug] 明文:"); x] ]))
  /\ (forall x s1,
        this = VUndef \/ this = VNull ->
        bind_call R H temp this args s = (Ret x, s1) ->
        decryptHook R H temp this args s = (Ret x, logged s1 [[rsa_decrypt_banner]])).
Proof.
  change (decryptHook R H temp this args)
    with (observe (bind_call R H temp this args) rsa_decrypt_banner
            (decrypt_record R H this args)).
  split; [|split; [|split]].
  - intros e s1. apply observe_throw.
  - intros x s1 Hm. eapply observe_ret; [done|]. apply logs_decrypt_record.
  - intros ctext rest x sk s1 s2 -> Hm Hsk. eapply observe_run; [done|].
    unfold decrypt_record, bind. rewrite Hsk. cbv beta iota.
    rewrite !console_log_logged. cbv beta iota.
    change (arg (VStr ctext :: rest) 0) with (VStr ctext).
    unfold hexToBase64RSA_value, ret.
    rewrite !console_log_logged. by rewrite !logged_logged.
  - intros x s1 Hthis Hm. unfold observe, bind. rewrite Hm. cbv beta iota.
    rewrite console_log_logged. cbv beta iota.
    unfold try_catch, decrypt_record, call_method, bind.
    by destruct Hthis as [-> | ->].
Qed.

(** The patched [finalize].  On a receiver that owns [init] it is the
    call of the original and nothing else.  On another receiver it
    returns what the original returns and throws what it throws; when
    the original returns, the banner is printed once and a failure
    while the record is printed is not passed on.  Without a receiver
    it throws before the original is called. *)
Theorem finalizeHook_transparent (temp this : value) (args : list value) (s : state) :
  (hasOwn this "init" s = (Ret true, s) ->
   finalizeHook R H temp this args s = dot_call R H temp (this :: args) s)
  /\ (hasOwn this "init" s = (Ret false, s) ->
      (forall e s1,
         dot_call R H temp (this :: args) s = (Throw e, s1) ->
         finalizeHook R H temp this args s = (Throw e, s1))
      /\ (forall hash s1,
            dot_call R H temp (this :: args) s = (Ret hash, s1) ->
            exists rest,
              ((finalizeHook R H temp this args s).1 = Ret hash
               \/ (finalizeHook R H temp this args s).1 = OutOfModel)
              /\ console (finalizeHook R H temp this args s).2
                 = console s1 ++ [hash_banner] :: rest
              /\ Forall (fun e => e <> [hash_banner]) rest)
      /\ (forall hash t t' len s1 s2 s3,
            dot_call R H temp (this :: args) s = (Ret hash, s1) ->
            call_method R H hash "toString" []
              (logged s1 [[hash_banner]; VStr (js "[debug] 原始数据:") :: args])
              = (Ret t, s2) ->
            call_method R H hash "toString" []
              (logged s2 [[VStr (js "[debug] 密文:"); t]]) = (Ret t', s3) ->
            get R t' (PName "length") s3 = (Ret len, s3) ->
            finalizeHook R H temp this args s
            = (Ret hash, logged s3 [[VStr (js "[debug] 密文长度:"); len]])))
  /\ (this = VUndef \/ this = VNull ->
      finalizeHook R H temp this args s = (Throw TypeError, s)).
Proof.
  split; [|split].
  - intros Hown. unfold finalizeHook, bind. by rewrite Hown.
  - intros Hown.
    assert (Hobs : finalizeHook R H temp this args s
                   = observe (dot_call R H temp (this :: args)) hash_banner
                       (finalize_record R H args) s).
    { unfold finalizeHook at 1. unfold bind at 1. by rewrite Hown. }
    rewrite Hobs. split; [|split].
    + intros e s1. apply observe_throw.
    + intros hash s1 Hm. eapply observe_ret; [done|]. apply logs_finalize_record.
    + intros hash t t' len s1 s2 s3 Hm Ht Ht' Hlen. eapply observe_run; [done|].
      unfold finalize_record, bind. rewrite console_log_logged. cbv beta iota.
      rewrite logged_logged. cbn [app]. rewrite Ht. cbv beta iota.
      rewrite console_log_logged. cbv beta iota. rewrite Ht'. cbv beta iota.
      rewrite Hlen. cbv beta iota. by rewrite console_log_logged.
  - intros [-> | ->]; reflexivity.
Qed.

End HookProperties.

(** ** What the two interceptors let through *)

Section CallThrough.

Variable R : realm.
Variable H : host.

Lemma console_callHook_analysis args s :
  console (callHook_analysis R args s).2 = console s.
Proof. apply silent_console, logs_callHook_analysis. Qed.

Lemma console_hash_patch args s : console (hash_patch R args s).2 = console s.
Proof. apply silent_console, logs_hash_patch. Qed.

Lemma rsa_shape_length args s :
  length args <> 1%nat -> rsa_shape R args s = (Ret false, s).
Proof.
  intros Hl. unfold rsa_shape, andM, bind, ret.
  by rewrite (proj2 (Nat.eqb_neq _ _) Hl).
Qed.

(** The call hook never fails on its own and prints nothing: its outcome
    is that of the native [call], run after the analysis.  The analysis
    keeps every object and its class, and does nothing at all unless
    there is exactly one argument. *)
Theorem callHook_call_through (this : value) (args : list value) (s : state) :
  exists s1,
    callHook R H this args s = native_call R H this args s1
    /\ callHook_analysis R args s = (Ret tt, s1)
    /\ console s1 = console s
    /\ keeps_classes (heap s) (heap s1)
    /\ (length args <> 1%nat -> s1 = s).
Proof.
  destruct (callHook_analysis_returns R args s) as (s1 & Hrun & Hk).
  exists s1. split; [|split; [done|split; [|split; [done|]]]].
  - unfold callHook, bind. by rewrite Hrun.
  - pose proof (console_callHook_analysis args s) as Hc. by rewrite Hrun in Hc.
  - intros Hl. unfold callHook_analysis, bind in Hrun.
    rewrite rsa_shape_length in Hrun by done. by injection Hrun.
Qed.

Lemma hash_shape_returns args s : exists b, hash_shape args s = (Ret b, s).
Proof.
  unfold hash_shape, andM, bind, ret, read.
  repeat match goal with
         | |- context [if ?b then _ else _] => destruct b
         end; eauto.
Qed.

Lemma hash_branch_returns args s :
  exists s1,
    (hash <- hash_shape args ;; if hash then hash_patch R args else ret tt) s
    = (Ret tt, s1)
    /\ console s1 = console s
    /\ keeps_classes (heap s) (heap s1).
Proof.
  destruct (hash_shape_returns args s) as [b Hb].
  unfold bind. rewrite Hb. destruct b.
  - pose proof (tame_hash_patch R args s) as [Hne Hk].
    pose proof (console_hash_patch args s) as Hc.
    assert (Hnt : forall e, (hash_patch R args s).1 <> Throw e).
    { intros e. unfold hash_patch, try_catch.
      destruct (when _ _ s) as [[[]|e'|] s']; simpl; congruence. }
    destruct (hash_patch R args s) as [[[]|e|] s1]; simpl in *.
    + by exists s1.
    + by destruct (Hnt e).
    + done.
  - exists s. split; [done|]. split; [done|]. apply keeps_classes_refl.
Qed.

Lemma symEncrypt_shape_short args s :
  length args <> 2%nat \/ truthy (arg args 1) = false ->
  symEncrypt_shape R args s = (Ret false, s)
  /\ symDecrypt_shape R args s = (Ret false, s)
  /\ hash_shape args s = (Ret false, s).
Proof.
  intros Hc. unfold symEncrypt_shape, symDecrypt_shape, hash_shape, andM, bind, ret.
  destruct (decide (length args = 2%nat)) as [He|Hne].
  - destruct Hc as [Hc|Hc]; [done|].
    rewrite (proj2 (Nat.eqb_eq _ _) He), Hc.
    by destruct (truthy (arg args 0)).
  - by rewrite (proj2 (Nat.eqb_neq _ _) Hne).
Qed.

(** A call of [apply] with other than two arguments, or without an
    argument list, is the call-through and nothing else.  When the
    argument list has a length other than 1 and 3, the apply hook
    prints nothing and does not fail on its own: its outcome is that of
    the call-through, run after the analysis, which keeps every object
    and its class. *)
Theorem applyHook_call_through (this : value) (args : list value) (s : state) :
  (length args <> 2%nat \/ truthy (arg args 1) = false ->
   applyHook R H this args s = temp_apply_call R H this args s)
  /\ (forall len,
        get R (arg args 1) (PName "length") s = (Ret len, s) ->
        len <> VNum 1 -> len <> VNum 3 ->
        exists s1,
          applyHook R H this args s = temp_apply_call R H this args s1
          /\ applyHook_analysis R H this args s = (Ret tt, s1)
          /\ console s1 = console s
          /\ keeps_classes (heap s) (heap s1)).
Proof.
  split.
  - intros Hc. destruct (symEncrypt_shape_short args s Hc) as (He & Hd & Hh).
    unfold applyHook, applyHook_analysis, bind.
    by rewrite He, Hd, Hh.
  - intros len Hlen H1 H3.
    destruct (symEncrypt_shape_spec R args s) as (be & He & Hbe).
    destruct (symDecrypt_shape_spec R args s) as (bd & Hd & Hbd).
    assert (be = false) as ->.
    { destruct be; [|done]. specialize (Hbe eq_refl). congruence. }
    assert (bd = false) as ->.
    { destruct bd; [|done].
      destruct (proj1 Hbd eq_refl) as (_ & _ & _ & _ & Hl & _). congruence. }
    destruct (hash_branch_returns args s) as (s1 & Hrun & Hc & Hk).
    assert (Ha : applyHook_analysis R H this args s = (Ret tt, s1)).
    { unfold applyHook_analysis. unfold bind at 1. rewrite He.
      unfold bind at 1. rewrite Hd. exact Hrun. }
    exists s1. split; [|done].
    unfold applyHook, bind. by rewrite Ha.
Qed.

(** No call has both symmetric shapes: the two tests always return, and
    never both with true. *)
Theorem symmetric_shapes_disjoint (args : list value) (s : state) :
  exists be bd,
    symEncrypt_shape R args s = (Ret be, s)
    /\ symDecrypt_shape R args s = (Ret bd, s)
    /\ be && bd = false.
Proof.
  destruct (symEncrypt_shape_spec R args s) as (be & He & Hbe).
  destruct (symDecrypt_shape_spec R args s) as (bd & Hd & Hbd).
  exists be, bd. split; [done|]. split; [done|].
  destruct be, bd; try done.
  specialize (Hbe eq_refl).
  destruct (proj1 Hbd eq_refl) as (_ & _ & _ & _ & Hl & _). congruence.
Qed.

End CallThrough.

(** ** The string view of a key *)

(** The percent-escaped text of a sequence of bytes. *)
Definition escaped (bs : list Z) : jstring :=
  concat ((fun b => 37 :: hex2 b) <$> bs).

Definition is_ascii (b : Z) : Prop := 0 <= b < 128.

Lemma hex_value_digit d : 0 <= d < 16 -> hex_value (hex_digit d) = Some d.
Proof.
  intros Hd.
  pose (f := fun d : Z => bool_decide (hex_value (hex_digit d) = Some d)).
  assert (Hf : f d = true).
  { apply (check_below f 16); [vm_compute; reflexivity | done]. }
  by apply bool_decide_eq_true in Hf.
Qed.

Lemma percent_escape_bytes bs :
  Forall is_byte bs -> percent_escape (hex_of_bytes bs) = escaped bs.
Proof.
  induction 1 as [|b bs Hb _ IH]; [done|].
  unfold hex_of_bytes, escaped in *. rewrite !fmap_cons. cbn [concat].
  unfold hex2 at 1 3. cbn [app percent_escape].
  unfold is_byte in Hb.
  rewrite !hex_digit_lower by (Z.div_mod_to_equations; lia).
  cbn [andb]. by rewrite IH.
Qed.

Lemma take_escape_byte b (r : jstring) :
  is_byte b -> take_escape (37 :: hex2 b ++ r) = Some (b, r).
Proof.
  intros Hb. unfold is_byte in Hb. unfold hex2. cbn [app take_escape].
  rewrite !hex_value_digit by (Z.div_mod_to_equations; lia).
  do 2 f_equal. Z.div_mod_to_equations; lia.
Qed.

Lemma length_escaped bs : length (escaped bs) = (3 * length bs)%nat.
Proof.
  unfold escaped. induction bs as [|b bs IH]; [done|].
  rewrite fmap_cons. cbn [concat]. rewrite length_app, IH. simpl. lia.
Qed.

(** Decoding goes through a run of escaped ASCII bytes one by one. *)
Lemma decode_ascii_prefix pre : forall (tail : jstring) fuel,
  Forall is_ascii pre ->
  decodeURI_loop (length pre + fuel) (escaped pre ++ tail)
  = app pre <$> decodeURI_loop fuel tail.
Proof.
  induction pre as [|b pre IH]; intros tail fuel Hpre.
  - simpl. by destruct (decodeURI_loop fuel tail).
  - apply Forall_cons in Hpre as [Hb Hpre]. unfold is_ascii in Hb.
    unfold escaped. rewrite fmap_cons. cbn [concat]. fold (escaped pre).
    rewrite <- !app_assoc.
    change (length (b :: pre) + fuel)%nat with (S (length pre + fuel)).
    change ((37 :: hex2 b) ++ escaped pre ++ tail)
      with (37 :: hex2 b ++ escaped pre ++ tail).
    cbn [decodeURI_loop]. change (37 =? 37) with true. cbv iota.
    rewrite take_escape_byte by (unfold is_byte; lia).
    unfold leading_ones. rewrite (proj2 (Z.ltb_lt b 128)) by lia.
    rewrite IH by done.
    by destruct (decodeURI_loop fuel tail).
Qed.

(** A byte that cannot start a UTF-8 sequence stops the decoding. *)
Lemma decode_bad_lead b (r : jstring) fuel :
  is_byte b -> 128 <= b < 192 \/ 248 <= b ->
  decodeURI_loop (S fuel) (37 :: hex2 b ++ r) = None.
Proof.
  intros Hb Hbad. cbn [decodeURI_loop]. change (37 =? 37) with true. cbv iota.
  rewrite take_escape_byte by done. unfold is_byte in Hb.
  unfold leading_ones.
  destruct Hbad as [Hc|Hf].
  - rewrite (proj2 (Z.ltb_ge b 128)) by lia.
    rewrite (proj2 (Z.ltb_lt b 192)) by lia.
    cbn [take_escapes utf8_code_point].
    by rewrite (proj2 (Z.ltb_ge b 128)) by lia.
  - rewrite (proj2 (Z.ltb_ge b 128)), (proj2 (Z.ltb_ge b 192)),
      (proj2 (Z.ltb_ge b 224)), (proj2 (Z.ltb_ge b 240)),
      (proj2 (Z.ltb_ge b 248)) by lia.
    destruct (take_escapes 4 r) as [[bs r2]|] eqn:Ht; [|done].
    assert (Hlen : length bs = 4%nat).
    { clear -Ht. revert bs r2 Ht. generalize 4%nat as n. intros n. revert r.
      induction n as [|n IH]; intros r bs r2 Ht; simpl in Ht.
      - by injection Ht as <- _.
      - destruct (take_escape r) as [[x r1]|]; [|done].
        destruct (take_escapes n r1) as [[bs' r']|] eqn:Hn; [|done].
        injection Ht as <- _. simpl. f_equal. by eapply IH. }
    destruct bs as [|? [|? [|? [|? [|? ?]]]]]; simpl in Hlen; try lia. done.
Qed.

Lemma decode_ascii (bs : list Z) :
  Forall is_ascii bs ->
  decodeURIComponent (percent_escape (hex_of_bytes bs)) = Some bs.
Proof.
  intros Hbs.
  assert (Hbytes : Forall is_byte bs).
  { eapply Forall_impl; [done|]. unfold is_ascii, is_byte. intros; lia. }
  rewrite percent_escape_bytes by done.
  unfold decodeURIComponent. rewrite length_escaped.
  replace (3 * length bs)%nat with (length bs + 2 * length bs)%nat by lia.
  rewrite <- (app_nil_r (escaped bs)).
  rewrite decode_ascii_prefix by done.
  replace (decodeURI_loop (2 * length bs) []) with (Some (@nil Z))
    by (by destruct (2 * length bs)%nat).
  cbn [fmap option_fmap option_map]. by rewrite app_nil_r.
Qed.

Section StringView.

Variable R : realm.

(** The string view of a key made of ASCII bytes is the text that the
    bytes spell. *)
Theorem rawString_ascii (bs : list Z) (s : state) :
  Forall is_ascii bs ->
  rawString R (VStr (hex_of_bytes bs)) s = (Ret (VStr bs), s).
Proof.
  intros Hbs. unfold rawString, try_catch, decode_hex.
  by rewrite decode_ascii.
Qed.

(** When the first byte outside ASCII cannot start a UTF-8 sequence, the
    string view is the hexadecimal text itself. *)
Theorem rawString_not_text (pre rest : list Z) (b : Z) (s : state) :
  Forall is_ascii pre -> is_byte b -> Forall is_byte rest ->
  128 <= b < 192 \/ 248 <= b ->
  rawString R (VStr (hex_of_bytes (pre ++ b :: rest))) s
  = (Ret (VStr (hex_of_bytes (pre ++ b :: rest))), s).
Proof.
  intros Hpre Hb Hrest Hbad.
  assert (Hbytes : Forall is_byte (pre ++ b :: rest)).
  { apply Forall_app. split; [|by constructor].
    eapply Forall_impl; [done|]. unfold is_ascii, is_byte. intros; lia. }
  unfold rawString, try_catch, decode_hex.
  rewrite percent_escape_bytes by done.
  unfold decodeURIComponent. rewrite length_escaped.
  unfold escaped. rewrite fmap_app, concat_app, fmap_cons. cbn [concat].
  fold (escaped pre). fold (escaped rest).
  rewrite length_app. cbn [length].
  replace (3 * (length pre + S (length rest)))%nat
    with (length pre + S (2 * length pre + 3 * length rest + 2))%nat by lia.
  rewrite decode_ascii_prefix by done.
  change ((37 :: hex2 b) ++ escaped rest) with (37 :: hex2 b ++ escaped rest).
  by rewrite decode_bad_lead.
Qed.

End StringView.

Lemma rawString_ascii_witness :
  rawString R0 (VStr (hex_of_bytes [49; 50; 51; 52])) pristine
  = (Ret (VStr [49; 50; 51; 52]), pristine).
Proof.
  apply (rawString_ascii R0 [49; 50; 51; 52] pristine).
  repeat constructor; unfold is_ascii; lia.
Defined.

Lemma rawString_not_text_witness :
  rawString R0 (VStr (hex_of_bytes ([65] ++ 150 :: [7]))) pristine
  = (Ret (VStr (hex_of_bytes ([65] ++ 150 :: [7]))), pristine).
Proof.
  apply (rawString_not_text R0 [65] [7] 150 pristine).
  - repeat constructor; unfold is_ascii; lia.
  - unfold is_byte; lia.
  - repeat constructor; unfold is_byte; lia.
  - left; lia.
Defined.

(** ** The three views of a key given by its words *)

Section WordKey.

Variable R : realm.
Variable H : host.

Lemma formatKey_words_run (l ts lw : loc) (ko ow : object) (n : Z) (s : state) :
  heap s !! l = Some ko ->
  o_class ko = COrdinary ->
  get R (VRef l) (PName "toString") s = (Ret (VRef ts), s) ->
  class_of (heap s) (VRef ts) = Some (CFunction CObjectToString) ->
  get R (VRef l) (PName "words") s = (Ret (VRef lw), s) ->
  get R (VRef l) (PName "sigBytes") s = (Ret (VNum n), s) ->
  n <> 0 ->
  heap s !! lw = Some ow ->
  o_class ow = CArray ->
  (forall k, o_elems ow !! k = None -> lookup_chain R (heap s) lw (PIdx k) = None) ->
  (forall k v, o_elems ow !! k = Some v -> is_Some (to_integer v)) ->
  let bytes := code_byte (o_elems ow) <$> seqZ 0 (Z.of_nat (Z.to_nat n)) in
  formatKey R H (VRef l) s
  = (Ret (KeyData (raw_view (VStr (hex_of_bytes bytes)))
                  (VStr (hex_of_bytes bytes))
                  (base64_encode bytes)), s).
Proof.
  intros Hl Hko Hts Hcts Hw Hn Hn0 Hlw How Hinh Hint bytes.
  assert (Hbytes : Forall is_byte bytes).
  { apply Forall_fmap, Forall_forall. intros i _. apply code_byte_range. }
  assert (Hcall : call_method R H (VRef l) "toString" [] s
                  = (Ret (VStr (js "[object Object]")), s)).
  { unfold call_method, bind. rewrite Hts. cbv beta iota.
    unfold call_fn. rewrite Hcts. cbv beta iota.
    unfold class_string, class_of. rewrite Hl. simpl. by rewrite Hko. }
  assert (Hstage : hexStage R H (VRef l) s = (Ret (VStr (hex_of_bytes bytes)), s)).
  { unfold hexStage, andM, bind, ret.
    rewrite Hts. cbn [truthy]. cbv beta iota. rewrite Hcall. cbv beta iota.
    unfold strict_eq. rewrite bool_decide_eq_true_2 by done. cbn [negb].
    cbv beta iota. rewrite Hw. cbn [truthy]. cbv beta iota. rewrite Hn.
    cbn [truthy]. rewrite (proj2 (Z.eqb_neq n 0) Hn0). cbn [negb]. cbv beta iota.
    rewrite Hw. cbv beta iota. rewrite Hn. cbv beta iota.
    rewrite (wordsToHex_array R s lw ow n Hlw How Hinh Hint). done. }
  unfold formatKey. cbn [truthy negb]. unfold bind. rewrite Hstage. cbv beta iota.
  rewrite hexToBase64_bytes by done. cbv beta iota.
  unfold rawString, try_catch, decode_hex, raw_view, ret, throw.
  by destruct (decodeURIComponent (percent_escape (hex_of_bytes bytes))).
Qed.



End WordKey.


(** A key of sixteen ASCII bytes, given by its four words. *)
Definition text_key_session : state :=
  with_heap pristine
    [ array key_words;
      plain [("sigBytes"%string, VNum 16); ("words"%string, VRef 9)] ].


Example text_key_string :
  (code_byte key_words <$> seqZ 0 (Z.of_nat (Z.to_nat 16))) = js "1234567890112345".
Proof. vm_compute. reflexivity. Qed.

(** ** The patched [toString] in any state *)

(** A reference points into the heap. *)
Definition allocated (s : state) (v : value) : Prop :=
  match v with VRef l => is_Some (heap s !! l) | _ => True end.

(** The function whose source text the patched [toString] shows for
    [this]: the registered original of a wrapper, and [this] itself
    otherwise. *)
Definition shown (s : state) (this : value) : value :=
  match this with
  | VRef l => default this (nativeMap s !! l)
  | _ => this
  end.

Section Concealment.

Variable R : realm.

Lemma class_of_kept s s1 v :
  allocated s v -> keeps_classes (heap s) (heap s1) ->
  class_of (heap s1) v = class_of (heap s) v.
Proof.
  intros Ha Hk. destruct v as [| | | | |l]; try done.
  destruct Ha as [o Ho]. unfold class_of. rewrite Ho.
  destruct (Hk l o Ho) as (o' & -> & Hc). simpl. by rewrite Hc.
Qed.

Lemma _toString_call_native v s :
  allocated s v ->
  (_toString_call R v s).1 = (native_toString v s).1
  /\ console (_toString_call R v s).2 = console s.
Proof.
  intros Ha. unfold _toString_call, bind.
  destruct (callHook_analysis_returns R [v] s) as (s1 & Hrun & Hk).
  pose proof (console_callHook_analysis R [v] s) as Hc.
  rewrite Hrun in *. simpl in Hc. split.
  - apply native_toString_class. by apply class_of_kept.
  - rewrite <- Hc. unfold native_toString. by repeat case_match.
Qed.

Lemma toString_hook_outcome (this : value) (s : state) :
  allocated s (shown s this) ->
  (toString_hook R this s).1 = (native_toString (shown s this) s).1
  /\ console (toString_hook R this s).2 = console s.
Proof.
  intros Ha. unfold toString_hook, bind.
  destruct this as [| | | | |l];
    try (cbn [nativeMap_has]; cbv beta iota; by apply _toString_call_native).
  cbn [nativeMap_has nativeMap_get shown] in *. cbv beta iota.
  destruct (nativeMap s !! l) as [o|] eqn:Hreg; cbn [default from_option id] in *.
  - rewrite bool_decide_eq_true_2 by eauto. cbv beta iota.
    rewrite Hreg. cbn [default from_option id]. cbv beta iota.
    by apply _toString_call_native.
  - rewrite bool_decide_eq_false_2 by (by intros [? ?]). cbv beta iota.
    by apply _toString_call_native.
Qed.

(** In every state, the patched [Function.prototype.toString] answers
    for a registered wrapper what the native one answers for its
    original, and for any other value what the native one answers for
    that value: the same text or the same failure, and nothing is
    printed. *)
Theorem toString_hook_shown (this : value) (s : state) :
  allocated s (shown s this) ->
  (toString_hook R this s).1 = (native_toString (shown s this) s).1
  /\ console (toString_hook R this s).2 = console s.
Proof. apply toString_hook_outcome. Qed.

End Concealment.

Lemma toString_hook_shown_witness :
  (toString_hook R0 (VRef 10) hashed_once).1
  = (native_toString (shown hashed_once (VRef 10)) hashed_once).1
  /\ console (toString_hook R0 (VRef 10) hashed_once).2 = console hashed_once.
Proof.
  apply (toString_hook_shown R0 (VRef 10) hashed_once).
  vm_compute. by eexists.
Defined.

(** ** The hooks on concrete sessions *)

(** A host for the RSA session: [encrypt] returns a hexadecimal text,
    [decrypt] a plain text, and the key-handling functions a key text. *)
Definition key_host : host :=
  Host (fun id _ _ h =>
          match id with
          | 3%nat => (Ret (VStr (js "48656c6c6f")), h)
          | 4%nat => (Ret (VStr (js "Hello")), h)
          | 5%nat => (Ret (VStr (js "-----BEGIN KEY-----")), h)
          | _ => (Ret VUndef, h)
          end).

Lemma encryptHook_transparent_witness :
  encryptHook R0 key_host (VRef 12) (VRef 16) [VStr (js "Hello")] rsa_session
  = (Ret (VStr (js "48656c6c6f")),
     logged (logged rsa_session [[rsa_encrypt_banner]])
       [ [label_line "[debug] 公钥:"; VStr (js "-----BEGIN KEY-----")];
         [VStr (js "[debug] 原始数据:"); VStr (js "Hello")];
         [VStr (js "[debug] 密文 (Hex):"); VStr (js "48656c6c6f")];
         [VStr (js "[debug] 密文 (Base64):");
          VStr (hexToBase64RSA (js "48656c6c6f"))] ]).
Proof.
  apply (proj2 (proj2 (encryptHook_transparent R0 key_host (VRef 12) (VRef 16)
                         [VStr (js "Hello")] rsa_session))
           (js "48656c6c6f") (VStr (js "-----BEGIN KEY-----")) rsa_session
           (logged rsa_session [[rsa_encrypt_banner]])).
  - vm_compute. reflexivity.
  - vm_compute. reflexivity.
Defined.

Lemma decryptHook_transparent_witness :
  decryptHook R0 key_host (VRef 13) (VRef 16) [VStr (js "48656c6c6f")] rsa_session
  = (Ret (VStr (js "Hello")),
     logged (logged rsa_session [[rsa_decrypt_banner]])
       [ [label_line "[debug] 私钥:"; VStr (js "-----BEGIN KEY-----")];
         [VStr (js "[debug] 密文 (Base64):");
          VStr (hexToBase64RSA (js "48656c6c6f"))];
         [VStr (js "[debug] 明文:"); VStr (js "Hello")] ]).
Proof.
  apply (proj1 (proj2 (proj2 (decryptHook_transparent R0 key_host (VRef 13) (VRef 16)
                                [VStr (js "48656c6c6f")] rsa_session)))
           (js "48656c6c6f") [] (VStr (js "Hello")) (VStr (js "-----BEGIN KEY-----"))
           rsa_session (logged rsa_session [[rsa_decrypt_banner]])).
  - reflexivity.
  - vm_compute. reflexivity.
  - vm_compute. reflexivity.
Defined.

(** The hasher session with a digest object (at 23) whose [toString]
    (at 22) gives its hexadecimal text. *)
Definition digest_session : state :=
  with_heap hasher_session
    [ page_function (js "function (encoder) { return (encoder || Hex).stringify(this); }") 7;
      plain [("toString"%string, VRef 22)] ].

Definition digest_host : host :=
  Host (fun id _ _ h =>
          match id with
          | 3%nat => (Ret (VRef 23), h)
          | 7%nat => (Ret (VStr (js "9f86d081")), h)
          | _ => (Ret VUndef, h)
          end).

Definition digest_data : list value := [VStr (js "[debug] 原始数据:")].

Lemma finalizeHook_transparent_witness :
  finalizeHook R0 digest_host (VRef 12) (VRef 16) [] digest_session
  = (Ret (VRef 23),
     logged
       (logged (logged digest_session [[hash_banner]; digest_data])
          [[VStr (js "[debug] 密文:"); VStr (js "9f86d081")]])
       [[VStr (js "[debug] 密文长度:"); VNum 8]]).
Proof.
  apply (proj2 (proj2 (proj1 (proj2
           (finalizeHook_transparent R0 digest_host (VRef 12) (VRef 16) []
              digest_session))
           ltac:(vm_compute; reflexivity)))
           (VRef 23) (VStr (js "9f86d081")) (VStr (js "9f86d081")) (VNum 8)
           digest_session
           (logged digest_session [[hash_banner]; digest_data])
           (logged (logged digest_session [[hash_banner]; digest_data])
              [[VStr (js "[debug] 密文:"); VStr (js "9f86d081")]])).
  - vm_compute. reflexivity.
  - vm_compute. reflexivity.
  - vm_compute. reflexivity.
  - vm_compute. reflexivity.
Defined.

Lemma applyHook_call_through_witness :
  applyHook R0 quiet_host (VRef 18) [VRef 16] hasher_session
  = temp_apply_call R0 quiet_host (VRef 18) [VRef 16] hasher_session.
Proof.
  apply (proj1 (applyHook_call_through R0 quiet_host (VRef 18) [VRef 16]
                  hasher_session)).
  left. simpl. lia.
Defined.

(** ** Installation *)

Section Installation.

Variable R : realm.

Lemma get_own (l : loc) (o : object) (k : string) (x : value) (s : state) :
  heap s !! l = Some o ->
  o_props o !! k = Some x ->
  k <> "length"%string -> k <> "__proto__"%string ->
  get R (VRef l) (PName k) s = (Ret x, s).
Proof.
  intros Hl Hk Hk1 Hk2. rewrite get_ref_name by done.
  erewrite lookup_chain_own; [done | exact Hl |]. by apply own_lookup_key.
Qed.

(** The heap after one primitive of [Function.prototype] has been
    replaced: the wrapper [f] is the new last object, and the slot
    [key] of the object at [F] refers to it. *)
Definition replaced (h : list object) (F : loc) (fp : object) (key : string)
  (f : object) : list object :=
  <[F := with_prop fp key (VRef (length h))]> (h ++ [f]).

Lemma replaced_length h F fp key f : length (replaced h F fp key f) = S (length h).
Proof. unfold replaced. rewrite length_insert, length_app. simpl. lia. Qed.

Lemma replaced_at h F fp key f :
  (F < length h)%nat ->
  replaced h F fp key f !! F = Some (with_prop fp key (VRef (length h))).
Proof.
  intros HF. unfold replaced. apply list_lookup_insert_eq.
  rewrite length_app. simpl. lia.
Qed.

Lemma replaced_new h F fp key f :
  (F < length h)%nat -> replaced h F fp key f !! length h = Some f.
Proof.
  intros HF. unfold replaced. rewrite list_lookup_insert_ne by lia.
  rewrite lookup_app_r by lia. by rewrite Nat.sub_diag.
Qed.

Lemma replaced_other h F fp key f l :
  l <> F -> (l < length h)%nat -> replaced h F fp key f !! l = h !! l.
Proof.
  intros Hl Hlt. unfold replaced. rewrite list_lookup_insert_ne by done.
  by rewrite lookup_app_l.
Qed.

(** One replacement of the kind used for [apply] and [call]. *)
Lemma replace_primitive {A} (key name : string) (c : code) (F : loc) (fp : object)
  (x : value) (s : state) (k : M A) :
  F = r_function R ->
  heap s !! F = Some fp ->
  o_props fp !! key = Some x ->
  key <> "length"%string -> key <> "__proto__"%string ->
  exists f,
    (temp <- get R (VRef F) (PName key) ;;
     hook <- new_function R name c ;;
     w <- makeNative R hook temp ;;
     set_prop (VRef F) key w ;;;
     k) s
    = k (State (replaced (heap s) F fp key f)
               (<[length (heap s) := x]> (nativeMap s)) (console s))
    /\ o_class f = CFunction c.
Proof.
  intros HF Hfp Hx Hk1 Hk2.
  assert (HFlt : (F < length (heap s))%nat) by (by eapply lookup_lt_Some).
  set (f0 := Obj (CFunction c) (VRef (r_function R))
                 (<["name"%string := VStr (js name)]>
                    (<["length"%string := VNum 0]> ∅)) []).
  set (s1 := State (heap s ++ [f0]) (nativeMap s) (console s)).
  assert (Hnew : heap s1 !! length (heap s) = Some f0).
  { simpl. rewrite lookup_app_r by lia. by rewrite Nat.sub_diag. }
  destruct (makeNative_run R (length (heap s)) f0 x s1 Hnew)
    as (f & Hrun & Hc & _).
  exists f. split; [|done].
  unfold bind. rewrite (get_own F fp key x s) by done. cbv beta iota.
  unfold new_function, alloc. cbv beta iota. fold f0. fold s1.
  rewrite Hrun. cbv beta iota.
  erewrite set_prop_obj.
  2:{ simpl. rewrite list_lookup_insert_ne by lia. by apply lookup_app_l_Some. }
  cbv beta iota. simpl. unfold replaced. f_equal. f_equal.
  f_equal. rewrite insert_app_r_alt by lia. by rewrite Nat.sub_diag.
Qed.

(** The replacement of [toString], which stores the wrapper before it
    registers it. *)
Lemma replace_toString {A} (F : loc) (fp : object) (x : value) (s : state)
  (k : M A) :
  F = r_function R ->
  heap s !! F = Some fp ->
  is_indexed (o_class fp) = false ->
  o_props fp !! "toString"%string = Some x ->
  exists f,
    (_toString <- get R (VRef F) (PName "toString") ;;
     f <- new_function R "toString" CToStringHook ;;
     set_prop (VRef F) "toString" f ;;;
     cur <- get R (VRef F) (PName "toString") ;;
     makeNative R cur _toString ;;;
     k) s
    = k (State (replaced (heap s) F fp "toString" f)
               (<[length (heap s) := x]> (nativeMap s)) (console s))
    /\ o_class f = CFunction CToStringHook.
Proof.
  intros HF Hfp Hidx Hx.
  assert (HFlt : (F < length (heap s))%nat) by (by eapply lookup_lt_Some).
  set (f0 := Obj (CFunction CToStringHook) (VRef (r_function R))
                 (<["name"%string := VStr (js "toString")]>
                    (<["length"%string := VNum 0]> ∅)) []).
  set (s2 := State (replaced (heap s) F fp "toString" f0) (nativeMap s) (console s)).
  assert (Hnew : heap s2 !! length (heap s) = Some f0) by (by apply replaced_new).
  destruct (makeNative_run R (length (heap s)) f0 x s2 Hnew)
    as (f & Hrun & Hc & _).
  exists f. split; [|done].
  unfold bind. rewrite (get_own F fp "toString" x s) by done. cbv beta iota.
  unfold new_function, alloc. cbv beta iota. fold f0.
  erewrite set_prop_obj by (by apply lookup_app_l_Some).
  cbv beta iota. cbn [heap nativeMap console]. fold (replaced (heap s) F fp "toString" f0).
  fold s2.
  rewrite (get_own F (with_prop fp "toString" (VRef (length (heap s)))) "toString"
             (VRef (length (heap s))) s2); [| by apply replaced_at | | done | done].
  2:{ simpl. by rewrite lookup_insert_eq. }
  cbv beta iota. rewrite Hrun. cbv beta iota. f_equal. f_equal. simpl.
  unfold replaced.
  rewrite list_insert_insert_ne by lia.
  f_equal. rewrite insert_app_r_alt by lia. by rewrite Nat.sub_diag.
Qed.

Lemma install_run (fp : object) (t0 a0 c0 : value) (s : state) :
  heap s !! r_function R = Some fp ->
  is_indexed (o_class fp) = false ->
  o_props fp !! "toString"%string = Some t0 ->
  o_props fp !! "apply"%string = Some a0 ->
  o_props fp !! "call"%string = Some c0 ->
  let n := length (heap s) in
  exists s',
    install R s = (Ret tt, s')
    /\ nativeMap s'
       = <[S (S n) := c0]> (<[S n := a0]> (<[n := t0]> (nativeMap s)))
    /\ console s' = console s
    /\ length (heap s') = S (S (S n))
    /\ heap s' !! r_function R
       = Some (with_prop (with_prop (with_prop fp "toString" (VRef n))
                            "apply" (VRef (S n)))
                 "call" (VRef (S (S n))))
    /\ class_of (heap s') (VRef n) = Some (CFunction CToStringHook)
    /\ class_of (heap s') (VRef (S n)) = Some (CFunction CApplyHook)
    /\ class_of (heap s') (VRef (S (S n))) = Some (CFunction CCallHook)
    /\ (forall l, l <> r_function R -> (l < n)%nat -> heap s' !! l = heap s !! l).
Proof.
  intros Hfp Hidx Ht Ha Hc n. subst n.
  assert (HF : (r_function R < length (heap s))%nat) by (by eapply lookup_lt_Some).
  unfold install. cbv zeta.
  destruct (replace_toString (r_function R) fp t0 s
              (temp_apply <- get R (VRef (r_function R)) (PName "apply") ;;
               applyHook_fn <- new_function R "applyHook" CApplyHook ;;
               w <- makeNative R applyHook_fn temp_apply ;;
               set_prop (VRef (r_function R)) "apply" w ;;;
               temp_call <- get R (VRef (r_function R)) (PName "call") ;;
               callHook_fn <- new_function R "callHook" CCallHook ;;
               w' <- makeNative R callHook_fn temp_call ;;
               set_prop (VRef (r_function R)) "call" w')
              eq_refl Hfp Hidx Ht) as (f1 & Hrun1 & Hc1).
  rewrite Hrun1. clear Hrun1.
  set (h1 := replaced (heap s) (r_function R) fp "toString" f1).
  set (fp1 := with_prop fp "toString" (VRef (length (heap s)))).
  set (s1 := State h1 (<[length (heap s) := t0]> (nativeMap s)) (console s)).
  assert (Hn1 : length h1 = S (length (heap s))) by apply replaced_length.
  assert (Hfp1 : heap s1 !! r_function R = Some fp1) by (by apply replaced_at).
  destruct (replace_primitive "apply" "applyHook" CApplyHook (r_function R) fp1 a0 s1
              (temp_call <- get R (VRef (r_function R)) (PName "call") ;;
               callHook_fn <- new_function R "callHook" CCallHook ;;
               w' <- makeNative R callHook_fn temp_call ;;
               set_prop (VRef (r_function R)) "call" w')
              eq_refl Hfp1) as (f2 & Hrun2 & Hc2); [by simpl; rewrite lookup_insert_ne | done | done |].
  rewrite Hrun2. clear Hrun2. cbn [heap nativeMap console s1].
  set (h2 := replaced h1 (r_function R) fp1 "apply" f2).
  set (fp2 := with_prop fp1 "apply" (VRef (length h1))).
  set (s2 := State h2 (<[length h1 := a0]> (<[length (heap s) := t0]> (nativeMap s))) (console s)).
  assert (Hn2 : length h2 = S (S (length (heap s)))) by (unfold h2; by rewrite replaced_length, Hn1).
  assert (Hfp2 : heap s2 !! r_function R = Some fp2)
    by (apply replaced_at; lia).
  destruct (replace_primitive "call" "callHook" CCallHook (r_function R) fp2 c0 s2
              (ret tt) eq_refl Hfp2) as (f3 & Hrun3 & Hc3);
    [by simpl; rewrite !lookup_insert_ne | done | done |].
  assert (Hlast : (temp_call <- get R (VRef (r_function R)) (PName "call") ;;
                   callHook_fn <- new_function R "callHook" CCallHook ;;
                   w' <- makeNative R callHook_fn temp_call ;;
                   set_prop (VRef (r_function R)) "call" w') s2
                  = (Ret tt,
                     State (replaced h2 (r_function R) fp2 "call" f3)
                       (<[length h2 := c0]> (nativeMap s2)) (console s2))).
  { etransitivity; [|exact Hrun3]. unfold bind.
    destruct (get R (VRef (r_function R)) (PName "call") s2) as [[x|e|] sa]; try done.
    destruct (new_function R "callHook" CCallHook sa) as [[y|e|] sb]; try done.
    destruct (makeNative R y x sb) as [[z|e|] sc]; try done.
    by destruct (set_prop (VRef (r_function R)) "call" z sc) as [[[]|e|] sd]. }
  rewrite Hlast. clear Hlast Hrun3.
  eexists. split; [reflexivity|]. cbn [heap nativeMap console s2].
  rewrite Hn1, Hn2.
  split; [done|]. split; [done|].
  split; [by rewrite replaced_length, Hn2|].
  split; [rewrite replaced_at by lia; unfold fp2, fp1; by rewrite Hn1, Hn2|].
  split.
  { unfold class_of. rewrite replaced_other by lia.
    unfold h2. rewrite replaced_other by lia.
    unfold h1. rewrite replaced_new by lia. simpl. by rewrite Hc1. }
  split.
  { unfold class_of. rewrite replaced_other by lia.
    unfold h2. rewrite <- Hn1. rewrite replaced_new by lia. simpl. by rewrite Hc2. }
  split.
  { unfold class_of. rewrite <- Hn2. rewrite replaced_new by lia.
    simpl. by rewrite Hc3. }
  intros l Hl Hlt.
  rewrite replaced_other by lia. unfold h2. rewrite replaced_other by lia.
  unfold h1. by rewrite replaced_other by lia.
Qed.

(** After the script has run on a host whose [Function.prototype] owns
    [toString], [apply] and [call], these three slots hold three new
    functions, the two interceptors and the patched [toString]; the
    registry holds exactly one new record for each, from the wrapper to
    the function that was in the slot; nothing is printed, and every
    other object is as it was. *)
Theorem install_replaces (fp : object) (t0 a0 c0 : value) (s : state) :
  heap s !! r_function R = Some fp ->
  is_indexed (o_class fp) = false ->
  o_props fp !! "toString"%string = Some t0 ->
  o_props fp !! "apply"%string = Some a0 ->
  o_props fp !! "call"%string = Some c0 ->
  let n := length (heap s) in
  exists s',
    install R s = (Ret tt, s')
    /\ nativeMap s'
       = <[S (S n) := c0]> (<[S n := a0]> (<[n := t0]> (nativeMap s)))
    /\ console s' = console s
    /\ length (heap s') = S (S (S n))
    /\ heap s' !! r_function R
       = Some (with_prop (with_prop (with_prop fp "toString" (VRef n))
                            "apply" (VRef (S n)))
                 "call" (VRef (S (S n))))
    /\ class_of (heap s') (VRef n) = Some (CFunction CToStringHook)
    /\ class_of (heap s') (VRef (S n)) = Some (CFunction CApplyHook)
    /\ class_of (heap s') (VRef (S (S n))) = Some (CFunction CCallHook)
    /\ (forall l, l <> r_function R -> (l < n)%nat -> heap s' !! l = heap s !! l).
Proof. apply install_run. Qed.

End Installation.

Lemma install_replaces_witness :
  exists s',
    install R0 pristine = (Ret tt, s')
    /\ nativeMap s'
       = <[11%nat := VRef 8]> (<[10%nat := VRef 7]> (<[9%nat := VRef 6]> (nativeMap pristine)))
    /\ console s' = console pristine
    /\ length (heap s') = 12%nat
    /\ heap s' !! r_function R0
       = Some (with_prop (with_prop (with_prop
                 (Obj (CFunction (CTarget (js "function () { [native code] }") 0)) (VRef 0)
                    (props [("toString"%string, VRef 6); ("apply"%string, VRef 7);
                            ("call"%string, VRef 8); ("name"%string, VStr []);
                            ("length"%string, VNum 0)]) [])
                 "toString" (VRef 9)) "apply" (VRef 10)) "call" (VRef 11))
    /\ class_of (heap s') (VRef 9) = Some (CFunction CToStringHook)
    /\ class_of (heap s') (VRef 10) = Some (CFunction CApplyHook)
    /\ class_of (heap s') (VRef 11) = Some (CFunction CCallHook)
    /\ (forall l, l <> r_function R0 -> (l < 9)%nat -> heap s' !! l = heap pristine !! l).
Proof.
  apply (install_replaces R0
           (Obj (CFunction (CTarget (js "function () { [native code] }") 0)) (VRef 0)
              (props [("toString"%string, VRef 6); ("apply"%string, VRef 7);
                      ("call"%string, VRef 8); ("name"%string, VStr []);
                      ("length"%string, VNum 0)]) [])
           (VRef 6) (VRef 7) (VRef 8) pristine).
  - reflexivity.
  - reflexivity.
  - vm_compute. reflexivity.
  - vm_compute. reflexivity.
  - vm_compute. reflexivity.
Defined.


(** ** The registry under the lazy patches *)

(** Every key of the registry is an object of the heap. *)
Definition registry_wf (s : state) : Prop :=
  forall l v, nativeMap s !! l = Some v -> (l < length (heap s))%nat.

(** A computation that keeps the registry well formed, keeps every
    record of it, and does not shorten the heap. *)
Definition grows {A} (m : M A) : Prop :=
  forall s, registry_wf s ->
    registry_wf (m s).2
    /\ nativeMap s ⊆ nativeMap (m s).2
    /\ (length (heap s) <= length (heap (m s).2))%nat.

Lemma grows_pure {A} (m : M A) : (forall s, (m s).2 = s) -> grows m.
Proof. intros Hm s Hwf. by rewrite Hm. Qed.

Lemma grows_bind {A B} (m : M A) (k : A -> M B) :
  grows m -> (forall a, grows (k a)) -> grows (bind m k).
Proof.
  intros Hm Hk s Hwf. unfold bind. destruct (Hm s Hwf) as (Hwf1 & Hsub1 & Hlen1).
  destruct (m s) as [[a|e|] s1]; simpl in *; [|done..].
  destruct (Hk a s1 Hwf1) as (Hwf2 & Hsub2 & Hlen2).
  split; [done|]. split; [by etransitivity | lia].
Qed.

Lemma grows_try_catch {A} (m h : M A) :
  grows m -> grows h -> grows (try_catch m h).
Proof.
  intros Hm Hh s Hwf. unfold try_catch. destruct (Hm s Hwf) as (Hwf1 & Hsub1 & Hlen1).
  destruct (m s) as [[a|e|] s1]; simpl in *; [done| |done].
  destruct (Hh s1 Hwf1) as (Hwf2 & Hsub2 & Hlen2).
  split; [done|]. split; [by etransitivity | lia].
Qed.

Lemma grows_ret {A} (a : A) : grows (ret a).
Proof. by apply grows_pure. Qed.

Lemma grows_get R v k : grows (get R v k).
Proof. apply grows_pure. intros s. apply get_state. Qed.

Lemma grows_read {A} (f : list object -> A) : grows (read f).
Proof. by apply grows_pure. Qed.

Lemma grows_hasOwn v k : grows (hasOwn v k).
Proof. apply grows_pure. intros s. unfold hasOwn. by repeat case_match. Qed.

Lemma grows_nativeMap_has v : grows (nativeMap_has v).
Proof. apply grows_pure. intros s. by destruct v. Qed.

Lemma grows_if {A} (b : bool) (m1 m2 : M A) :
  grows m1 -> grows m2 -> grows (if b then m1 else m2).
Proof. by destruct b. Qed.

Lemma grows_andM a b : grows a -> grows b -> grows (a &&& b).
Proof.
  intros Ha Hb. unfold andM. apply grows_bind; [done|].
  intros x. apply grows_if; [done | apply grows_ret].
Qed.

Lemma grows_when c m : grows c -> grows m -> grows (when c m).
Proof.
  intros Hc Hm. unfold when. apply grows_bind; [done|].
  intros x. apply grows_if; [done | apply grows_ret].
Qed.

Lemma grows_set_prop v k x : grows (set_prop v k x).
Proof.
  intros s Hwf. unfold set_prop.
  destruct v as [| | | | |l]; try done.
  destruct (heap s !! l) as [o|]; [|done]. simpl.
  split; [|split; [done|by rewrite length_insert]].
  intros l' v' Hl'. simpl in *. rewrite length_insert. by eapply Hwf.
Qed.

Lemma grows_proto2 R args : grows (proto2 R args).
Proof.
  unfold proto2, proto1. apply grows_bind; [apply grows_get|].
  intros p. apply grows_get.
Qed.

(** The object that a function expression of the engine allocates. *)
Definition fresh_function (R : realm) (name : string) (c : code) : object :=
  Obj (CFunction c) (VRef (r_function R))
      (<["name"%string := VStr (js name)]> (<["length"%string := VNum 0]> ∅)) [].

(** The steps that make a wrapper, register it and store it, on any
    state: the wrapper is the new last object of the heap. *)
Lemma wrap_run R args (name key : string) (c : code) (temp : value) (s : state) :
  let n := length (heap s) in
  let s1 := State (heap s ++ [fresh_function R name c]) (nativeMap s) (console s) in
  exists f,
    (hook <- new_function R name c ;;
     pp <- proto2 R args ;;
     w <- makeNative R hook temp ;;
     set_prop pp key w) s
    = match proto2 R args s1 with
      | (Ret pp, _) =>
          set_prop pp key (VRef n)
            (State (<[n := f]> (heap s1)) (<[n := temp]> (nativeMap s)) (console s))
      | (Throw e, _) => (Throw e, s1)
      | (OutOfModel, _) => (OutOfModel, s1)
      end.
Proof.
  intros n s1.
  assert (Hp2 : (proto2 R args s1).2 = s1).
  { pose proof (get_state R (arg args 0) (PName "__proto__") s1) as Hp1.
    unfold proto2, proto1, bind.
    destruct (get R (arg args 0) (PName "__proto__") s1) as [[p|e|] sa];
      simpl in Hp1; subst sa; [|done..].
    apply get_state. }
  assert (Hnew : heap s1 !! n = Some (fresh_function R name c)).
  { simpl. rewrite lookup_app_r by (unfold n; lia). unfold n. by rewrite Nat.sub_diag. }
  destruct (makeNative_run R n (fresh_function R name c) temp s1 Hnew)
    as (f & Hrun & _).
  exists f.
  unfold bind at 1. unfold new_function, alloc. cbv beta iota.
  fold (fresh_function R name c). fold s1. fold n. unfold bind at 1.
  destruct (proto2 R args s1) as [[pp|e|] sa]; simpl in Hp2; subst sa; [|done..].
  unfold bind. by rewrite Hrun.
Qed.

(** The wrapper is made, registered and stored: its key is new. *)
Lemma grows_wrap R args (name key : string) (c : code) (temp : value) :
  grows (hook <- new_function R name c ;;
         pp <- proto2 R args ;;
         w <- makeNative R hook temp ;;
         set_prop pp key w).
Proof.
  intros s Hwf.
  destruct (wrap_run R args name key c temp s) as (f & Hm).
  rewrite Hm. clear Hm.
  set (f0 := fresh_function R name c).
  set (s1 := State (heap s ++ [f0]) (nativeMap s) (console s)).
  set (s2 := State (<[length (heap s) := f]> (heap s1))
                   (<[length (heap s) := temp]> (nativeMap s)) (console s)).
  assert (H1 : registry_wf s1 /\ nativeMap s ⊆ nativeMap s1
               /\ (length (heap s) <= length (heap s1))%nat).
  { unfold s1. simpl. rewrite length_app. simpl.
    split; [|split; [done | lia]].
    intros l v Hl. simpl in *. rewrite length_app. simpl.
    specialize (Hwf l v Hl). lia. }
  assert (Hfresh : nativeMap s !! length (heap s) = None).
  { destruct (nativeMap s !! length (heap s)) as [v|] eqn:Hv; [|done].
    specialize (Hwf _ _ Hv). lia. }
  assert (H2 : registry_wf s2 /\ nativeMap s ⊆ nativeMap s2
               /\ (length (heap s) <= length (heap s2))%nat).
  { unfold s2, s1. simpl. rewrite length_insert, length_app. simpl.
    split; [|split; [by apply insert_subseteq | lia]].
    intros l v Hl. simpl in *. rewrite length_insert, length_app. simpl.
    destruct (decide (l = length (heap s))) as [->|Hne]; [lia|].
    rewrite lookup_insert_ne in Hl by done. specialize (Hwf l v Hl). lia. }
  destruct (proto2 R args s1) as [[pp|e|] sa]; [|done..].
  destruct H2 as (Hwf2 & Hsub2 & Hlen2).
  destruct (grows_set_prop pp key (VRef (length (heap s))) s2 Hwf2)
    as (Hwf3 & Hsub3 & Hlen3).
  split; [done|]. split; [by etransitivity | lia].
Qed.

Section RegistryInvariant.

Variable R : realm.

Lemma grows_slot args (key name : string) (mk : value -> code) :
  grows (when (pp <- proto2 R args ;;
               f <- get R pp (PName key) ;;
               b <- nativeMap_has f ;; ret (negb b))
           (temp <- (pp <- proto2 R args ;; get R pp (PName key)) ;;
            hook <- new_function R name (mk temp) ;;
            pp <- proto2 R args ;;
            w <- makeNative R hook temp ;;
            set_prop pp key w)).
Proof.
  apply grows_when.
  - apply grows_bind; [apply grows_proto2|]. intros pp.
    apply grows_bind; [apply grows_get|]. intros f.
    apply grows_bind; [apply grows_nativeMap_has|]. intros b. apply grows_ret.
  - apply grows_bind.
    + apply grows_bind; [apply grows_proto2|]. intros pp. apply grows_get.
    + intros temp. apply grows_wrap.
Qed.

Lemma grows_hash_patch args : grows (hash_patch R args).
Proof.
  unfold hash_patch. apply grows_try_catch; [|apply grows_ret].
  apply grows_when.
  - unfold hash_chain, proto1.
    repeat first [ apply grows_andM | apply grows_hasOwn | apply grows_ret
                 | apply grows_get | apply grows_proto2
                 | apply grows_bind; [|intros ?] ].
  - apply (grows_slot args "finalize" "finalizeHook" CFinalizeHook).
Qed.

Lemma grows_callHook_analysis args : grows (callHook_analysis R args).
Proof.
  unfold callHook_analysis. apply grows_bind.
  - unfold rsa_shape, proto1.
    repeat first [ apply grows_andM | apply grows_read | apply grows_ret
                 | apply grows_get | apply grows_bind; [|intros ?] ].
  - intros shape. apply grows_if; [|apply grows_ret].
    unfold rsa_patch. apply grows_try_catch; [|apply grows_ret].
    apply grows_when.
    + unfold rsa_chain, proto1.
      repeat first [ apply grows_andM | apply grows_hasOwn | apply grows_read
                   | apply grows_ret | apply grows_get | apply grows_proto2
                   | apply grows_bind; [|intros ?] ].
    + apply grows_bind.
      * apply (grows_slot args "encrypt" "encryptHook" CEncryptHook).
      * intros _. apply (grows_slot args "decrypt" "decryptHook" CDecryptHook).
Qed.


End RegistryInvariant.

Lemma installed_registry_wf : registry_wf installed.
Proof.
  intros l v Hl.
  assert (Hdom : forallb (fun l => (l <? length (heap installed))%nat)
                   (map fst (map_to_list (nativeMap installed))) = true)
    by (vm_compute; reflexivity).
  rewrite forallb_forall in Hdom.
  apply Nat.ltb_lt, Hdom. apply in_map_iff. exists (l, v). split; [done|].
  apply list_elem_of_In. by apply elem_of_map_to_list.
Qed.


(** ** Classification of symmetric encryption *)

(** The apply hook classifies a call as symmetric encryption when its
    analysis prints the encryption banner. *)
Definition classified_encrypt (R : realm) (H : host) (this : value)
  (arguments : list value) (s : state) : Prop :=
  [encrypt_banner] ∈ new_log s (applyHook_analysis R H this arguments s).2.

(** The conditions under which the code does so. *)
Definition encrypt_conditions (R : realm) (s : state) (src : jstring)
  (arguments : list value) : Prop :=
  let a0 := arg arguments 0 in
  let a1 := arg arguments 1 in
  length arguments = 2%nat
  /\ truthy a0 = true /\ truthy a1 = true
  /\ typeof_object (heap s) a1 = true
  /\ get R a1 (PName "length") s = (Ret (VNum 1), s)
  /\ (exists first, get R a1 (PIdx 0) s = (Ret first, s)
                    /\ hasEncryptProp R (heap s) first = true)
  /\ hasOwn a0 "$super" s = (Ret true, s)
  /\ hasOwn a1 "callee" s = (Ret true, s)
  /\ encrypt_source_shape src = true.

Definition not_encrypt_banner (e : list value) : Prop := e <> [encrypt_banner].

Lemma not_in_log {A} (P : list value -> Prop) (m : M A) (e : list value) s :
  logs P m -> ~ P e -> e ∉ new_log s (m s).2.
Proof.
  intros Hl HP Hin. destruct (Hl s) as (ext & He & Hall).
  rewrite (new_log_app _ _ _ He) in Hin.
  rewrite Forall_forall in Hall. by apply HP, Hall.
Qed.

Section EncryptClassification.

Variable R : realm.
Variable H : host.

(** Entries that the decryption report prints. *)
Ltac logs_other :=
  repeat first
    [ apply logs_formatKey
    | apply logs_get
    | apply logs_hasOwn
    | apply logs_ret
    | apply logs_console_log; first [ done | intros Heq; by vm_compute in Heq ]
    | apply logs_when
    | apply logs_andM
    | apply logs_bind; [|intros ?] ].

Lemma logs_symDecrypt_report args :
  logs not_encrypt_banner (symDecrypt_report R H args).
Proof. unfold symDecrypt_report, log_key, arg1, not_encrypt_banner. logs_other. Qed.

Lemma symEncrypt_report_banner args s :
  [encrypt_banner] ∈ new_log s (symEncrypt_report R H args s).2.
Proof.
  unfold symEncrypt_report. unfold bind at 1. unfold console_log at 1.
  cbv beta iota zeta.
  match goal with
  | |- _ ∈ new_log _ (?m ?sb).2 =>
      assert (Hl : logs (fun _ => True) m);
      [|destruct (Hl sb) as (ext & He & _)]
  end.
  { unfold log_key, arg1.
    repeat first
      [ apply logs_formatKey | apply logs_get | apply logs_hasOwn | apply logs_ret
      | apply logs_dot_call
      | apply logs_console_log; exact I
      | apply logs_when | apply logs_andM | apply logs_try_catch
      | apply logs_bind; [|intros ?] ]. }
  cbn [console] in He. rewrite <- app_assoc in He.
  rewrite (new_log_app _ _ _ He). simpl. apply list_elem_of_here.
Qed.

Lemma symEncrypt_shape_full args s :
  exists b, symEncrypt_shape R args s = (Ret b, s)
    /\ (b = true <->
        length args = 2%nat
        /\ truthy (arg args 0) = true /\ truthy (arg args 1) = true
        /\ typeof_object (heap s) (arg args 1) = true
        /\ get R (arg args 1) (PName "length") s = (Ret (VNum 1), s)
        /\ exists first, get R (arg args 1) (PIdx 0) s = (Ret first, s)
                         /\ hasEncryptProp R (heap s) first = true).
Proof.
  unfold symEncrypt_shape, andM, bind, ret, read, arg1.
  destruct (length args =? 2)%nat eqn:Hlen2.
  2:{ eexists. split; [done|]. apply Nat.eqb_neq in Hlen2.
      split; [done|]. by intros (? & _). }
  apply Nat.eqb_eq in Hlen2.
  destruct (truthy (arg args 0)) eqn:H0.
  2:{ eexists. split; [done|]. split; [done|]. by intros (_ & ? & _). }
  destruct (truthy (arg args 1)) eqn:H1.
  2:{ eexists. split; [done|]. split; [done|]. by intros (_ & _ & ? & _). }
  destruct (typeof_object (heap s) (arg args 1)) eqn:Ht.
  2:{ eexists. split; [done|]. split; [done|]. by intros (_ & _ & _ & ? & _). }
  destruct (get_truthy R (arg args 1) (PName "length") s H1) as [len Hlen].
  destruct (get_truthy R (arg args 1) (PIdx 0) s H1) as [x Hx].
  rewrite Hlen. cbv beta iota zeta.
  destruct (strict_eq len (VNum 1)) eqn:Heq.
  2:{ eexists. split; [done|]. split; [done|].
      intros (_ & _ & _ & _ & Hl & _).
      injection Hl as ->. by vm_compute in Heq. }
  apply strict_eq_true in Heq. subst len.
  rewrite Hx. cbv beta iota zeta.
  eexists. split; [done|].
  split.
  - intros Hd. repeat split; try done. exists x. done.
  - intros (_ & _ & _ & _ & _ & first & Hs & Hd). congruence.
Qed.

(** When the caller's source text is [src], the apply hook prints the
    encryption banner exactly when: there are two arguments, both
    truthy; the second is an object of length 1 that owns [callee]; its
    only value shows the eight names of a cipher parameter object; the
    first argument owns [$super]; and [src] contains the text
    [function()] or starts like a named function or like a function
    without parameters. *)
Theorem symEncrypt_classification (this : value) (args : list value) (s : state)
  (src : jstring) :
  call_method R H this "toString" [] s = (Ret (VStr src), s) ->
  classified_encrypt R H this args s <-> encrypt_conditions R s src args.
Proof.
  intros Hsrc. unfold classified_encrypt, encrypt_conditions.
  destruct (symEncrypt_shape_full args s) as (enc & Henc & Henc1).
  unfold applyHook_analysis. unfold bind at 1. rewrite Henc. cbv beta iota zeta.
  destruct enc.
  2:{ (* the encrypt branch is not taken: nothing printed is the banner *)
      split.
      - intros Hin. exfalso. revert Hin. apply not_in_log with (P := not_encrypt_banner).
        + destruct (logs_shapes R not_encrypt_banner args) as (_ & Hdec & Hhash & Hmarks).
          apply logs_bind; [done|]. intros dec. apply logs_if.
          * apply logs_when; [done|]. apply logs_when.
            -- apply logs_andM.
               ++ apply logs_bind; [apply logs_call_method|]. intros c.
                  apply logs_bind; [apply logs_indexOf_found|]. intros f.
                  apply logs_ret.
               ++ unfold arg1. apply logs_bind; [apply logs_get|]. intros x.
                  apply logs_ret.
            -- apply logs_symDecrypt_report.
          * apply logs_bind; [done|]. intros b.
            destruct b; [apply logs_hash_patch | apply logs_ret].
        + unfold not_encrypt_banner. tauto.
      - intros (H1 & H2 & H3 & H4 & H5 & H6 & _).
        assert (false = true); [|done]. apply Henc1. done. }
  destruct (proj1 Henc1 eq_refl) as (Hlen & H0 & H1 & Ht & Hl1 & first & Hfirst & Hshape).
  destruct (hasOwn_truthy (arg args 0) "$super" s H0) as [b0 Hb0].
  destruct (hasOwn_truthy (arg args 1) "callee" s H1) as [b1 Hb1].
  unfold when, delegation_marks, andM, bind, ret.
  rewrite Hb0. cbv beta iota.
  destruct b0.
  2:{ split.
      - unfold new_log. rewrite drop_all. by intros ?%not_elem_of_nil.
      - intros (_ & _ & _ & _ & _ & _ & Hs & _). congruence. }
  rewrite Hb1. cbv beta iota.
  destruct b1.
  2:{ split.
      - unfold new_log. rewrite drop_all. by intros ?%not_elem_of_nil.
      - intros (_ & _ & _ & _ & _ & _ & _ & Hc & _). congruence. }
  rewrite Hsrc. cbv beta iota.
  unfold encrypt_caller_shape, indexOf_found, bind, ret. cbv beta iota.
  rewrite orb_assoc. fold (encrypt_source_shape src).
  destruct (encrypt_source_shape src) eqn:Hshape'.
  - split; [|intros _; apply symEncrypt_report_banner].
    intros _. repeat split; try done. by exists first.
  - split.
    + unfold new_log. rewrite drop_all. by intros ?%not_elem_of_nil.
    + intros (_ & _ & _ & _ & _ & _ & _ & _ & Hf). congruence.
Qed.

End EncryptClassification.

Lemma symEncrypt_classification_witness :
  classified_encrypt R0 quiet_host (VRef 25) [VRef 23; VRef 24] encrypt_session
  <-> encrypt_conditions R0 encrypt_session caller_source [VRef 23; VRef 24].
Proof.
  apply (symEncrypt_classification R0 quiet_host (VRef 25) [VRef 23; VRef 24]
           encrypt_session caller_source).
  vm_compute. reflexivity.
Defined.

(** ** Concealment of the two interceptors *)

Section InstalledConcealment.

Variable R : realm.

(** After the script has run, the patched [toString] shows for each of
    the three new functions the text that the native [toString] showed
    for the function it replaced. *)
Theorem install_conceals (fp : object) (lt la lc : loc) (s : state) :
  heap s !! r_function R = Some fp ->
  is_indexed (o_class fp) = false ->
  o_props fp !! "toString"%string = Some (VRef lt) ->
  o_props fp !! "apply"%string = Some (VRef la) ->
  o_props fp !! "call"%string = Some (VRef lc) ->
  is_Some (heap s !! lt) -> is_Some (heap s !! la) -> is_Some (heap s !! lc) ->
  lt <> r_function R -> la <> r_function R -> lc <> r_function R ->
  let n := length (heap s) in
  let s' := (install R s).2 in
  (toString_hook R (VRef n) s').1 = (native_toString (VRef lt) s).1
  /\ (toString_hook R (VRef (S n)) s').1 = (native_toString (VRef la) s).1
  /\ (toString_hook R (VRef (S (S n))) s').1 = (native_toString (VRef lc) s).1.
Proof.
  intros Hfp Hidx Ht Ha Hc Hlt Hla Hlc Hnt Hna Hnc n s'.
  destruct (install_run R fp (VRef lt) (VRef la) (VRef lc) s Hfp Hidx Ht Ha Hc)
    as (s1 & Hrun & Hreg & _ & _ & _ & _ & _ & _ & Hsame).
  subst s'. rewrite Hrun. cbn [snd]. fold n in Hreg, Hsame.
  assert (Hshow : forall w l,
            nativeMap s1 !! w = Some (VRef l) ->
            is_Some (heap s !! l) -> l <> r_function R ->
            (toString_hook R (VRef w) s1).1 = (native_toString (VRef l) s).1).
  { intros w l Hw Hl Hne.
    assert (Hlt' : (l < n)%nat) by (destruct Hl as [o Ho]; by eapply lookup_lt_Some).
    assert (Hheap : heap s1 !! l = heap s !! l) by (by apply Hsame).
    destruct (toString_hook_outcome R (VRef w) s1) as [Hts _].
    { unfold shown. rewrite Hw. simpl. by rewrite Hheap. }
    rewrite Hts. unfold shown. rewrite Hw. cbn [default from_option id].
    apply native_toString_class. unfold class_of. by rewrite Hheap. }
  split; [|split]; apply Hshow; try done; rewrite Hreg.
  - rewrite lookup_insert_ne by lia. rewrite lookup_insert_ne by lia.
    by rewrite lookup_insert_eq.
  - rewrite lookup_insert_ne by lia. by rewrite lookup_insert_eq.
  - by rewrite lookup_insert_eq.
Qed.

End InstalledConcealment.

Lemma install_conceals_witness :
  (toString_hook R0 (VRef 9) installed).1 = (native_toString (VRef 6) pristine).1
  /\ (toString_hook R0 (VRef 10) installed).1 = (native_toString (VRef 7) pristine).1
  /\ (toString_hook R0 (VRef 11) installed).1 = (native_toString (VRef 8) pristine).1.
Proof.
  apply (install_conceals R0
           (Obj (CFunction (CTarget (js "function () { [native code] }") 0)) (VRef 0)
              (props [("toString"%string, VRef 6); ("apply"%string, VRef 7);
                      ("call"%string, VRef 8); ("name"%string, VStr []);
                      ("length"%string, VNum 0)]) [])
           6 7 8 pristine).
  - reflexivity.
  - reflexivity.
  - vm_compute. reflexivity.
  - vm_compute. reflexivity.
  - vm_compute. reflexivity.
  - vm_compute. by eexists.
  - vm_compute. by eexists.
  - vm_compute. by eexists.
  - vm_compute. lia.
  - vm_compute. lia.
  - vm_compute. lia.
Defined.

(** ** What the lazy patches change in the heap *)

(** A computation that changes, of the objects that exist, only the
    properties named in [K]. *)
Definition framed {A} (K : list string) (m : M A) : Prop :=
  forall s, frame K (heap s) (heap (m s).2).

Lemma framed_pure {A} K (m : M A) : (forall s, (m s).2 = s) -> framed K m.
Proof. intros Hm s. rewrite Hm. apply frame_refl. Qed.

Lemma framed_bind {A B} K (m : M A) (k : A -> M B) :
  framed K m -> (forall a, framed K (k a)) -> framed K (bind m k).
Proof.
  intros Hm Hk s. unfold bind. pose proof (Hm s) as H1.
  destruct (m s) as [[a|e|] s1]; simpl in *; [|done..].
  eapply frame_trans; [done | apply Hk].
Qed.

Lemma framed_try_catch {A} K (m h : M A) :
  framed K m -> framed K h -> framed K (try_catch m h).
Proof.
  intros Hm Hh s. unfold try_catch. pose proof (Hm s) as H1.
  destruct (m s) as [[a|e|] s1]; simpl in *; [done| |done].
  eapply frame_trans; [done | apply Hh].
Qed.

Lemma framed_ret {A} K (a : A) : framed K (ret a).
Proof. by apply framed_pure. Qed.

Lemma framed_get K R v k : framed K (get R v k).
Proof. apply framed_pure. intros s. apply get_state. Qed.

Lemma framed_read {A} K (f : list object -> A) : framed K (read f).
Proof. by apply framed_pure. Qed.

Lemma framed_hasOwn K v k : framed K (hasOwn v k).
Proof. apply framed_pure. intros s. unfold hasOwn. by repeat case_match. Qed.

Lemma framed_nativeMap_has K v : framed K (nativeMap_has v).
Proof. apply framed_pure. intros s. by destruct v. Qed.

Lemma framed_if {A} K (b : bool) (m1 m2 : M A) :
  framed K m1 -> framed K m2 -> framed K (if b then m1 else m2).
Proof. by destruct b. Qed.

Lemma framed_andM K a b : framed K a -> framed K b -> framed K (a &&& b).
Proof.
  intros Ha Hb. unfold andM. apply framed_bind; [done|].
  intros x. apply framed_if; [done | apply framed_ret].
Qed.

Lemma framed_when K c m : framed K c -> framed K m -> framed K (when c m).
Proof.
  intros Hc Hm. unfold when. apply framed_bind; [done|].
  intros x. apply framed_if; [done | apply framed_ret].
Qed.

Lemma framed_set_prop K v k x : k ∈ K -> framed K (set_prop v k x).
Proof.
  intros Hk s. unfold set_prop.
  destruct v as [| | | | |l]; try apply frame_refl.
  destruct (heap s !! l) as [o|] eqn:Hl; [|apply frame_refl]. simpl.
  by apply (frame_with_prop K (heap s) l o k x).
Qed.

Lemma framed_proto2 K R args : framed K (proto2 R args).
Proof.
  unfold proto2, proto1. apply framed_bind; [apply framed_get|].
  intros p. apply framed_get.
Qed.

Lemma framed_wrap K R args (name key : string) (c : code) (temp : value) :
  key ∈ K ->
  framed K (hook <- new_function R name c ;;
            pp <- proto2 R args ;;
            w <- makeNative R hook temp ;;
            set_prop pp key w).
Proof.
  intros Hk s.
  destruct (wrap_run R args name key c temp s) as (f & Hm).
  rewrite Hm. clear Hm. cbv zeta.
  destruct (proto2 R args _) as [[pp|e|] sa]; [|apply frame_app..].
  eapply frame_trans.
  - apply (frame_insert_new K (heap s) [fresh_function R name c] (length (heap s)) f).
    lia.
  - apply (framed_set_prop K pp key (VRef (length (heap s))) Hk
             (State (<[length (heap s) := f]> (heap s ++ [fresh_function R name c]))
                    (<[length (heap s) := temp]> (nativeMap s)) (console s))).
Qed.

Section PatchFrame.

Variable R : realm.

Lemma framed_slot K args (key name : string) (mk : value -> code) :
  key ∈ K ->
  framed K (when (pp <- proto2 R args ;;
                  f <- get R pp (PName key) ;;
                  b <- nativeMap_has f ;; ret (negb b))
              (temp <- (pp <- proto2 R args ;; get R pp (PName key)) ;;
               hook <- new_function R name (mk temp) ;;
               pp <- proto2 R args ;;
               w <- makeNative R hook temp ;;
               set_prop pp key w)).
Proof.
  intros Hk. apply framed_when.
  - apply framed_bind; [apply framed_proto2|]. intros pp.
    apply framed_bind; [apply framed_get|]. intros f.
    apply framed_bind; [apply framed_nativeMap_has|]. intros b. apply framed_ret.
  - apply framed_bind.
    + apply framed_bind; [apply framed_proto2|]. intros pp. apply framed_get.
    + intros temp. by apply framed_wrap.
Qed.

Lemma framed_hash_patch args : framed ["finalize"%string] (hash_patch R args).
Proof.
  unfold hash_patch. apply framed_try_catch; [|apply framed_ret].
  apply framed_when.
  - unfold hash_chain, proto1.
    repeat first [ apply framed_andM | apply framed_hasOwn | apply framed_ret
                 | apply framed_get | apply framed_proto2
                 | apply framed_bind; [|intros ?] ].
  - apply (framed_slot _ args "finalize" "finalizeHook" CFinalizeHook). names.
Qed.

Lemma framed_callHook_analysis args :
  framed ["encrypt"; "decrypt"]%string (callHook_analysis R args).
Proof.
  unfold callHook_analysis. apply framed_bind.
  - unfold rsa_shape, proto1.
    repeat first [ apply framed_andM | apply framed_read | apply framed_ret
                 | apply framed_get | apply framed_bind; [|intros ?] ].
  - intros shape. apply framed_if; [|apply framed_ret].
    unfold rsa_patch. apply framed_try_catch; [|apply framed_ret].
    apply framed_when.
    + unfold rsa_chain, proto1.
      repeat first [ apply framed_andM | apply framed_hasOwn | apply framed_read
                   | apply framed_ret | apply framed_get | apply framed_proto2
                   | apply framed_bind; [|intros ?] ].
    + apply framed_bind.
      * apply (framed_slot _ args "encrypt" "encryptHook" CEncryptHook). names.
      * intros _.
        apply (framed_slot _ args "decrypt" "decryptHook" CDecryptHook). names.
Qed.

(** Whatever the arguments, the hash branch of the apply hook changes,
    of the objects that exist, only properties named [finalize], and the
    analysis of the call hook only properties named [encrypt] and
    [decrypt]: every object is still there with its class, prototype
    and elements, no other property has another value, and no property
    is removed. *)
Theorem patches_frame (args : list value) (s : state) :
  frame ["finalize"%string] (heap s) (heap (hash_patch R args s).2)
  /\ frame ["encrypt"; "decrypt"]%string (heap s)
       (heap (callHook_analysis R args s).2).
Proof. split; [apply framed_hash_patch | apply framed_callHook_analysis]. Qed.

End PatchFrame.
